(** * Cubent: lexer, parser and emitter of the Cubent-to-datapack compiler

    A shallow embedding of [src/lexer.py] and [src/compiler.py].

    Source text is a list of characters, each a code point below 256.  The
    character classes of Python's [str] methods are those of Unicode on
    these code points.  Python exceptions that escape a method are a result
    of their own ([Raise]), distinct from a method returning [False]
    ([Fail]). *)

From Stdlib Require Import List Ascii String ZArith NArith Lia Bool Arith.
Import ListNotations.

Local Open Scope char_scope.
Local Open Scope nat_scope.
Local Open Scope list_scope.

(** ** Python values used by the compiler *)

Definition str := list ascii.

Definition S_ (s : string) : str := list_ascii_of_string s.

Definition NUL : ascii := "000".
Definition LF : ascii := "010".
Definition CR : ascii := "013".
Definition DQUOTE : ascii := "034".
Definition SQUOTE : ascii := "'".
Definition BACKSLASH : ascii := "\".

Fixpoint str_eqb (a b : str) : bool :=
  match a, b with
  | [], [] => true
  | x :: a', y :: b' => Ascii.eqb x y && str_eqb a' b'
  | _, _ => false
  end.

Fixpoint path_eqb (a b : list str) : bool :=
  match a, b with
  | [], [] => true
  | x :: a', y :: b' => str_eqb x y && path_eqb a' b'
  | _, _ => false
  end.

(** [x in l] for a list of strings *)
Definition str_in (x : str) (l : list str) : bool := existsb (str_eqb x) l.

(** [ch in s] where [ch] is one character *)
Definition ch_in (c : ascii) (s : str) : bool := existsb (Ascii.eqb c) s.

(** [x == y] where [x] may be [None] and [y] is a string literal *)
Definition body_is (b : option str) (lit : string) : bool :=
  match b with
  | Some s => str_eqb s (S_ lit)
  | None => false
  end.

(** [sep.join(parts)] *)
Fixpoint join (sep : str) (parts : list str) : str :=
  match parts with
  | [] => []
  | [p] => p
  | p :: rest => p ++ sep ++ join sep rest
  end.

(** [str.isspace], [str.isdecimal], [str.isdigit], [str.isalpha],
    [str.isalnum] and [str.lower] on one character.  Beyond ASCII the
    spaces are NEL and the no-break space; the digits, the superscripts
    one, two and three, which are no decimal digits; the letters, the
    ordinal indicators, the micro sign and the accented letters; and the
    three vulgar fractions are alphanumeric. *)
Definition code (c : ascii) : nat := nat_of_ascii c.

Definition between (low high : nat) (c : ascii) : bool :=
  (low <=? code c) && (code c <=? high).

Definition is_code (n : nat) (c : ascii) : bool := code c =? n.

Definition isspace (c : ascii) : bool :=
  between 9 13 c || between 28 32 c || is_code 133 c || is_code 160 c.

Definition isdecimal (c : ascii) : bool := between 48 57 c.

Definition isdigit (c : ascii) : bool :=
  isdecimal c || between 178 179 c || is_code 185 c.

Definition isalpha (c : ascii) : bool :=
  between 65 90 c || between 97 122 c
  || is_code 170 c || is_code 181 c || is_code 186 c
  || between 192 214 c || between 216 246 c || between 248 255 c.

Definition isalnum (c : ascii) : bool :=
  isalpha c || isdigit c || between 188 190 c.

Definition lower (c : ascii) : ascii :=
  if between 65 90 c || between 192 214 c || between 216 222 c
  then ascii_of_nat (code c + 32)
  else c.

(** CPython's default limit on the digits of a conversion between [int]
    and [str] *)
Definition MAX_STR_DIGITS : nat := 4300.

(** [int(s)] for a string of characters of the digit class, which is what
    the code hands to it; [None] is [ValueError]: on the empty string, on
    a digit that is no decimal digit, and on more digits than the limit. *)
Definition digit_value (c : ascii) : Z := Z.of_nat (code c) - 48.

Definition int_digits (s : str) : Z :=
  fold_left (fun acc c => 10 * acc + digit_value c)%Z s 0%Z.

Definition int (s : str) : option Z :=
  match s with
  | [] => None
  | _ =>
      if forallb isdecimal s && (List.length s <=? MAX_STR_DIGITS)
      then Some (int_digits s)
      else None
  end.

(** The decimal digits of an integer, without a limit on their number *)
Definition digit_char (n : N) : ascii := ascii_of_N (48 + n).

Fixpoint digits_of (fuel : nat) (n : N) : str :=
  match fuel with
  | O => []
  | S fuel' =>
      if (n <? 10)%N then [digit_char n]
      else digits_of fuel' (n / 10)%N ++ [digit_char (n mod 10)%N]
  end.

Definition str_of_N (n : N) : str := digits_of (S (N.to_nat (N.size n))) n.

Definition str_of_Z (z : Z) : str :=
  if (z <? 0)%Z then "-" :: str_of_N (Z.to_N (- z)) else str_of_N (Z.to_N z).

Definition str_of_nat (n : nat) : str := str_of_N (N.of_nat n).

(** [s.replace(old, new)] for a one-character [old] *)
Fixpoint replace (old : ascii) (new : str) (s : str) : str :=
  match s with
  | [] => []
  | c :: s' => (if Ascii.eqb c old then new else [c]) ++ replace old new s'
  end.

(** [s.find(ch)]: index of the first occurrence, or [-1] *)
Fixpoint find_from (c : ascii) (s : str) (i : Z) : Z :=
  match s with
  | [] => (-1)%Z
  | x :: s' => if Ascii.eqb x c then i else find_from c s' (i + 1)%Z
  end.

Definition find (c : ascii) (s : str) : Z := find_from c s 0%Z.

(** [s.rstrip(chars)] *)
Definition rstrip (chars : str) (s : str) : str :=
  rev ((fix drop (l : str) : str :=
          match l with
          | [] => []
          | c :: l' => if ch_in c chars then drop l' else l
          end) (rev s)).

(** [s.splitlines()]: the line boundaries are LF, VT, FF, CR, CR LF, FS,
    GS, RS and NEL. *)
Definition is_linebreak (c : ascii) : bool :=
  between 10 13 c || between 28 30 c || is_code 133 c.

Fixpoint splitlines_from (cur : str) (s : str) : list str :=
  match s with
  | [] => match cur with [] => [] | _ => [cur] end
  | c :: s' =>
      if is_linebreak c then
        match s' with
        | c' :: s'' =>
            if Ascii.eqb c CR && Ascii.eqb c' LF
            then cur :: splitlines_from [] s''
            else cur :: splitlines_from [] s'
        | [] => [cur]
        end
      else splitlines_from (cur ++ [c]) s'
  end.

Definition splitlines (s : str) : list str := splitlines_from [] s.

(** An insertion-ordered [dict] with string keys: [d[k] = v] keeps the
    position of an existing key. *)
Definition dict (V : Type) := list (str * V).

Fixpoint dict_get {V} (d : dict V) (k : str) : option V :=
  match d with
  | [] => None
  | (k', v) :: d' => if str_eqb k k' then Some v else dict_get d' k
  end.

Definition dict_has {V} (d : dict V) (k : str) : bool :=
  match dict_get d k with Some _ => true | None => false end.

Fixpoint dict_set {V} (d : dict V) (k : str) (v : V) : dict V :=
  match d with
  | [] => [(k, v)]
  | (k', v') :: d' =>
      if str_eqb k k' then (k', v) :: d' else (k', v') :: dict_set d' k v
  end.

Definition dict_keys {V} (d : dict V) : list str := map fst d.

(** ** Results of a method *)

Inductive PyExc : Type :=
| AttributeError | ValueError | TypeError | IndexError | KeyError
| StopIteration | FileExistsError.

(** A file-system path, as the list of the components handed to
    [os.path.join]. *)
Definition Path := list str.

Record Position : Type := mkPosition {
  p_offset : nat;
  p_line : nat;
  p_column : nat
}.

(** ** compiler.py: contexts and errors *)

Record Context : Type := mkContext {
  file_name : Path;
  source_code : str;
  function_path : option str;
  ctx_position : option Position
}.

Definition in_function (self : Context) (function_path : str) : Context :=
  mkContext (file_name self) (source_code self) (Some function_path) (ctx_position self).

Definition at_position (self : Context) (position : Position) : Context :=
  mkContext (file_name self) (source_code self) (function_path self) (Some position).

Record CompilationError : Type := mkCompilationError {
  err_position : Position;
  err_line : str;
  err_file_name : Path;
  err_function_path : option str;
  err_message : str
}.

(** The value of [Compiler.error]: a [CompilationError] or a plain string. *)
Inductive Error : Type :=
| ErrorAt (e : CompilationError)
| ErrorText (s : str).

(** What a method hands back: a value; [False] with [self.error] as given
    ([None] when the method leaves it unset); or an exception that escapes
    it.  [OutOfFuel] belongs to the model only. *)
Inductive outcome (A : Type) : Type :=
| Ok (a : A)
| Fail (e : option Error)
| Raise (x : PyExc)
| OutOfFuel.

Arguments Ok {A} a.
Arguments Fail {A} e.
Arguments Raise {A} x.
Arguments OutOfFuel {A}.

Definition bind {A B} (m : outcome A) (k : A -> outcome B) : outcome B :=
  match m with
  | Ok a => k a
  | Fail e => Fail e
  | Raise x => Raise x
  | OutOfFuel => OutOfFuel
  end.

Notation "'let*' x ':=' m 'in' k" := (bind m (fun x => k))
  (at level 10, x pattern, m at level 200, k at level 200).

(** [str(z)], ["%d" % z] and [z] in an f-string: a [ValueError] when [z]
    has more digits than the limit *)
Definition format_int (z : Z) : outcome str :=
  if List.length (str_of_N (Z.abs_N z)) <=? MAX_STR_DIGITS
  then Ok (str_of_Z z)
  else Raise ValueError.

(** [CompilationError(context, message)]: the constructor reads the source
    line of the position, which is an [IndexError] when the text has no such
    line. *)
Definition CompilationError_init (context : Context) (message : str)
  : outcome CompilationError :=
  match ctx_position context with
  | None => Raise AttributeError
  | Some pos =>
      match nth_error (splitlines (source_code context)) (p_line pos) with
      | Some ln =>
          Ok (mkCompilationError pos ln (file_name context) (function_path context) message)
      | None => Raise IndexError
      end
  end.

(** [self.error = CompilationError(context, message); return False] *)
Definition error {A} (context : Context) (message : str) : outcome A :=
  let* e := CompilationError_init context message in Fail (Some (ErrorAt e)).

(** ** compiler.py: types *)

(** The values [getattr(CubentType, name)] can return.  [Void] is, by the
    trailing comma of its assignment, a one-element tuple and not a
    [CubentType]: reading [.path] from it is an [AttributeError].  Two of
    the others are equal when their paths are. *)
Inductive CubentType : Type :=
| Void | Any | Byte | Boolean | Short | Int | Long | Float | Double | String_.

Definition CubentType_eqb (a b : CubentType) : bool :=
  match a, b with
  | Void, Void | Any, Any | Byte, Byte | Boolean, Boolean | Short, Short
  | Int, Int | Long, Long | Float, Float | Double, Double | String_, String_ => true
  | _, _ => false
  end.

(** [t.path], a one-element list; [None] for the tuple [Void] *)
Definition type_path (t : CubentType) : option (list str) :=
  match t with
  | Void => None
  | Any => Some [S_ "Any"]
  | Byte => Some [S_ "Byte"]
  | Boolean => Some [S_ "Boolean"]
  | Short => Some [S_ "Short"]
  | Int => Some [S_ "Int"]
  | Long => Some [S_ "Long"]
  | Float => Some [S_ "Float"]
  | Double => Some [S_ "Double"]
  | String_ => Some [S_ "String"]
  end.

(** ** lexer.py *)

Inductive LexemeType : Type :=
| EOF | KEYWORD | TYPE | IDENTIFIER
| BYTE | BOOLEAN | SHORT | INT | LONG | FLOAT | DOUBLE | STRING.

Definition LexemeType_eqb (a b : LexemeType) : bool :=
  match a, b with
  | EOF, EOF | KEYWORD, KEYWORD | TYPE, TYPE | IDENTIFIER, IDENTIFIER
  | BYTE, BYTE | BOOLEAN, BOOLEAN | SHORT, SHORT | INT, INT | LONG, LONG
  | FLOAT, FLOAT | DOUBLE, DOUBLE | STRING, STRING => true
  | _, _ => false
  end.

(** [Lexeme(lexemeType, position, body)]: [lexemeType] is [None] for
    punctuation and for an invalid literal, [body] is [None] for [EOF]. *)
Record Lexeme : Type := mkLexeme {
  lx_type : option LexemeType;
  lx_position : Position;
  lx_body : option str
}.

Definition type_is (l : Lexeme) (t : LexemeType) : bool :=
  match lx_type l with
  | Some t' => LexemeType_eqb t' t
  | None => false
  end.

(** [str(lexeme)], as the f-strings of the error messages use it *)
Definition Lexeme_str (l : Lexeme) : str :=
  match lx_body l with
  | Some b => [SQUOTE] ++ b ++ [SQUOTE]
  | None => S_ "'None'"
  end.

Record Lexer : Type := mkLexer {
  offset : nat;
  line : nat;
  column : nat;
  text : str
}.

Definition keywords : list str :=
  map S_ ["namespace"; "import"; "as"; "function"; "mcfunction"; "var"; "if"; "else"]%string.

Definition types : list str :=
  map S_ ["Void"; "Any"; "Byte"; "Boolean"; "Short"; "Int"; "Long"; "Float";
          "Double"; "String"; "List"; "Compound"; "ByteArray"; "IntArray";
          "LongArray"]%string.

Definition Lexer_init (t : str) : Lexer := mkLexer 0 0 0 t.

Definition peekch (self : Lexer) : ascii := nth (offset self) (text self) NUL.

Definition consume (self : Lexer) : Lexer :=
  if Ascii.eqb (peekch self) LF
  then mkLexer (offset self + 1) (line self + 1) 0 (text self)
  else mkLexer (offset self + 1) (line self) (column self + 1) (text self).

Definition position (self : Lexer) : Position :=
  mkPosition (offset self) (line self) (column self).

(** Characters left before the end of the text.  Every loop of the lexer
    consumes one character per iteration and stops on ["\0"], which
    [peekch] returns from the end of the text on, so this many iterations
    are enough for each of them. *)
Definition remaining (self : Lexer) : nat := List.length (text self) - offset self.

(** [while self.peekch().isspace(): self.consume()] *)
Fixpoint skip_space_loop (n : nat) (self : Lexer) : Lexer :=
  match n with
  | O => self
  | S n' => if isspace (peekch self) then skip_space_loop n' (consume self) else self
  end.

Definition skip_space (self : Lexer) : Lexer := skip_space_loop (remaining self) self.

(** [while self.peekch() not in "\r\n\0": self.consume()] *)
Fixpoint line_comment_loop (n : nat) (self : Lexer) : Lexer :=
  match n with
  | O => self
  | S n' =>
      if ch_in (peekch self) [CR; LF; NUL] then self
      else line_comment_loop n' (consume self)
  end.

(** The body of a block comment: up to and including the first ["*/"], or
    to the end of the text. *)
Fixpoint block_comment_loop (n : nat) (self : Lexer) : Lexer :=
  match n with
  | O => self
  | S n' =>
      if Ascii.eqb (peekch self) NUL then self
      else
        let ch := peekch self in
        let self := consume self in
        if Ascii.eqb ch "*" then
          if Ascii.eqb (peekch self) "/" then consume self
          else block_comment_loop n' self
        else block_comment_loop n' self
  end.

(** [while self.peekch().isdigit(): body += self.peekch(); self.consume()] *)
Fixpoint digits_loop (n : nat) (self : Lexer) (body : str) : Lexer * str :=
  match n with
  | O => (self, body)
  | S n' =>
      if isdigit (peekch self)
      then digits_loop n' (consume self) (body ++ [peekch self])
      else (self, body)
  end.

(** [while self.peekch().isalnum(): body += self.peekch(); self.consume()] *)
Fixpoint alnum_loop (n : nat) (self : Lexer) (body : str) : Lexer * str :=
  match n with
  | O => (self, body)
  | S n' =>
      if isalnum (peekch self)
      then alnum_loop n' (consume self) (body ++ [peekch self])
      else (self, body)
  end.

Section Cubent.

(** [float(body) + 3.4E38 > 6.8E38], a comparison of binary floating-point
    numbers, is left to the host. *)
Variable float_exceeds : str -> bool.

(** [float(s)] for a string of dots and characters of the digit class:
    it raises [ValueError] unless [s] is decimal digits around at most
    one dot, with one digit at least. *)
Definition float_parses (s : str) : bool :=
  forallb (fun c => isdecimal c || Ascii.eqb c ".") s
  && existsb isdecimal s
  && (List.length (filter (Ascii.eqb ".") s) <=? 1).

Definition read_number (self : Lexer) : outcome (Lexeme * Lexer) :=
  let position := position self in
  let '(self, body) := digits_loop (remaining self) self [] in
  let '(self, body) :=
    if Ascii.eqb (peekch self) "."
    then digits_loop (remaining (consume self)) (consume self) (body ++ [peekch self])
    else (self, body) in
  let ch := lower (peekch self) in
  let invalid := Ok (mkLexeme None position (Some body), self) in
  let suffixed t := Ok (mkLexeme (Some t) position (Some (body ++ [ch])), consume self) in
  let ranged (limit top : Z) (t : LexemeType) :=
    if ch_in "." body then invalid
    else match int body with
         | None => Raise ValueError
         | Some v => if (v + limit >? top)%Z then invalid else suffixed t
         end in
  if Ascii.eqb ch "b" then ranged 128%Z 255%Z BYTE
  else if Ascii.eqb ch "s" then ranged 32768%Z 65535%Z SHORT
  else if Ascii.eqb ch "l" then
    ranged 9223372036854775808%Z 18446744073709551615%Z LONG
  else if Ascii.eqb ch "f" then
    if float_parses body
    then if float_exceeds body then invalid else suffixed FLOAT
    else Raise ValueError
  else if Ascii.eqb ch "d" then suffixed DOUBLE
  else if ch_in "." body then Ok (mkLexeme (Some DOUBLE) position (Some body), self)
  else match int body with
       | None => Raise ValueError
       | Some v =>
           if (v + 2147483648 <=? 4294967295)%Z
           then Ok (mkLexeme (Some INT) position (Some body), self)
           else invalid
       end.

(** The [while self.peekch() != delimiter] loop of [read_string]; the
    result is the lexeme type, the body and the lexer after the literal. *)
Fixpoint string_loop (n : nat) (delimiter : ascii) (self : Lexer) (body : str)
  : option LexemeType * str * Lexer :=
  match n with
  | O => (None, body, self)
  | S n' =>
      if Ascii.eqb (peekch self) delimiter
      then (Some STRING, body ++ [peekch self], consume self)
      else
        let ch := peekch self in
        if ch_in ch [CR; LF; NUL] then (None, body, self)
        else
          let self := consume self in
          let body := body ++ [ch] in
          if Ascii.eqb ch BACKSLASH then
            let ch := peekch self in
            if ch_in ch [BACKSLASH; DQUOTE; SQUOTE]
            then string_loop n' delimiter (consume self) (body ++ [ch])
            else (None, body, self)
          else string_loop n' delimiter self body
  end.

Definition read_string (self : Lexer) : Lexeme * Lexer :=
  let position := position self in
  let delimiter := peekch self in
  let body := [delimiter] in
  let self := consume self in
  let '(t, body, self) := string_loop (S (remaining self)) delimiter self body in
  (mkLexeme t position (Some body), self).

Definition read_identifier (self : Lexer) : Lexeme * Lexer :=
  let position := position self in
  let '(self, body) := alnum_loop (remaining self) self [] in
  let lexemeType :=
    if str_in body keywords then KEYWORD
    else if str_in body types then TYPE
    else if str_eqb body (S_ "true") || str_eqb body (S_ "false") then BOOLEAN
    else IDENTIFIER in
  (mkLexeme (Some lexemeType) position (Some body), self).

(** [Lexer.next].  The result is [Some lexeme], or [None] where the
    method runs off its [if]/[elif] chain without a [return].  The
    recursive calls after a comment are counted by [fuel]. *)
Fixpoint next_fuel (fuel : nat) (self : Lexer) : outcome (option Lexeme * Lexer) :=
  match fuel with
  | O => OutOfFuel
  | S fuel' =>
      let self := skip_space self in
      let ch := peekch self in
      if Ascii.eqb ch NUL then
        Ok (Some (mkLexeme (Some EOF) (position self) None), self)
      else if Ascii.eqb ch "/" then
        let self := consume self in
        let ch := peekch self in
        if Ascii.eqb ch "/" then
          let self := consume self in
          next_fuel fuel' (line_comment_loop (remaining self) self)
        else if Ascii.eqb ch "*" then
          let self := consume self in
          next_fuel fuel' (block_comment_loop (remaining self) self)
        else Ok (None, self)
      else if Ascii.eqb ch "=" then
        let position := position self in
        let body := [ch] in
        let self := consume self in
        let ch := peekch self in
        if Ascii.eqb ch "="
        then Ok (Some (mkLexeme None position (Some (body ++ [ch]))), consume self)
        else Ok (Some (mkLexeme None position (Some body)), self)
      else if isdigit ch || Ascii.eqb ch "." then
        let* (l, self) := read_number self in Ok (Some l, self)
      else if ch_in ch [DQUOTE; SQUOTE] then
        let '(l, self) := read_string self in Ok (Some l, self)
      else if isalpha ch then
        let '(l, self) := read_identifier self in Ok (Some l, self)
      else
        let position := position self in
        Ok (Some (mkLexeme None position (Some [ch])), consume self)
  end.

(** Each recursive call comes after a comment opener of two characters. *)
Definition next (self : Lexer) : outcome (option Lexeme * Lexer) :=
  next_fuel (S (remaining self)) self.

(** [Lexer.lookahead]: [next] with the lexer state put back. *)
Definition lookahead (self : Lexer) : outcome (option Lexeme) :=
  let* (l, _) := next self in Ok l.

(** [lex(text)]: the lexemes that successive calls of [next] return, up
    to the first [EOF]. *)
Fixpoint lex_loop (n : nat) (self : Lexer) : outcome (list (option Lexeme)) :=
  match n with
  | O => OutOfFuel
  | S n' =>
      let* (l, self) := next self in
      match l with
      | Some (mkLexeme (Some EOF) _ _) => Ok [l]
      | _ => let* ls := lex_loop n' self in Ok (l :: ls)
      end
  end.

Definition lex (t : str) : outcome (list (option Lexeme)) :=
  lex_loop (S (List.length t)) (Lexer_init t).

(** In the parser every result of [next] and [lookahead] has an attribute
    read at once ([.body], [.type]), or follows a [lookahead] from the same
    lexer state that had one read; on [None] that read is an
    [AttributeError]. *)
Definition next_lexeme (lexer : Lexer) : outcome (Lexeme * Lexer) :=
  let* (l, lexer) := next lexer in
  match l with
  | Some l => Ok (l, lexer)
  | None => Raise AttributeError
  end.

Definition lookahead_lexeme (lexer : Lexer) : outcome Lexeme :=
  let* (l, _) := next_lexeme lexer in Ok l.

(** ** compiler.py: the intermediate representation *)

(** The operands of [LOAD], a type and a value of it: the parser pairs
    [Boolean] with a [bool], the integer types with an [int], [Float] and
    [Double] with a [float] (kept as the literal it was read from) and
    [String] with the decoded text. *)
Inductive Literal : Type :=
| LitBoolean (b : bool)
| LitByte (z : Z)
| LitShort (z : Z)
| LitInt (z : Z)
| LitLong (z : Z)
| LitFloat (source : str)
| LitDouble (source : str)
| LitString (s : str).

Definition literal_type (v : Literal) : CubentType :=
  match v with
  | LitBoolean _ => Boolean
  | LitByte _ => Byte
  | LitShort _ => Short
  | LitInt _ => Int
  | LitLong _ => Long
  | LitFloat _ => Float
  | LitDouble _ => Double
  | LitString _ => String_
  end.

(** [Operation] with the operands that [Command.data] holds for it; a
    [Command] is its [Context] and its operation. *)
#[local] Unset Elimination Schemes.
Inductive Operation : Type :=
| LOAD (v : Literal)
| DECLARE_VAR (name : str)
| GET_VAR (name : str)
| SET_VAR (name : str)
| GET_PROP (name : str)
| SET_PROP (name : str)
| CALL (path : list str) (argc : nat)
| GET_ARG (index : nat)
| DO_IF (block : list (Context * Operation))
| ADD | SUB | DIV | MUL
| EQ | NEQ
| OR | AND.
#[local] Set Elimination Schemes.

Definition Command : Type := Context * Operation.

(** The commands with the argument count of every call, also in the
    blocks of [DO_IF], put to zero *)
Fixpoint forget_argc (operation : Operation) : Operation :=
  match operation with
  | CALL path _ => CALL path 0
  | DO_IF block =>
      DO_IF (map (fun command : Context * Operation =>
                    (fst command, forget_argc (snd command))) block)
  | other => other
  end.

Definition forget_argcs (commands : list Command) : list Command :=
  map (fun command : Command => (fst command, forget_argc (snd command))) commands.

Definition command_context (c : Command) : Context := fst c.
Definition operation (c : Command) : Operation := snd c.

Inductive Function : Type :=
| CubentFunction (path : list str) (parameters : dict CubentType)
    (return_type : CubentType) (commands : list Command)
| MCFunction (path : list str) (parameters : dict CubentType)
    (return_type : CubentType) (location : str).

Definition fn_path (f : Function) : list str :=
  match f with
  | CubentFunction p _ _ _ | MCFunction p _ _ _ => p
  end.

Definition fn_parameters (f : Function) : dict CubentType :=
  match f with
  | CubentFunction _ ps _ _ | MCFunction _ ps _ _ => ps
  end.

Definition fn_return_type (f : Function) : CubentType :=
  match f with
  | CubentFunction _ _ r _ | MCFunction _ _ r _ => r
  end.

Definition operators : list (list str) :=
  [ [S_ "+"; S_ "-"];
    [S_ "*"; S_ "/"];
    [S_ "=="; S_ "!="];
    [S_ "||"; S_ "&&"] ].

Definition operations : dict Operation :=
  [ (S_ "+", ADD); (S_ "-", SUB); (S_ "*", MUL); (S_ "/", DIV);
    (S_ "==", EQ); (S_ "!=", NEQ); (S_ "||", OR); (S_ "&&", AND) ].

(** [[operator for operators in self.operators[precedence:] for operator
    in operators]] *)
Definition operators_from (precedence : nat) : list str :=
  List.concat (skipn precedence operators).

(** [getattr(CubentType, name)] for a [name] the lexer classified as a
    type: the names beyond the first ten are not attributes. *)
Definition getattr_CubentType (name : option str) : outcome CubentType :=
  match name with
  | None => Raise TypeError
  | Some name =>
      if str_eqb name (S_ "Void") then Ok Void
      else if str_eqb name (S_ "Any") then Ok Any
      else if str_eqb name (S_ "Byte") then Ok Byte
      else if str_eqb name (S_ "Boolean") then Ok Boolean
      else if str_eqb name (S_ "Short") then Ok Short
      else if str_eqb name (S_ "Int") then Ok Int
      else if str_eqb name (S_ "Long") then Ok Long
      else if str_eqb name (S_ "Float") then Ok Float
      else if str_eqb name (S_ "Double") then Ok Double
      else if str_eqb name (S_ "String") then Ok String_
      else Raise AttributeError
  end.

(** The body of an identifier, keyword, type, literal or punctuation
    lexeme is a string; only [EOF] has none. *)
Definition body_str (l : Lexeme) : str :=
  match lx_body l with
  | Some b => b
  | None => S_ "None"
  end.

(** The loop that decodes a string literal: from the character after the
    opening delimiter, while the offset is before the closing one, a
    backslash takes the next character instead. *)
Fixpoint unescape (s : str) : str :=
  match s with
  | c :: ((c' :: s'') as s') =>
      if Ascii.eqb c BACKSLASH then c' :: unescape s'' else c :: unescape s'
  | _ => []
  end.

Definition decode_string (body : str) : str := unescape (tl body).

(** ** compiler.py: the parser *)

Definition Imports : Type := dict (list str).

(** [imports[name] = path] for every [import] statement at the head of
    the file *)
Fixpoint import_path_loop (fuel : nat) (lexer : Lexer) (context : Context)
    (lexeme : Lexeme) (path : list str) : outcome (Lexeme * Lexer * list str) :=
  match fuel with
  | O => OutOfFuel
  | S fuel =>
      if body_is (lx_body lexeme) "." then
        let* (lexeme, lexer) := next_lexeme lexer in
        if negb (type_is lexeme IDENTIFIER) then
          error (at_position context (lx_position lexeme))
            (S_ "Expected identifier, got " ++ Lexeme_str lexeme)
        else
          let path := path ++ [body_str lexeme] in
          let* (lexeme, lexer) := next_lexeme lexer in
          import_path_loop fuel lexer context lexeme path
      else Ok (lexeme, lexer, path)
  end.

Fixpoint parse_imports (fuel : nat) (lexer : Lexer) (context : Context)
    (imports : Imports) : outcome (Lexer * Imports) :=
  match fuel with
  | O => OutOfFuel
  | S fuel =>
      let* la := lookahead_lexeme lexer in
      if body_is (lx_body la) "import" then
        let* (_, lexer) := next_lexeme lexer in
        let path := [] in
        let* (lexeme, lexer) := next_lexeme lexer in
        if negb (type_is lexeme IDENTIFIER) then
          error (at_position context (lx_position lexeme))
            (S_ "Expected identifier, got " ++ Lexeme_str lexeme)
        else
          let path := path ++ [body_str lexeme] in
          let* (lexeme, lexer) := next_lexeme lexer in
          if negb (body_is (lx_body lexeme) ".") then
            error (at_position context (lx_position lexeme))
              (S_ "Expected '.', got " ++ Lexeme_str lexeme)
          else
            let* (lexeme, lexer, path) :=
              import_path_loop fuel lexer context lexeme path in
            let* (name, lexeme, lexer) :=
              if body_is (lx_body lexeme) "as" then
                let* (lexeme, lexer) := next_lexeme lexer in
                if negb (type_is lexeme IDENTIFIER) then
                  error (at_position context (lx_position lexeme))
                    (S_ "Expected identifier, got " ++ Lexeme_str lexeme)
                else
                  let name := body_str lexeme in
                  let* (lexeme, lexer) := next_lexeme lexer in
                  Ok (name, lexeme, lexer)
              else Ok (last path [], lexeme, lexer) in
            if negb (body_is (lx_body lexeme) ";") then
              error (at_position context (lx_position lexeme))
                (S_ "Expected end of statement, got " ++ Lexeme_str lexeme)
            else parse_imports fuel lexer context (dict_set imports name path)
      else Ok (lexer, imports)
  end.

(** [next(index for index, (name, _) in enumerate(parameters) if name ==
    body)]: the loop runs over the keys of the [dict], so [(name, _)]
    unpacks a parameter name, which must then have two characters, and
    [name] is its first one. *)
Fixpoint find_arg_index (body : str) (keys : list str) (index : nat) : outcome nat :=
  match keys with
  | [] => Raise StopIteration
  | [name; _] :: keys' =>
      if str_eqb [name] body then Ok index else find_arg_index body keys' (S index)
  | _ :: _ => Raise ValueError
  end.

(** The [while lexer.lookahead().body == "."] loop of an assignment *)
Fixpoint assign_path_loop (fuel : nat) (lexer : Lexer) (context : Context)
    (path : list Lexeme) : outcome (Lexer * list Lexeme) :=
  match fuel with
  | O => OutOfFuel
  | S fuel =>
      let* la := lookahead_lexeme lexer in
      if body_is (lx_body la) "." then
        let* (_, lexer) := next_lexeme lexer in
        let* (lexeme, lexer) := next_lexeme lexer in
        if negb (type_is lexeme IDENTIFIER) then
          error (at_position context (lx_position lexeme))
            (S_ "Expected identifier, got " ++ Lexeme_str lexeme)
        else assign_path_loop fuel lexer context (path ++ [lexeme])
      else Ok (lexer, path)
  end.

(** The commands an assignment appends after its expression *)
Definition assign_commands (context : Context) (path : list Lexeme) : list Command :=
  match path with
  | [] => []
  | [target] => [(at_position context (lx_position target), SET_VAR (body_str target))]
  | first :: rest =>
      [(at_position context (lx_position first), GET_VAR (body_str first))]
      ++ map (fun lexeme => (at_position context (lx_position lexeme),
                             GET_PROP (body_str lexeme))) (removelast rest)
      ++ [(at_position context (lx_position (last rest first)),
           SET_PROP (body_str (last rest first)))]
  end.

Section FunctionBody.

Variable context : Context.
Variable namespace : list str.
Variable imports : Imports.
Variable parameters : dict CubentType.

Definition lexeme_in_imports (lexeme : Lexeme) : bool :=
  match lx_body lexeme with
  | Some b => dict_has imports b
  | None => false
  end.

Definition unexpected {A} (lexeme : Lexeme) : outcome A :=
  error (at_position context (lx_position lexeme))
    (S_ "Unexpected " ++ Lexeme_str lexeme).

(** The literal and identifier cases of [compile_primary] that append
    one command; the caller consumes the lexeme. *)
Definition primary_command (lexeme : Lexeme) : outcome Command :=
  let here := at_position context (lx_position lexeme) in
  let body := body_str lexeme in
  let load v := Ok (here, LOAD v) in
  let load_int (lit : Z -> Literal) suffix :=
    match int (rstrip suffix body) with
    | Some z => load (lit z)
    | None => Raise ValueError
    end in
  let load_float (lit : str -> Literal) suffix :=
    if float_parses (rstrip suffix body)
    then load (lit (rstrip suffix body))
    else Raise ValueError in
  match lx_type lexeme with
  | Some IDENTIFIER =>
      if existsb (str_eqb body) (dict_keys parameters) then
        let* index := find_arg_index body (dict_keys parameters) 0 in
        Ok (here, GET_ARG index)
      else Ok (here, GET_VAR body)
  | Some BOOLEAN => load (LitBoolean (str_eqb body (S_ "true")))
  | Some BYTE => load_int LitByte (S_ "Bb")
  | Some SHORT => load_int LitShort (S_ "Ss")
  | Some INT => load_int LitInt []
  | Some LONG => load_int LitLong (S_ "Ll")
  | Some FLOAT => load_float LitFloat (S_ "Ff")
  | Some DOUBLE => load_float LitDouble (S_ "Dd")
  | Some STRING => load (LitString (decode_string body))
  | _ => unexpected lexeme
  end.

(** The recursive descent over expressions.  A [while] loop is the
    recursive call that runs its next iteration; [compile_operation]
    itself is the loop over the operators of its level and above. *)
Fixpoint compile_function_call (fuel : nat) (lexer : Lexer) (commands : list Command)
    {struct fuel} : outcome (Lexer * list Command) :=
  match fuel with
  | O => OutOfFuel
  | S fuel =>
      let* (lexeme, lexer) := next_lexeme lexer in
      match (match lx_body lexeme with
             | Some name => dict_get imports name
             | None => None
             end) with
      | Some path =>
          let position := lx_position lexeme in
          let* (lexeme, lexer) := next_lexeme lexer in
          if negb (body_is (lx_body lexeme) "(") then
            error (at_position context (lx_position lexeme))
              (S_ "Expected '(' when calling function, got " ++ Lexeme_str lexeme)
          else
            let* (lexer, commands, argc) := call_arguments fuel lexer commands 0 in
            let* (lexeme, lexer) := next_lexeme lexer in
            if negb (body_is (lx_body lexeme) ")") then
              error (at_position context (lx_position lexeme))
                (S_ "Expected ')', got " ++ Lexeme_str lexeme)
            else Ok (lexer, commands ++ [(at_position context position, CALL path argc)])
      | None =>
          error (at_position context (lx_position lexeme))
            (S_ "Expected function name, got " ++ Lexeme_str lexeme)
      end
  end

(** The argument loop of [compile_function_call] *)
with call_arguments (fuel : nat) (lexer : Lexer) (commands : list Command)
    (argc : nat) {struct fuel} : outcome (Lexer * list Command * nat) :=
  match fuel with
  | O => OutOfFuel
  | S fuel =>
      let* la := lookahead_lexeme lexer in
      if negb (body_is (lx_body la) ")") then
        let* (lexer, commands) := compile_expression fuel lexer commands in
        let argc := argc + 1 in
        let* la := lookahead_lexeme lexer in
        if body_is (lx_body la) "," then
          let* (_, lexer) := next_lexeme lexer in
          call_arguments fuel lexer commands argc
        else Ok (lexer, commands, argc)
      else Ok (lexer, commands, argc)
  end

with compile_expression (fuel : nat) (lexer : Lexer) (commands : list Command)
    {struct fuel} : outcome (Lexer * list Command) :=
  match fuel with
  | O => OutOfFuel
  | S fuel =>
      let* (lexer, commands) := compile_primary fuel lexer commands in
      compile_operation fuel lexer commands 0
  end

with compile_operation (fuel : nat) (lexer : Lexer) (commands : list Command)
    (precedence : nat) {struct fuel} : outcome (Lexer * list Command) :=
  match fuel with
  | O => OutOfFuel
  | S fuel =>
      let* lexeme := lookahead_lexeme lexer in
      if match lx_body lexeme with
         | Some b => str_in b (operators_from precedence)
         | None => false
         end
      then
        let* (operator, lexer) := next_lexeme lexer in
        let* (lexer, commands) := compile_primary fuel lexer commands in
        match dict_get operations (body_str operator) with
        | None => Raise KeyError
        | Some op =>
            let commands :=
              commands ++ [(at_position context (lx_position operator), op)] in
            let* (lexer, commands) :=
              compile_operation fuel lexer commands
                (precedence + match operators_from (precedence + 1) with
                              | [] => 0
                              | _ => 1
                              end) in
            compile_operation fuel lexer commands precedence
        end
      else Ok (lexer, commands)
  end

with compile_primary (fuel : nat) (lexer : Lexer) (commands : list Command)
    {struct fuel} : outcome (Lexer * list Command) :=
  match fuel with
  | O => OutOfFuel
  | S fuel =>
      let* lexeme := lookahead_lexeme lexer in
      if type_is lexeme IDENTIFIER && lexeme_in_imports lexeme then
        compile_function_call fuel lexer commands
      else
        let* command := primary_command lexeme in
        let* (_, lexer) := next_lexeme lexer in
        Ok (lexer, commands ++ [command])
  end.

(** The recursive descent over statements *)
Fixpoint compile_statement (fuel : nat) (lexer : Lexer) (commands : list Command)
    {struct fuel} : outcome (Lexer * list Command) :=
  match fuel with
  | O => OutOfFuel
  | S fuel =>
      let* lexeme := lookahead_lexeme lexer in
      if type_is lexeme IDENTIFIER && lexeme_in_imports lexeme then
        let* (lexer, commands) := compile_function_call fuel lexer commands in
        let* (lexeme, lexer) := next_lexeme lexer in
        if negb (body_is (lx_body lexeme) ";") then
          error (at_position context (lx_position lexeme))
            (S_ "Expected end of statement, got " ++ Lexeme_str lexeme)
        else Ok (lexer, commands)
      else if type_is lexeme IDENTIFIER then
        let* (_, lexer) := next_lexeme lexer in
        let* (lexer, path) := assign_path_loop fuel lexer context [lexeme] in
        let* (lexeme, lexer) := next_lexeme lexer in
        if negb (body_is (lx_body lexeme) "=") then
          error (at_position context (lx_position lexeme))
            (S_ "Expected '=', got " ++ Lexeme_str lexeme)
        else
          let* (lexer, commands) := compile_expression fuel lexer commands in
          let* (lexeme, lexer) := next_lexeme lexer in
          if negb (body_is (lx_body lexeme) ";") then
            error (at_position context (lx_position lexeme))
              (S_ "Expected end of statement, got " ++ Lexeme_str lexeme)
          else Ok (lexer, commands ++ assign_commands context path)
      else if body_is (lx_body lexeme) "var" then
        let* (_, lexer) := next_lexeme lexer in
        let* (name, lexer) := next_lexeme lexer in
        if negb (type_is name IDENTIFIER) then
          error (at_position context (lx_position lexeme))
            (S_ "Expected identifier, got " ++ Lexeme_str lexeme)
        else
          let* (lexeme, lexer) := next_lexeme lexer in
          if negb (body_is (lx_body lexeme) "=") then
            error (at_position context (lx_position lexeme))
              (S_ "Expected '=', got " ++ Lexeme_str lexeme)
          else
            let* (lexer, commands) := compile_expression fuel lexer commands in
            let* (lexeme, lexer) := next_lexeme lexer in
            if negb (body_is (lx_body lexeme) ";") then
              error (at_position context (lx_position lexeme))
                (S_ "Expected end of statement, got " ++ Lexeme_str lexeme)
            else
              Ok (lexer, commands ++ [(at_position context (lx_position name),
                                       DECLARE_VAR (body_str name))])
      else if body_is (lx_body lexeme) "if" then
        let* (keyword, lexer) := next_lexeme lexer in
        let* (lexeme, lexer) := next_lexeme lexer in
        if negb (body_is (lx_body lexeme) "(") then
          error (at_position context (lx_position lexeme))
            (S_ "Expected '(', got " ++ Lexeme_str lexeme)
        else
          let* (lexer, commands) := compile_expression fuel lexer commands in
          let* (lexeme, lexer) := next_lexeme lexer in
          if negb (body_is (lx_body lexeme) ")") then
            error (at_position context (lx_position lexeme))
              (S_ "Expected ')', got " ++ Lexeme_str lexeme)
          else
            let* (lexeme, lexer) := next_lexeme lexer in
            if negb (body_is (lx_body lexeme) "{") then
              error (at_position context (lx_position lexeme))
                (S_ "Expected '{', got " ++ Lexeme_str lexeme)
            else
              let* (lexer, block_commands) := compile_statements fuel lexer [] in
              let* (lexeme, lexer) := next_lexeme lexer in
              if negb (body_is (lx_body lexeme) "}") then
                error (at_position context (lx_position lexeme))
                  (S_ "Expected '}', got " ++ Lexeme_str lexeme)
              else
                Ok (lexer, commands ++ [(at_position context (lx_position keyword),
                                         DO_IF block_commands)])
      else unexpected lexeme
  end

(** [while lexer.lookahead().body != "}": compile_statement(...)] *)
with compile_statements (fuel : nat) (lexer : Lexer) (commands : list Command)
    {struct fuel} : outcome (Lexer * list Command) :=
  match fuel with
  | O => OutOfFuel
  | S fuel =>
      let* la := lookahead_lexeme lexer in
      if negb (body_is (lx_body la) "}") then
        let* (lexer, commands) := compile_statement fuel lexer commands in
        compile_statements fuel lexer commands
      else Ok (lexer, commands)
  end.

End FunctionBody.

(** A result of the parser with [functions] put before the functions it
    holds *)
Definition appended {S} (functions : list Function)
    (r : outcome (S * list Function)) : outcome (S * list Function) :=
  match r with
  | Ok (s, declared) => Ok (s, functions ++ declared)
  | Fail e => Fail e
  | Raise x => Raise x
  | OutOfFuel => OutOfFuel
  end.

(** The parameter loop of a declaration.  Its three error branches hand
    [CompilationError] one argument too many, a [TypeError]. *)
Fixpoint parameters_loop (fuel : nat) (lexer : Lexer) (parameters : dict CubentType)
  : outcome (Lexer * dict CubentType) :=
  match fuel with
  | O => OutOfFuel
  | S fuel =>
      let* la := lookahead_lexeme lexer in
      if negb (body_is (lx_body la) ")") then
        let* (lexeme, lexer) := next_lexeme lexer in
        if negb (type_is lexeme IDENTIFIER) then Raise TypeError
        else
          let parameter_name := body_str lexeme in
          let* (colon, lexer) := next_lexeme lexer in
          if negb (body_is (lx_body colon) ":") then Raise TypeError
          else
            let* (lexeme, lexer) := next_lexeme lexer in
            if negb (type_is lexeme TYPE) then Raise TypeError
            else
              let* parameter_type := getattr_CubentType (lx_body lexeme) in
              let parameters := dict_set parameters parameter_name parameter_type in
              let* la := lookahead_lexeme lexer in
              if body_is (lx_body la) "," then
                let* (_, lexer) := next_lexeme lexer in
                parameters_loop fuel lexer parameters
              else Ok (lexer, parameters)
      else Ok (lexer, parameters)
  end.

(** [s.split(":", 2)] unpacked into two names: the text before the first
    colon and the text after it, which must hold no second colon. *)
Fixpoint split_colon (before : str) (s : str) : option (str * str) :=
  match s with
  | [] => None
  | c :: s' =>
      if Ascii.eqb c ":" then Some (before, s') else split_colon (before ++ [c]) s'
  end.

Definition split_location (location : str) : outcome (str * str) :=
  match split_colon [] location with
  | Some (namespace, rest) =>
      if ch_in ":" rest then Raise ValueError else Ok (namespace, rest)
  | None => Raise ValueError
  end.

(** The tail that a [function] and an [mcfunction] declaration share:
    [")"], [":"] and the return type. *)
Definition signature_tail (lexer : Lexer) (context : Context)
  : outcome (Lexer * Lexeme) :=
  let* (lexeme, lexer) := next_lexeme lexer in
  if negb (body_is (lx_body lexeme) ")") then
    error (at_position context (lx_position lexeme))
      (S_ "Expected ')', got " ++ Lexeme_str lexeme)
  else
    let* (lexeme, lexer) := next_lexeme lexer in
    if negb (body_is (lx_body lexeme) ":") then
      error (at_position context (lx_position lexeme))
        (S_ "Expected ':', got " ++ Lexeme_str lexeme)
    else
      let* (lexeme, lexer) := next_lexeme lexer in
      if negb (type_is lexeme TYPE) then
        error (at_position context (lx_position lexeme))
          (S_ "Expected return type, got " ++ Lexeme_str lexeme)
      else Ok (lexer, lexeme).

(** [compile_structure]; [functions] is [self.functions]. *)
Definition compile_structure (fuel : nat) (lexer : Lexer) (context : Context)
    (namespace : list str) (imports : Imports) (functions : list Function)
  : outcome (Lexer * list Function) :=
  let* (lexeme, lexer) := next_lexeme lexer in
  if body_is (lx_body lexeme) "function" then
    let* (lexeme, lexer) := next_lexeme lexer in
    if negb (type_is lexeme IDENTIFIER) then Raise TypeError
    else
      let name := body_str lexeme in
      let* (paren, lexer) := next_lexeme lexer in
      if negb (body_is (lx_body paren) "(") then Raise TypeError
      else
        let* (lexer, parameters) := parameters_loop fuel lexer [] in
        let* (lexer, return_type) := signature_tail lexer context in
        let* (lexeme, lexer) := next_lexeme lexer in
        if negb (body_is (lx_body lexeme) "{") then
          error (at_position context (lx_position lexeme))
            (S_ "Expected '{', got " ++ Lexeme_str lexeme)
        else
          let* (lexer, commands) :=
            compile_statements
              (in_function context (join (S_ ".") namespace ++ S_ "." ++ name))
              imports parameters fuel lexer [] in
          let* (closing, lexer) := next_lexeme lexer in
          if negb (body_is (lx_body closing) "}") then
            error (at_position context (lx_position lexeme))
              (S_ "Expected '}', got " ++ Lexeme_str lexeme)
          else
            let* return_type := getattr_CubentType (lx_body return_type) in
            Ok (lexer,
                functions ++ [CubentFunction (namespace ++ [name]) parameters
                                return_type commands])
  else if body_is (lx_body lexeme) "mcfunction" then
    let* (lexeme, lexer) := next_lexeme lexer in
    if negb (type_is lexeme STRING) then
      error (at_position context (lx_position lexeme))
        (S_ "Expected function location, got " ++ Lexeme_str lexeme)
    else
      let location := decode_string (body_str lexeme) in
      let* (mcfunction_namespace, mcfunction_path) :=
        if ch_in ":" location then split_location location
        else Ok (S_ "minecraft", location) in
      let* (lexeme, lexer) := next_lexeme lexer in
      if negb (type_is lexeme IDENTIFIER) then
        error (at_position context (lx_position lexeme))
          (S_ "Expected function name, got " ++ Lexeme_str lexeme)
      else
        let name := body_str lexeme in
        let* (paren, lexer) := next_lexeme lexer in
        if negb (body_is (lx_body paren) "(") then
          error (at_position context (lx_position lexeme))
            (S_ "Expected '(', got " ++ Lexeme_str lexeme)
        else
          let* (lexer, parameters) := parameters_loop fuel lexer [] in
          let* (lexer, return_type) := signature_tail lexer context in
          let* (lexeme, lexer) := next_lexeme lexer in
          if negb (body_is (lx_body lexeme) ";") then
            error (at_position context (lx_position lexeme))
              (S_ "Expected ';', got " ++ Lexeme_str lexeme)
          else
            let* return_type := getattr_CubentType (lx_body return_type) in
            Ok (lexer,
                functions ++ [MCFunction (namespace ++ [name]) parameters return_type
                                (mcfunction_namespace ++ S_ ":" ++ mcfunction_path)])
  else
    error (at_position context (lx_position lexeme))
      (S_ "Unexpected " ++ Lexeme_str lexeme).

(** [while lexer.lookahead().body != "}": compile_structure(...)] *)
Fixpoint compile_structures (fuel : nat) (lexer : Lexer) (context : Context)
    (namespace : list str) (imports : Imports) (functions : list Function)
  : outcome (Lexer * list Function) :=
  match fuel with
  | O => OutOfFuel
  | S fuel =>
      let* la := lookahead_lexeme lexer in
      if negb (body_is (lx_body la) "}") then
        let* (lexer, functions) :=
          compile_structure fuel lexer context namespace imports functions in
        compile_structures fuel lexer context namespace imports functions
      else Ok (lexer, functions)
  end.

(** The [while lexer.lookahead().body == "."] loop of a namespace header:
    it consumes the dot and appends the body of [lexeme], which is still
    the first identifier. *)
Fixpoint namespace_loop (fuel : nat) (lexer : Lexer) (lexeme : Lexeme)
    (namespace : list str) : outcome (Lexer * list str) :=
  match fuel with
  | O => OutOfFuel
  | S fuel =>
      let* la := lookahead_lexeme lexer in
      if body_is (lx_body la) "." then
        let* (_, lexer) := next_lexeme lexer in
        namespace_loop fuel lexer lexeme (namespace ++ [body_str lexeme])
      else Ok (lexer, namespace)
  end.

Definition compile_block (fuel : nat) (lexer : Lexer) (context : Context)
    (imports : Imports) (functions : list Function)
  : outcome (Lexer * list Function) :=
  let* (lexeme, lexer) := next_lexeme lexer in
  if body_is (lx_body lexeme) "namespace" then
    let* (lexeme, lexer) := next_lexeme lexer in
    if negb (type_is lexeme IDENTIFIER) then
      error (at_position context (lx_position lexeme))
        (S_ "Expected identifier, got " ++ Lexeme_str lexeme)
    else
      let* (lexer, namespace) := namespace_loop fuel lexer lexeme [body_str lexeme] in
      let* (opening, lexer) := next_lexeme lexer in
      if negb (body_is (lx_body opening) "{") then
        error (at_position context (lx_position lexeme))
          (S_ "Expected '{', got " ++ Lexeme_str lexeme)
      else
        let* (lexer, functions) :=
          compile_structures fuel lexer context namespace imports functions in
        let* (closing, lexer) := next_lexeme lexer in
        if negb (body_is (lx_body closing) "}") then
          error (at_position context (lx_position lexeme))
            (S_ "Expected '}', got " ++ Lexeme_str lexeme)
        else Ok (lexer, functions)
  else if body_is (lx_body lexeme) "load" then
    let* (opening, lexer) := next_lexeme lexer in
    if negb (body_is (lx_body opening) "{") then
      error (at_position context (lx_position lexeme))
        (S_ "Expected '{', got " ++ Lexeme_str lexeme)
    else
      let* (closing, lexer) := next_lexeme lexer in
      if negb (body_is (lx_body closing) "}") then
        error (at_position context (lx_position lexeme))
          (S_ "Expected '}', got " ++ Lexeme_str lexeme)
      else Ok (lexer, functions)
  else if body_is (lx_body lexeme) "tick" then Ok (lexer, functions)
  else
    error (at_position context (lx_position lexeme))
      (S_ "Unexpected " ++ Lexeme_str lexeme).

(** [while lexer.lookahead().type != LexemeType.EOF: compile_block(...)] *)
Fixpoint compile_blocks (fuel : nat) (lexer : Lexer) (context : Context)
    (imports : Imports) (functions : list Function)
  : outcome (Lexer * list Function) :=
  match fuel with
  | O => OutOfFuel
  | S fuel =>
      let* la := lookahead_lexeme lexer in
      if negb (type_is la EOF) then
        let* (lexer, functions) := compile_block fuel lexer context imports functions in
        compile_blocks fuel lexer context imports functions
      else Ok (lexer, functions)
  end.

(** [compile_file] on the text read from [filename] *)
Definition compile_file_fuel (fuel : nat) (filename : Path) (source : str)
    (functions : list Function) : outcome (list Function) :=
  let lexer := Lexer_init source in
  let context := mkContext filename (text lexer) None None in
  let* (lexer, imports) := parse_imports fuel lexer context [] in
  let* (_, functions) := compile_blocks fuel lexer context imports functions in
  Ok functions.

(** The recursion of the parser is never deeper than a few calls per
    character of the text. *)
Definition parser_fuel (source : str) : nat := 8 * List.length source + 16.

Definition compile_file (filename : Path) (source : str) (functions : list Function)
  : outcome (list Function) :=
  compile_file_fuel (parser_fuel source) filename source functions.


(** ** compiler.py: versions *)

Record MinecraftVersion : Type := mkMinecraftVersion {
  major : Z;
  minor : Z;
  phase : Z
}.

(** [MinecraftVersion.__lt__] *)
Definition MinecraftVersion_lt (self other : MinecraftVersion) : bool :=
  (major self <? major other)%Z || (minor self <? minor other)%Z
  || (phase self <? phase other)%Z.

(** [MinecraftVersion.__str__] *)
Definition MinecraftVersion_str (self : MinecraftVersion) : outcome str :=
  if (phase self =? 0)%Z
  then
    let* major := format_int (major self) in
    let* minor := format_int (minor self) in
    Ok (major ++ S_ "." ++ minor)
  else
    let* major := format_int (major self) in
    let* minor := format_int (minor self) in
    let* phase := format_int (phase self) in
    Ok (major ++ S_ "." ++ minor ++ S_ "." ++ phase).

(** [MinecraftVersion.__eq__], [__ne__], [__gt__], [__le__] and [__ge__] *)
Definition MinecraftVersion_eq (self other : MinecraftVersion) : bool :=
  (major self =? major other)%Z && (minor self =? minor other)%Z
  && (phase self =? phase other)%Z.

Definition MinecraftVersion_ne (self other : MinecraftVersion) : bool :=
  negb (major self =? major other)%Z || negb (minor self =? minor other)%Z
  || negb (phase self =? phase other)%Z.

Definition MinecraftVersion_gt (self other : MinecraftVersion) : bool :=
  (major self >? major other)%Z || (minor self >? minor other)%Z
  || (phase self >? phase other)%Z.

Definition MinecraftVersion_le (self other : MinecraftVersion) : bool :=
  MinecraftVersion_eq self other || MinecraftVersion_lt self other.

Definition MinecraftVersion_ge (self other : MinecraftVersion) : bool :=
  MinecraftVersion_eq self other || MinecraftVersion_gt self other.

Definition MINIMAL_VERSION : MinecraftVersion := mkMinecraftVersion 1 14 1.

(** The order of the specification: [a] is strictly below [b] in the
    lexicographic order on (major, minor, phase). *)
Definition version_below (a b : MinecraftVersion) : bool :=
  (major a <? major b)%Z
  || ((major a =? major b)%Z
      && ((minor a <? minor b)%Z
          || ((minor a =? minor b)%Z && (phase a <? phase b)%Z))).

Definition CUBENT_STORAGE : str := S_ "cubent:storage".
Definition CUBENT_SCOREBOARD : str := S_ "cubent.scoreboard".

(** [version.split(".")] *)
Fixpoint split_dots (cur : str) (s : str) : list str :=
  match s with
  | [] => [cur]
  | c :: s' => if Ascii.eqb c "." then cur :: split_dots [] s' else split_dots (cur ++ [c]) s'
  end.

(** [part.isdigit()] for a string *)
Definition str_isdigit (s : str) : bool :=
  match s with
  | [] => false
  | _ => forallb isdigit s
  end.

(** The loop of [MinecraftVersion.parse] over the parts: [None] at the
    first part that is not made of digits, a [ValueError] at the first
    one that [int] does not take. *)
Fixpoint parse_numbers (parts : list str) : outcome (option (list Z)) :=
  match parts with
  | [] => Ok (Some [])
  | part :: parts' =>
      if negb (str_isdigit part) then Ok None
      else
        match int part with
        | None => Raise ValueError
        | Some number =>
            let* numbers := parse_numbers parts' in
            Ok (option_map (cons number) numbers)
        end
  end.

(** [MinecraftVersion.parse], for a version other than ["latest"]; the
    result [None] is the [None] it returns. *)
Definition MinecraftVersion_parse (version : str)
  : outcome (option MinecraftVersion) :=
  let* numbers := parse_numbers (split_dots [] version) in
  match numbers with
  | Some [a; b] => Ok (Some (mkMinecraftVersion a b 0))
  | Some [a; b; c] => Ok (Some (mkMinecraftVersion a b c))
  | _ => Ok None
  end.

(** ** compiler.py: the emitter *)

(** The file-system calls of a compilation, in the order they are made;
    a written file appears when it is closed, with all that was written
    to it. *)
Inductive IO : Type :=
| io_exists (p : Path)
| io_rmtree (p : Path)
| io_makedirs (p : Path)
| io_isdir (p : Path)
| io_glob (p : Path)
| io_read (p : Path)
| io_write (p : Path) (content : str)
| io_copyfile (source target : Path).

(** The world a compilation acts on: the calls made so far (latest
    first), the number of [uuid.uuid4()] drawn, and the text written so
    far to the file that is open for writing. *)
Record World : Type := mkWorld {
  trace : list IO;
  uuids : nat;
  buffer : str
}.

Definition io (A : Type) : Type := World -> outcome A * World.

Definition ret {A} (a : A) : io A := fun w => (Ok a, w).

Definition lift {A} (o : outcome A) : io A := fun w => (o, w).

Definition bind_io {A B} (m : io A) (k : A -> io B) : io B :=
  fun w =>
    match m w with
    | (Ok a, w') => k a w'
    | (Fail e, w') => (Fail e, w')
    | (Raise x, w') => (Raise x, w')
    | (OutOfFuel, w') => (OutOfFuel, w')
    end.

Notation "'let!' x ':=' m 'in' k" := (bind_io m (fun x => k))
  (at level 10, x pattern, m at level 200, k at level 200).

Definition call (e : IO) : io unit :=
  fun w => (Ok tt, mkWorld (e :: trace w) (uuids w) (buffer w)).

(** [mcfunction_file.write(s)] *)
Definition write (s : str) : io unit :=
  fun w => (Ok tt, mkWorld (trace w) (uuids w) (buffer w ++ s)).

(** [with open(p, "w") as f: body]: the file is closed, with what [body]
    wrote to it, however [body] ends. *)
Definition with_open_w {A} (p : Path) (body : io A) : io A :=
  fun w =>
    let '(r, w') := body (mkWorld (trace w) (uuids w) []) in
    (r, mkWorld (io_write p (buffer w') :: trace w') (uuids w') (buffer w)).

(** A directory made by an earlier [os.makedirs], itself or as a parent *)
Fixpoint is_prefix (p q : Path) : bool :=
  match p, q with
  | [], _ => true
  | x :: p', y :: q' => str_eqb x y && is_prefix p' q'
  | _ :: _, [] => false
  end.

Definition made (p : Path) (t : list IO) : bool :=
  existsb (fun e => match e with io_makedirs q => is_prefix p q | _ => false end) t.

(** [os.makedirs(p)] for a directory under the output directory, which is
    new when the compilation starts to fill it. *)
Definition makedirs (p : Path) : io unit :=
  fun w =>
    if made p (trace w) then (Raise FileExistsError, w)
    else call (io_makedirs p) w.

Variable float_repr : str -> str.
Variable uuid4_hex : nat -> str.

(** [uuid.uuid4().hex] *)
Definition uuid4 : io str :=
  fun w => (Ok (uuid4_hex (uuids w)), mkWorld (trace w) (S (uuids w)) (buffer w)).

(** The compile-time type stack; its head is the top, the last element
    of the Python list. *)
Definition Stack : Type := list CubentType.

Definition pop (stack : Stack) : outcome (CubentType * Stack) :=
  match stack with
  | [] => Raise IndexError
  | t :: stack' => Ok (t, stack')
  end.

(** A [Scope] with its chain of parents, innermost first *)
Definition Scope : Type := list (dict CubentType).

Definition declare_variable (self : Scope) (variable_name : str)
    (variable_type : CubentType) : option Scope :=
  match self with
  | [] => None
  | variables :: parents =>
      if dict_has variables variable_name then None
      else Some (dict_set variables variable_name variable_type :: parents)
  end.

Fixpoint get_variable (self : Scope) (variable_name : str) : option CubentType :=
  match self with
  | [] => None
  | variables :: parent =>
      match dict_get variables variable_name with
      | Some t => Some t
      | None => get_variable parent variable_name
      end
  end.

Definition NL : str := [LF].

(** [".".join(t.path)] *)
Definition dotted_path (t : CubentType) : outcome str :=
  match type_path t with
  | Some p => Ok (join (S_ ".") p)
  | None => Raise AttributeError
  end.

Definition str_lower (s : str) : str := map lower s.

Definition write_type_conversion (current_type target_type : CubentType)
    (function_storage : str) : io bool :=
  let! current_type_path := lift (dotted_path current_type) in
  let! target_type_path := lift (dotted_path target_type) in
  if str_eqb current_type_path target_type_path
     || str_eqb current_type_path (S_ "Any") || str_eqb target_type_path (S_ "Any")
  then ret true
  else if str_in current_type_path
            (map S_ ["Boolean"; "Byte"; "Short"; "Int"; "Long"; "Float"; "Double"]%string)
  then
    if str_in target_type_path
         (map S_ ["Byte"; "Short"; "Int"; "Long"; "Float"; "Double"]%string)
    then
      let! _ := write (S_ "execute store result storage " ++ function_storage
                       ++ S_ " Stack[-1].Value " ++ str_lower target_type_path
                       ++ S_ " 1.0 run data get storage " ++ function_storage
                       ++ S_ " Stack[-1].Value" ++ NL) in
      ret true
    else if str_eqb target_type_path (S_ "Boolean") then
      let! _ := write (S_ "execute store result score 1 " ++ CUBENT_SCOREBOARD
                       ++ S_ " run data get storage " ++ function_storage
                       ++ S_ " Stack[-1].Value" ++ NL
                       ++ S_ "execute if score 1 " ++ CUBENT_SCOREBOARD
                       ++ S_ " matches 1.. run data modify storage " ++ function_storage
                       ++ S_ " Stack[-1].Value set value true" ++ NL
                       ++ S_ "execute if score 1 " ++ CUBENT_SCOREBOARD
                       ++ S_ " matches ..0 run data modify storage " ++ function_storage
                       ++ S_ " Stack[-1].Value set value false" ++ NL) in
      ret true
    else ret false
  else ret false.

(** The text of a string in a pushed record, in the quotes the emitter
    chooses *)
Definition quoted (s : str) : str :=
  let body := replace BACKSLASH [BACKSLASH; BACKSLASH] s in
  if negb (find SQUOTE body =? -1)%Z && (find SQUOTE body >? find DQUOTE body)%Z
  then [DQUOTE] ++ replace DQUOTE [BACKSLASH; DQUOTE] body ++ [DQUOTE]
  else [SQUOTE] ++ replace SQUOTE [BACKSLASH; SQUOTE] body ++ [SQUOTE].

(** The text of a literal in a pushed record; an integer is formatted
    by an f-string. *)
Definition raw_literal (v : Literal) : outcome str :=
  match v with
  | LitString s => Ok (quoted s)
  | LitByte z => let* digits := format_int z in Ok (digits ++ S_ "B")
  | LitBoolean b => Ok (if b then S_ "true" else S_ "false")
  | LitShort z => let* digits := format_int z in Ok (digits ++ S_ "S")
  | LitLong z => let* digits := format_int z in Ok (digits ++ S_ "L")
  | LitFloat f => Ok (float_repr f ++ S_ "F")
  | LitInt z => format_int z
  | LitDouble f => Ok (float_repr f)
  end.

(** The first function of [self.functions] with the path of the call *)
Definition find_function (functions : list Function) (path : list str)
  : option Function :=
  List.find (fun target_function => path_eqb (fn_path target_function) path) functions.

(** [build_uuid + "." + ".".join(path[:-1]) + ":" + path[-1]] *)
Definition function_storage_of (build_uuid : str) (path : list str) : outcome str :=
  match path with
  | [] => Raise IndexError
  | _ => Ok (build_uuid ++ S_ "." ++ join (S_ ".") (removelast path)
             ++ S_ ":" ++ last path [])
  end.

Definition prologue (function_storage : str) : str :=
  S_ "scoreboard objectives add " ++ CUBENT_SCOREBOARD ++ S_ " dummy" ++ NL
  ++ S_ "data modify storage " ++ function_storage ++ S_ " Stack set value []" ++ NL
  ++ S_ "execute unless data storage " ++ function_storage
  ++ S_ " Variables run data modify storage " ++ function_storage
  ++ S_ " Variables set value {}" ++ NL.

Definition push_lines (function_storage : str) (raw : str) : str :=
  S_ "data modify storage " ++ function_storage
  ++ S_ " Stack append value {Value:" ++ raw ++ S_ "}" ++ NL.

Definition set_var_lines (function_storage name : str) : str :=
  S_ "data modify storage " ++ function_storage ++ S_ " Variables." ++ name
  ++ S_ " set from storage " ++ function_storage ++ S_ " Stack[-1]" ++ NL
  ++ S_ "data remove storage " ++ function_storage ++ S_ " Stack[-1]" ++ NL.

Definition get_var_lines (function_storage name : str) : str :=
  S_ "data modify storage " ++ function_storage
  ++ S_ " Stack append from storage " ++ function_storage
  ++ S_ " Variables." ++ name ++ NL.

Definition argument_lines (function_storage : str) : str :=
  S_ "data modify storage " ++ CUBENT_STORAGE
  ++ S_ " Arguments append from storage " ++ function_storage ++ S_ " Stack[-1]" ++ NL
  ++ S_ "data remove storage " ++ function_storage ++ S_ " Stack[-1]" ++ NL.

Definition do_if_lines (function_storage location : str) : str :=
  S_ "execute store result score 1 " ++ CUBENT_SCOREBOARD
  ++ S_ " run data get storage " ++ function_storage ++ S_ " Stack[-1].Value" ++ NL
  ++ S_ "data remove storage " ++ function_storage ++ S_ " Stack[-1]" ++ NL
  ++ S_ "execute if score 1 " ++ CUBENT_SCOREBOARD
  ++ S_ " matches 1 run function " ++ location ++ NL.

Definition add_lines (function_storage first_type_path : str) : str :=
  S_ "execute store result score 1 " ++ CUBENT_SCOREBOARD
  ++ S_ " run data get storage " ++ function_storage ++ S_ " Stack[-1].Value" ++ NL
  ++ S_ "data remove storage " ++ function_storage ++ S_ " Stack[-1]" ++ NL
  ++ S_ "execute store result score 2 " ++ CUBENT_SCOREBOARD
  ++ S_ " run data get storage " ++ function_storage ++ S_ " Stack[-1].Value" ++ NL
  ++ S_ "data remove storage " ++ function_storage ++ S_ " Stack[-1]" ++ NL
  ++ S_ "scoreboard players operation 1 " ++ CUBENT_SCOREBOARD
  ++ S_ " += 2 " ++ CUBENT_SCOREBOARD ++ NL
  ++ S_ "data modify storage " ++ function_storage ++ S_ " Stack append value {}" ++ NL
  ++ S_ "execute store result storage " ++ function_storage ++ S_ " Stack[-1].Value "
  ++ str_lower first_type_path ++ S_ " 1.0 run scoreboard players get 1 "
  ++ CUBENT_SCOREBOARD ++ NL.

Definition eq_lines (function_storage : str) : str :=
  S_ "execute store success score 1 " ++ CUBENT_SCOREBOARD
  ++ S_ " run data modify storage " ++ function_storage
  ++ S_ " Stack[-1] set from storage " ++ function_storage ++ S_ " Stack[-2]" ++ NL
  ++ S_ "data remove storage " ++ function_storage ++ S_ " Stack[-1]" ++ NL
  ++ S_ "execute if score 1 " ++ CUBENT_SCOREBOARD
  ++ S_ " matches 0 run data modify storage " ++ function_storage
  ++ S_ " Stack[-1].Value set value true" ++ NL
  ++ S_ "execute if score 1 " ++ CUBENT_SCOREBOARD
  ++ S_ " matches 1 run data modify storage " ++ function_storage
  ++ S_ " Stack[-1].Value set value false" ++ NL.

(** [self.error = CompilationError(command.context, message); return False] *)
Definition emit_error {A} (context : Context) (message : str) : io A :=
  lift (error context message).

(** [t.path[-1]] *)
Definition type_name (t : CubentType) : outcome str :=
  match type_path t with
  | Some p => Ok (last p [])
  | None => Raise AttributeError
  end.

(** [internal_directory.split(os.path.sep)[-2]] *)
Definition penultimate (p : Path) : outcome str :=
  match rev p with
  | _ :: x :: _ => Ok x
  | _ => Raise IndexError
  end.

Section Emitter.

(** [self.functions], and the arguments that [write_commands] hands on
    unchanged to the helper functions of its [if] blocks. *)
Variable functions : list Function.
Variable build_uuid : str.
Variable internal_directory : Path.

(** The parameter loop of a [CALL]: one value popped per parameter of
    the callee, in the order of its [dict]. *)
Fixpoint call_parameters (function_storage : str) (context : Context)
    (parameters : dict CubentType) (stack : Stack) : io Stack :=
  match parameters with
  | [] => ret stack
  | (parameter_name, parameter_type) :: parameters' =>
      let! (argument_type, stack) := lift (pop stack) in
      let! converted :=
        write_type_conversion argument_type parameter_type function_storage in
      if negb converted then
        let! expected := lift (type_name parameter_type) in
        let! got := lift (type_name argument_type) in
        emit_error context
          (S_ "Expected argument '" ++ parameter_name ++ S_ "' of type "
           ++ expected ++ S_ ", but got " ++ got)
      else
        let! _ := write (argument_lines function_storage) in
        call_parameters function_storage context parameters' stack
  end.

(** The variable [path] of [write_commands] after a command: the
    [CALL] branch assigns the path of the callee to it, and it is not
    put back. *)
Definition path_after (path : list str) (operation : Operation) : list str :=
  match operation with
  | CALL callee _ => callee
  | _ => path
  end.

(** One iteration of the loop of [write_commands], with
    [function_storage] as computed when the loop was entered and [path]
    as it is before the command.  [GET_PROP] and [SET_PROP] call
    [has_property], which [CubentType] does not have; [GET_ARG] indexes
    the [dict] of parameters with a number, which is never one of its
    keys; the operations without a branch write nothing.  [DO_IF] hands
    [path] to [write_internal_function], whose [write_commands]
    computes the storage of the helper function from it. *)
Fixpoint write_command (function_storage : str) (path : list str)
    (operation : Operation) (context : Context)
    (state : Stack * Scope) {struct operation} : io (Stack * Scope) :=
  let '(stack, scope) := state in
  match operation with
  | LOAD v =>
      let! raw := lift (raw_literal v) in
      let! _ := write (push_lines function_storage raw) in
      ret (literal_type v :: stack, scope)
  | DECLARE_VAR name =>
      let! (variable_type, stack) := lift (pop stack) in
      match declare_variable scope name variable_type with
      | None =>
          emit_error context
            (S_ "Can't declare existing variable '" ++ name ++ S_ "'")
      | Some scope => ret (stack, scope)
      end
  | SET_VAR name =>
      let! (object_type, stack) := lift (pop stack) in
      match get_variable scope name with
      | None => emit_error context (S_ "Undefined variable '" ++ name ++ S_ "'")
      | Some variable_type =>
          if negb (CubentType_eqb variable_type object_type) then
            let! object_path := lift (dotted_path object_type) in
            let! variable_path := lift (dotted_path variable_type) in
            emit_error context
              (S_ "Can't put " ++ object_path ++ S_ " object to " ++ variable_path
               ++ S_ " variable '" ++ name ++ S_ "'")
          else
            let! _ := write (set_var_lines function_storage name) in
            ret (stack, scope)
      end
  | GET_VAR name =>
      match get_variable scope name with
      | Some variable_type =>
          let! _ := write (get_var_lines function_storage name) in
          ret (variable_type :: stack, scope)
      | None => emit_error context (S_ "Undefined variable '" ++ name ++ S_ "'")
      end
  | GET_PROP name =>
      let! (object_type, stack) := lift (pop stack) in
      lift (Raise AttributeError)
  | SET_PROP name =>
      let! (object_type, stack) := lift (pop stack) in
      lift (Raise AttributeError)
  | GET_ARG index => lift (Raise KeyError)
  | CALL path argc =>
      let! _ := write (S_ "data modify storage " ++ CUBENT_STORAGE
                       ++ S_ " Arguments set value []" ++ NL) in
      let namespace := join (S_ ".") (removelast path) in
      match find_function functions path with
      | Some target_function =>
          let! stack :=
            call_parameters function_storage context
              (fn_parameters target_function) stack in
          let! _ :=
            match target_function with
            | CubentFunction _ _ _ _ =>
                write (S_ "function " ++ namespace ++ S_ ":" ++ last path [] ++ NL)
            | MCFunction _ _ _ location =>
                write (S_ "function " ++ location ++ NL)
            end in
          ret (stack, scope)
      | None =>
          emit_error context
            (S_ "Undefined function '" ++ join (S_ ".") path ++ S_ "'")
      end
  | DO_IF block =>
      let! (object_type, stack) := lift (pop stack) in
      let! converted := write_type_conversion object_type Boolean function_storage in
      if negb converted then lift (Fail None)
      else
        let! internal_function_name := uuid4 in
        let! _ :=
          with_open_w (internal_directory ++ [internal_function_name ++ S_ ".mcfunction"])
            (let! helper_storage := lift (function_storage_of build_uuid path) in
             let! _ := write (prologue helper_storage) in
             (fix write_block (path : list str)
                  (commands : list (Context * Operation))
                  (state : Stack * Scope) {struct commands} : io (Stack * Scope) :=
                match commands with
                | [] => ret state
                | (context, operation) :: commands' =>
                    let! state :=
                      write_command helper_storage path operation context state in
                    write_block (path_after path operation) commands' state
                end) path block ([], [] :: scope)) in
        let! directory := lift (penultimate internal_directory) in
        let internal_function_location :=
          directory ++ S_ ":" ++ internal_function_name in
        let! _ := write (do_if_lines function_storage internal_function_location) in
        ret (stack, scope)
  | ADD =>
      let! (second_type, stack) := lift (pop stack) in
      let! (first_type, stack) := lift (pop stack) in
      let! first_type_path := lift (dotted_path first_type) in
      let! second_type_path := lift (dotted_path second_type) in
      let integers := map S_ ["Byte"; "Short"; "Int"; "Long"]%string in
      if negb (str_in first_type_path integers) || negb (str_in second_type_path integers)
      then
        let! second_name := lift (type_name second_type) in
        let! first_name := lift (type_name first_type) in
        emit_error context
          (S_ "Can't add " ++ second_name ++ S_ " to " ++ first_name)
      else
        let! _ := write (add_lines function_storage first_type_path) in
        ret (Int :: stack, scope)
  | EQ =>
      let! (_, stack) := lift (pop stack) in
      let! (_, stack) := lift (pop stack) in
      let! _ := write (eq_lines function_storage) in
      ret (Boolean :: stack, scope)
  | SUB | DIV | MUL | NEQ | OR | AND => ret (stack, scope)
  end.

Section Loop.

Variable function_storage : str.

(** [for command in commands: ...], from the [path] the loop is
    entered with *)
Fixpoint write_loop (path : list str) (commands : list Command)
    (state : Stack * Scope) {struct commands} : io (Stack * Scope) :=
  match commands with
  | [] => ret state
  | (context, operation) :: commands' =>
      let! state := write_command function_storage path operation context state in
      write_loop (path_after path operation) commands' state
  end.

End Loop.

End Emitter.

(** [write_commands]; [parameters] is handed on and read by [GET_ARG]
    alone.  The result is the type stack the loop ends with. *)
Definition write_commands (functions : list Function) (build_uuid : str)
    (path : list str) (commands : list Command) (parameters : dict CubentType)
    (internal_directory : Path) (scope : Scope) : io Stack :=
  let! function_storage := lift (function_storage_of build_uuid path) in
  let! _ := write (prologue function_storage) in
  let! (stack, _) :=
    write_loop functions build_uuid internal_directory function_storage path
      commands ([], scope) in
  ret stack.

Definition write_cubent_function (functions : list Function) (build_uuid : str)
    (path : list str) (commands : list Command) (parameters : dict CubentType)
    (mcfunction_filename : Path) (internal_directory : Path)
    (scope : Scope) : io Stack :=
  with_open_w mcfunction_filename
    (write_commands functions build_uuid path commands parameters
       internal_directory scope).

(** ** The depth counter of the specification *)

(** [CALL] adds one when the function it resolves to, the first in the
    table with its path, has a return type other than [Void]. *)
Definition returns_value (functions : list Function) (path : list str) : bool :=
  match find_function functions path with
  | Some f => negb (CubentType_eqb (fn_return_type f) Void)
  | None => false
  end.

Definition depth_effect (functions : list Function) (operation : Operation) : Z :=
  match operation with
  | LOAD _ | GET_VAR _ | GET_PROP _ | GET_ARG _ => 1
  | ADD | SUB | DIV | MUL | EQ | NEQ | OR | AND => -1
  | SET_VAR _ | SET_PROP _ => -1
  | DECLARE_VAR _ => -1
  | DO_IF _ => -1
  | CALL path argc =>
      - Z.of_nat argc + (if returns_value functions path then 1 else 0)
  end.

(** The counter after the commands, from [depth]; [None] when it falls
    below zero after one of them. *)
Fixpoint depth_run (functions : list Function) (commands : list Command)
    (depth : Z) : option Z :=
  match commands with
  | [] => Some depth
  | command :: commands' =>
      let depth := (depth + depth_effect functions (operation command))%Z in
      if (depth <? 0)%Z then None else depth_run functions commands' depth
  end.

(** The counter is at least zero after every prefix and zero at the end. *)
Definition depth_invariant (functions : list Function) (commands : list Command) : bool :=
  match depth_run functions commands 0 with
  | Some 0%Z => true
  | _ => false
  end.

(** ** compiler.py: [Compiler.compile] *)

(** What the file system outside the output directory answers:
    [os.path.exists], [os.path.isdir], the base names that
    [glob.glob("**.cubent", ...)] finds in a directory, and the text of a
    source file.  [pack_mcmeta] is the text [json.dump] writes for a
    version and a description. *)
Variable host_exists : Path -> bool.
Variable host_isdir : Path -> bool.
Variable host_glob : Path -> list str.
Variable host_read : Path -> str.
Variable pack_mcmeta : MinecraftVersion -> str -> str.

(** [path.split("/")] *)
Fixpoint split_slash (cur : str) (s : str) : list str :=
  match s with
  | [] => [cur]
  | c :: s' =>
      if Ascii.eqb c "/" then cur :: split_slash [] s' else split_slash (cur ++ [c]) s'
  end.

(** The files of one source directory *)
Fixpoint compile_files (directory : Path) (filenames : list str)
    (functions : list Function) : io (list Function) :=
  match filenames with
  | [] => ret functions
  | filename :: filenames' =>
      let file := directory ++ [filename] in
      let! _ := call (io_read file) in
      let! functions := lift (compile_file file (host_read file) functions) in
      compile_files directory filenames' functions
  end.

Fixpoint compile_sources (source_path : list Path) (functions : list Function)
  : io (list Function) :=
  match source_path with
  | [] => ret functions
  | directory :: source_path' =>
      let! _ := call (io_isdir directory) in
      if negb (host_isdir directory) then lift (Fail None)
      else
        let! _ := call (io_glob directory) in
        let! functions := compile_files directory (host_glob directory) functions in
        compile_sources source_path' functions
  end.

(** The copies of an external function found in the source directories *)
Fixpoint copy_mcfunction (source_path : list Path) (namespace : str)
    (path : list str) (function_directory : Path) : io unit :=
  match source_path with
  | [] => ret tt
  | directory :: source_path' =>
      let function_file :=
        directory ++ [namespace] ++ removelast path
        ++ [last path [] ++ S_ ".mcfunction"] in
      let! _ := call (io_exists function_file) in
      let! _ :=
        if host_exists function_file
        then call (io_copyfile function_file
                     (function_directory ++ [last path [] ++ S_ ".mcfunction"]))
        else ret tt in
      copy_mcfunction source_path' namespace path function_directory
  end.

(** [for function in self.functions: ...] *)
Fixpoint write_functions (all_functions : list Function) (source_path : list Path)
    (out : Path) (build_uuid : str) (internal_directory : Path)
    (functions : list Function) : io unit :=
  match functions with
  | [] => ret tt
  | CubentFunction path parameters _ commands :: functions' =>
      let function_directory :=
        out ++ [S_ "data"; join (S_ ".") (removelast path); S_ "functions"] in
      let! _ := makedirs function_directory in
      let! _ :=
        write_cubent_function all_functions build_uuid path commands parameters
          (function_directory ++ [last path [] ++ S_ ".mcfunction"])
          internal_directory [[]] in
      write_functions all_functions source_path out build_uuid internal_directory
        functions'
  | MCFunction _ _ _ location :: functions' =>
      let! (namespace, path) := lift (split_location location) in
      let path := split_slash [] path in
      let function_directory :=
        out ++ [S_ "data"; namespace; S_ "functions"] ++ removelast path in
      let! _ := makedirs function_directory in
      let! _ := copy_mcfunction source_path namespace path function_directory in
      write_functions all_functions source_path out build_uuid internal_directory
        functions'
  end.

(** [Compiler.compile] on a compiler whose [self.functions] is
    [functions]; [Ok] is [True], with [self.functions] as it ends. *)
Definition compile (functions : list Function) (source_path : list Path) (out : Path)
    (mcversion : MinecraftVersion) (icon : Path) (description : str)
  : io (list Function) :=
  if MinecraftVersion_lt mcversion MINIMAL_VERSION then
    let! minimal := lift (MinecraftVersion_str MINIMAL_VERSION) in
    lift (Fail (Some (ErrorText
      (S_ "Minimal Minecraft version for Cubent is " ++ minimal))))
  else
    let! _ := call (io_exists out) in
    let! _ := if host_exists out then call (io_rmtree out) else ret tt in
    let! _ := call (io_makedirs out) in
    let! functions := compile_sources source_path functions in
    let! build_uuid := uuid4 in
    let! _ :=
      with_open_w (out ++ [S_ "pack.mcmeta"])
        (write (pack_mcmeta mcversion description)) in
    let! _ := call (io_copyfile icon (out ++ [S_ "pack.png"])) in
    let internal_directory := out ++ [S_ "data"; build_uuid; S_ "functions"] in
    let! _ := makedirs internal_directory in
    let! _ :=
      write_functions functions source_path out build_uuid internal_directory
        functions in
    ret functions.

Definition world0 : World := mkWorld [] 0 [].

(** ** The two halves of [read_number] *)

(** The digits, and the dot and the digits after it when there is one *)
Definition accumulate_number (self : Lexer) : Lexer * str :=
  let '(self, body) := digits_loop (remaining self) self [] in
  if Ascii.eqb (peekch self) "."
  then digits_loop (remaining (consume self)) (consume self) (body ++ [peekch self])
  else (self, body).

(** The suffix and the range checks *)
Definition classify_number (position : Position) (self : Lexer) (body : str)
  : outcome (Lexeme * Lexer) :=
  let ch := lower (peekch self) in
  let invalid := Ok (mkLexeme None position (Some body), self) in
  let suffixed t := Ok (mkLexeme (Some t) position (Some (body ++ [ch])), consume self) in
  let ranged (limit top : Z) (t : LexemeType) :=
    if ch_in "." body then invalid
    else match int body with
         | None => Raise ValueError
         | Some v => if (v + limit >? top)%Z then invalid else suffixed t
         end in
  if Ascii.eqb ch "b" then ranged 128%Z 255%Z BYTE
  else if Ascii.eqb ch "s" then ranged 32768%Z 65535%Z SHORT
  else if Ascii.eqb ch "l" then
    ranged 9223372036854775808%Z 18446744073709551615%Z LONG
  else if Ascii.eqb ch "f" then
    if float_parses body
    then if float_exceeds body then invalid else suffixed FLOAT
    else Raise ValueError
  else if Ascii.eqb ch "d" then suffixed DOUBLE
  else if ch_in "." body then Ok (mkLexeme (Some DOUBLE) position (Some body), self)
  else match int body with
       | None => Raise ValueError
       | Some v =>
           if (v + 2147483648 <=? 4294967295)%Z
           then Ok (mkLexeme (Some INT) position (Some body), self)
           else invalid
       end.

(** The lexer [self] moved on by [n] characters of one line *)
Definition advanced (self : Lexer) (n : nat) : Lexer :=
  mkLexer (offset self + n) (line self) (column self + n) (text self).

(** A lexeme other than [EOF], or [None] *)
Definition not_eof (l : option Lexeme) : bool :=
  match l with
  | Some l => negb (type_is l EOF)
  | None => true
  end.

(** The text that [body] spells between two delimiters [q]: a backslash
    before a backslash or a quote stands for that character, and every
    other character but the delimiter, a line break and ["\0"] stands for
    itself.  [None] where [body] is not written that way. *)
Fixpoint spelled (q : ascii) (body : str) : option str :=
  match body with
  | [] => Some []
  | c :: rest =>
      if Ascii.eqb c BACKSLASH then
        match rest with
        | c' :: rest' =>
            if ch_in c' [BACKSLASH; DQUOTE; SQUOTE]
            then option_map (cons c') (spelled q rest')
            else None
        | [] => None
        end
      else if ch_in c [q; CR; LF; NUL] then None
      else option_map (cons c) (spelled q rest)
  end.

(** [s] holds the two characters that close a block comment *)
Fixpoint closes (s : str) : bool :=
  match s with
  | [] => false
  | c :: rest =>
      (Ascii.eqb c "*" && Ascii.eqb (hd NUL rest) "/") || closes rest
  end.

(** [self] after [n] calls of [consume] *)
Definition consumed (n : nat) (self : Lexer) : Lexer := Nat.iter n consume self.

(** The types of numbers, and the types a number converts to and from *)
Definition numeric (t : CubentType) : bool :=
  match t with
  | Byte | Short | Int | Long | Float | Double => true
  | _ => false
  end.

Definition number_like (t : CubentType) : bool :=
  numeric t || CubentType_eqb t Boolean.

Definition is_any (t : CubentType) : bool := CubentType_eqb t Any.

(** The types of the values of a program *)
Definition value_type (t : CubentType) : bool :=
  match t with
  | Void | Any => false
  | _ => true
  end.

Definition value_stack (stack : Stack) : Prop := Forall (fun t => value_type t = true) stack.

Definition value_scope (scope : Scope) : Prop :=
  Forall (fun variables : dict CubentType =>
            Forall (fun variable => value_type (snd variable) = true) variables) scope.

(** What a step of a compilation may do to the world: make more calls,
    draw more identifiers, write more text to the open file. *)
Definition grows (w w' : World) : Prop :=
  (exists calls, trace w' = calls ++ trace w)
  /\ uuids w <= uuids w'
  /\ exists written, buffer w' = buffer w ++ written.

(** An operation for which the emitter has no branch that can succeed,
    itself or in one of its blocks *)
Fixpoint unsupported (operation : Operation) : bool :=
  match operation with
  | GET_ARG _ | GET_PROP _ | SET_PROP _ => true
  | DO_IF block =>
      existsb (fun command : Context * Operation => unsupported (snd command)) block
  | _ => false
  end.

(** The namespace of a function of the user, [path[:-1]] *)
Definition user_namespace (f : Function) : option (list str) :=
  match f with
  | CubentFunction path _ _ _ => Some (removelast path)
  | MCFunction _ _ _ _ => None
  end.

(** The namespaces of the functions of the user, in the order of the
    functions *)
Definition user_namespaces (functions : list Function) : list (list str) :=
  flat_map (fun f => match user_namespace f with
                     | Some namespace => [namespace]
                     | None => []
                     end) functions.

(** The directory that [compile] makes for a function of [namespace] *)
Definition namespace_directory (out : Path) (namespace : list str) : Path :=
  out ++ [S_ "data"; join (S_ ".") namespace; S_ "functions"].

(** ** The commands of a function body *)

Section IR.

Variable context : Context.
Variable parameters : dict CubentType.

(** The commands that the parser writes for an expression: those of
    an operand, and then, for each operator in the order of the
    source, those of the operand to its right and the operation.  An
    operand is one command for a literal or a name, or the commands of
    the arguments of a call and the [CALL] with their number. *)
Inductive operand_ir : list Command -> Prop :=
| operand_primary (lexeme : Lexeme) (command : Command) :
    primary_command context parameters lexeme = Ok command ->
    operand_ir [command]
| operand_call (arguments : list Command) (argc : nat) (position : Position)
    (path : list str) :
    arguments_ir arguments argc ->
    operand_ir (arguments ++ [(at_position context position, CALL path argc)])
with arguments_ir : list Command -> nat -> Prop :=
| arguments_none : arguments_ir [] 0
| arguments_more (expression arguments : list Command) (argc : nat) :
    expression_ir expression ->
    arguments_ir arguments argc ->
    arguments_ir (expression ++ arguments) (S argc)
with expression_ir : list Command -> Prop :=
| expression_rounds (operand rounds : list Command) :
    operand_ir operand -> rounds_ir rounds -> expression_ir (operand ++ rounds)
with rounds_ir : list Command -> Prop :=
| rounds_none : rounds_ir []
| rounds_more (operand : list Command) (body : str) (op : Operation)
    (position : Position) (rounds : list Command) :
    operand_ir operand ->
    dict_get operations body = Some op ->
    rounds_ir rounds ->
    rounds_ir (operand ++ (at_position context position, op) :: rounds).

(** The commands of a statement: a call; the value and then the target
    of an assignment; the value and the declaration of a variable; the
    condition and the [DO_IF] with the commands of the block. *)
Inductive statement_ir : list Command -> Prop :=
| statement_call (arguments : list Command) (argc : nat) (position : Position)
    (path : list str) :
    arguments_ir arguments argc ->
    statement_ir (arguments ++ [(at_position context position, CALL path argc)])
| statement_assign (expression : list Command) (first : Lexeme) (more : list Lexeme) :
    expression_ir expression ->
    statement_ir (expression ++ assign_commands context (first :: more))
| statement_declare (expression : list Command) (position : Position) (name : str) :
    expression_ir expression ->
    statement_ir (expression ++ [(at_position context position, DECLARE_VAR name)])
| statement_if (condition : list Command) (position : Position)
    (block : list Command) :
    expression_ir condition ->
    statements_ir block ->
    statement_ir (condition ++ [(at_position context position, DO_IF block)])
with statements_ir : list Command -> Prop :=
| statements_none : statements_ir []
| statements_more (statement statements : list Command) :
    statement_ir statement ->
    statements_ir statements ->
    statements_ir (statement ++ statements).

Scheme operand_ir_mut := Minimality for operand_ir Sort Prop
  with arguments_ir_mut := Minimality for arguments_ir Sort Prop
  with expression_ir_mut := Minimality for expression_ir Sort Prop
  with rounds_ir_mut := Minimality for rounds_ir Sort Prop.

Scheme statement_ir_mut := Minimality for statement_ir Sort Prop
  with statements_ir_mut := Minimality for statements_ir Sort Prop.

End IR.

(** The contexts of the commands, with those of the commands in the
    blocks *)
Fixpoint block_contexts (operation : Operation) : list Context :=
  match operation with
  | DO_IF block =>
      flat_map (fun command : Context * Operation =>
                  fst command :: block_contexts (snd command)) block
  | _ => []
  end.

Definition contexts_of (commands : list Command) : list Context :=
  flat_map (fun command : Command => fst command :: block_contexts (snd command))
    commands.

(** Commands whose contexts are all [context] at some position *)
Definition positioned (context : Context) (commands : list Command) : Prop :=
  Forall (fun c => exists position, c = at_position context position)
    (contexts_of commands).

(** A context of a command in the function [path] of the file
    [filename] with the text [source] *)
Definition located (filename : Path) (source : str) (path : list str)
    (context : Context) : Prop :=
  file_name context = filename
  /\ source_code context = source
  /\ function_path context = Some (join (S_ ".") path)
  /\ ctx_position context <> None.

(** What the parser declares in the file [filename] with the text
    [source]: a function in a namespace, every part of which is the
    first name of the namespace, with parameters of different names; for
    a function of the user, the commands of a function body, in the
    context of the function; for an external function, a location with
    a namespace and a path. *)
Definition well_declared (filename : Path) (source : str) (f : Function) : Prop :=
  (exists first depth name, fn_path f = repeat first (S depth) ++ [name])
  /\ NoDup (dict_keys (fn_parameters f))
  /\ match f with
     | CubentFunction path parameters _ commands =>
         statements_ir (mkContext filename source (Some (join (S_ ".") path)) None)
           parameters commands
     | MCFunction _ _ _ location =>
         exists namespace path, split_location location = Ok (namespace, path)
     end.

(** ** Calls that agree with the table *)

(** The operations of an operand that is not a call, and the operations
    of the operators *)
Definition value_operation (operation : Operation) : bool :=
  match operation with
  | LOAD _ | GET_VAR _ | GET_ARG _ => true
  | _ => false
  end.

Definition binary_operation (operation : Operation) : bool :=
  match operation with
  | ADD | SUB | DIV | MUL | EQ | NEQ | OR | AND => true
  | _ => false
  end.

(** What a function body does with a function or a property: it calls
    the function as an operand, for its value; it calls it as a
    statement; it assigns to a property. *)
Inductive Use : Type :=
| used_as_value (path : list str)
| used_as_statement (path : list str)
| stored_to_property.


(** Commands read as an expression, with the uses they make in the
    order of the commands: an operand, and then for each operator an
    operand and the operation.  An operand is one command for a literal
    or a name, or the commands of the arguments of a call, each an
    expression, and the [CALL] with their number. *)
Inductive reads_operand : list Command -> list Use -> Prop :=
| reads_value (command : Command) :
    value_operation (operation command) = true ->
    reads_operand [command] []
| reads_call (arguments : list Command) (argc : nat) (uses : list Use)
    (context : Context) (path : list str) :
    reads_arguments arguments argc uses ->
    reads_operand (arguments ++ [(context, CALL path argc)])
      (uses ++ [used_as_value path])
with reads_arguments : list Command -> nat -> list Use -> Prop :=
| reads_no_argument : reads_arguments [] 0 []
| reads_argument (expression arguments : list Command) (argc : nat)
    (uses uses' : list Use) :
    reads_expression expression uses ->
    reads_arguments arguments argc uses' ->
    reads_arguments (expression ++ arguments) (S argc) (uses ++ uses')
with reads_expression : list Command -> list Use -> Prop :=
| reads_operand_and_rounds (operand rounds : list Command) (uses uses' : list Use) :
    reads_operand operand uses -> reads_rounds rounds uses' ->
    reads_expression (operand ++ rounds) (uses ++ uses')
with reads_rounds : list Command -> list Use -> Prop :=
| reads_no_round : reads_rounds [] []
| reads_round (operand : list Command) (context : Context) (operator : Operation)
    (rounds : list Command) (uses uses' : list Use) :
    reads_operand operand uses ->
    binary_operation operator = true ->
    reads_rounds rounds uses' ->
    reads_rounds (operand ++ (context, operator) :: rounds) (uses ++ uses').



Scheme reads_operand_mut := Minimality for reads_operand Sort Prop
  with reads_arguments_mut := Minimality for reads_arguments Sort Prop
  with reads_expression_mut := Minimality for reads_expression Sort Prop
  with reads_rounds_mut := Minimality for reads_rounds Sort Prop.


(** ** The name of a declaration *)

(** The name that the declaration at the lexer gives to its function:
    the lexeme after the keyword [function], or after the keyword
    [mcfunction] and the location. *)
Definition declared_name (lexer : Lexer) : outcome str :=
  let* (keyword, lexer) := next_lexeme lexer in
  let* (name, _) :=
    if body_is (lx_body keyword) "function" then next_lexeme lexer
    else
      let* (_, lexer) := next_lexeme lexer in
      next_lexeme lexer in
  Ok (body_str name).

(** ** A host for the examples *)

Definition no_float : str -> bool := fun _ => false.
Definition literal_repr : str -> str := fun source => source.
Definition numbered_uuid (n : nat) : str := S_ "uuid" ++ str_of_nat n.
Definition nothing_exists : Path -> bool := fun _ => false.
Definition every_directory : Path -> bool := fun _ => true.
Definition one_source : Path -> list str := fun _ => [S_ "main.cubent"].
Definition empty_mcmeta : MinecraftVersion -> str -> str := fun _ _ => S_ "{}".


(** What is left of the text from the offset on *)
Definition rest_of (self : Lexer) : str := skipn (offset self) (text self).

(** A conversion the emitter accepts *)
Definition convertible (current_type target_type : CubentType) : Prop :=
  forall function_storage w,
    fst (write_type_conversion current_type target_type function_storage w) = Ok true.

Definition starts_with (prefix s : str) : bool :=
  str_eqb (firstn (List.length prefix) s) prefix.

(** The sources of the examples *)
Definition hello_world : str :=
  S_ "namespace demo { function main(): Void { var x = 1 + 2; } }".

Definition call_as_value : str :=
  S_ "import n.g; namespace n { function g(): Int { } function h(): Void { var x = g(); } }".

Definition twice_declared : str :=
  S_ "namespace n { function g(): Void { } mcfunction 'minecraft:reload' g(): Void; }".

Definition main_file : Path := [S_ "src"; S_ "main.cubent"].

(** A table with one function, [n.g(): Int], and a call of it *)
Definition int_returning : list Function :=
  [CubentFunction [S_ "n"; S_ "g"] [] Int []].

Definition nowhere : Context := mkContext main_file [] None (Some (mkPosition 0 0 0)).

Definition balanced_source : str :=
  S_ "namespace n { function h(): Void { var x = 1 + 2 * 3; if (x == 7) { x = 2; } } }".

(** The functions of a source, and the commands of its only function *)
Definition functions_of (source : str) : list Function :=
  match compile_file main_file source [] with
  | Ok functions => functions
  | _ => []
  end.

Definition commands_of (source : str) : list Command :=
  match functions_of source with
  | [CubentFunction _ _ _ commands] => commands
  | _ => []
  end.





(** A table with one function of two parameters, [n.g(a: Int, b: Byte)] *)
Definition two_parameters : list Function :=
  [CubentFunction [S_ "n"; S_ "g"] [(S_ "a", Int); (S_ "b", Byte)] Void []].

(** An [if] after a call, in one function *)
Definition if_after_call : str :=
  S_ "import m.g; namespace m { function g(): Void { } } namespace n { function h(): Void { g(); if (true) { var x = 1; } } }".

Definition call_as_statement : str :=
  S_ "import m.g; namespace m { function g(): Int { } } namespace n { function h(): Void { g(); } }".

(** ** Facts about the Python values *)

Lemma str_eqb_refl (a : str) : str_eqb a a = true.
Proof.
  induction a as [|x a IH]; simpl; [reflexivity|].
  now rewrite Ascii.eqb_refl, IH.
Qed.

Lemma str_eqb_eq (a b : str) : str_eqb a b = true <-> a = b.
Proof.
  split; [|intros ->; apply str_eqb_refl].
  revert b; induction a as [|x a IH]; intros [|y b]; simpl; try discriminate; auto.
  intros H. apply andb_true_iff in H as [Hx Hab].
  apply Ascii.eqb_eq in Hx. f_equal; auto.
Qed.

(** A fact about the classes of every character is checked on each of
    the 256 characters. *)
Ltac each_char c :=
  destruct c as [[|] [|] [|] [|] [|] [|] [|] [|]]; vm_compute;
  first [reflexivity | discriminate | intros; first [reflexivity | discriminate]].

Lemma isdecimal_code (c : ascii) : isdecimal c = true -> 48 <= code c <= 57.
Proof.
  unfold isdecimal, between. intros H. apply andb_true_iff in H as [H1 H2].
  apply Nat.leb_le in H1, H2. lia.
Qed.

Lemma isdecimal_isdigit (c : ascii) : isdecimal c = true -> isdigit c = true.
Proof. unfold isdigit. now intros ->. Qed.

Lemma decimals_digits (s : str) :
  forallb isdecimal s = true -> forallb isdigit s = true.
Proof.
  induction s as [|c s IH]; simpl; [reflexivity|].
  intros H. apply andb_true_iff in H as [Hc Hs].
  now rewrite (isdecimal_isdigit c Hc), IH.
Qed.

Lemma isdigit_not_space (c : ascii) : isdigit c = true -> isspace c = false.
Proof. each_char c. Qed.

Lemma code_inj (c d : ascii) : code c = code d -> c = d.
Proof.
  unfold code. intros H.
  rewrite <- (ascii_nat_embedding c), <- (ascii_nat_embedding d). now rewrite H.
Qed.

Lemma isdigit_neq (c d : ascii) :
  isdigit c = true -> isdigit d = false -> Ascii.eqb c d = false.
Proof.
  intros Hc Hd. destruct (Ascii.eqb_spec c d) as [->|]; [congruence | reflexivity].
Qed.

Lemma digits_no_char (c : ascii) (ds : str) :
  isdigit c = false -> forallb isdigit ds = true -> ch_in c ds = false.
Proof.
  intros Hc. induction ds as [|d ds IH]; simpl; [reflexivity|].
  intros H. apply andb_true_iff in H as [Hd Hds].
  rewrite (IH Hds), orb_false_r.
  rewrite Ascii.eqb_sym. now apply isdigit_neq.
Qed.

Lemma int_digits_snoc (s : str) (c : ascii) :
  int_digits (s ++ [c]) = (10 * int_digits s + digit_value c)%Z.
Proof. unfold int_digits. now rewrite fold_left_app. Qed.

Lemma int_digits_nonneg (s : str) :
  forallb isdecimal s = true -> (0 <= int_digits s)%Z.
Proof.
  induction s as [|c s IH] using rev_ind; [simpl; unfold int_digits; simpl; lia|].
  rewrite forallb_app. simpl. rewrite andb_true_r.
  intros H. apply andb_true_iff in H as [Hs Hc].
  rewrite int_digits_snoc. apply isdecimal_code in Hc.
  unfold digit_value. specialize (IH Hs). lia.
Qed.

Lemma int_of_digits (s : str) :
  s <> [] -> forallb isdecimal s = true -> List.length s <= MAX_STR_DIGITS ->
  int s = Some (int_digits s).
Proof.
  intros Hne H Hlen. destruct s; [contradiction|]. unfold int.
  apply Nat.leb_le in Hlen. now rewrite H, Hlen.
Qed.

Lemma int_too_long (s : str) : MAX_STR_DIGITS < List.length s -> int s = None.
Proof.
  intros Hlen. destruct s; [reflexivity|]. unfold int.
  apply Nat.leb_gt in Hlen. rewrite Hlen. now rewrite andb_false_r.
Qed.

Lemma int_not_decimal (s : str) : forallb isdecimal s = false -> int s = None.
Proof. intros H. destruct s; [reflexivity|]. unfold int. now rewrite H. Qed.

(** ** Facts about the lexer *)

Lemma nth_skipn_hd (n : nat) (l : str) : nth n l NUL = hd NUL (skipn n l).
Proof.
  revert l; induction n as [|n IH]; intros [|x l]; simpl; auto.
Qed.

Lemma skipn_S_tl (n : nat) (l : str) : skipn (n + 1) l = tl (skipn n l).
Proof.
  revert l; induction n as [|n IH]; intros [|x l]; simpl; auto.
Qed.

Lemma peekch_rest (self : Lexer) (c : ascii) (r : str) :
  rest_of self = c :: r -> peekch self = c.
Proof. unfold peekch, rest_of. intros H. now rewrite nth_skipn_hd, H. Qed.


Lemma rest_of_consume (self : Lexer) (c : ascii) (r : str) :
  rest_of self = c :: r -> rest_of (consume self) = r.
Proof.
  unfold rest_of, consume. intros H.
  destruct (Ascii.eqb (peekch self) LF); simpl; now rewrite skipn_S_tl, H.
Qed.

Lemma remaining_rest (self : Lexer) : remaining self = List.length (rest_of self).
Proof. unfold remaining, rest_of. now rewrite length_skipn. Qed.

Lemma text_consume (self : Lexer) : text (consume self) = text self.
Proof. unfold consume. now destruct (Ascii.eqb (peekch self) LF). Qed.

Lemma consume_digit (self : Lexer) :
  isdigit (peekch self) = true ->
  consume self = mkLexer (offset self + 1) (line self) (column self + 1) (text self).
Proof.
  intros H. unfold consume.
  now rewrite (isdigit_neq _ LF H eq_refl).
Qed.

(** The digit loop takes a run of digits that ends before a non-digit. *)
Lemma digits_loop_run (ds : str) :
  forall (n : nat) (self : Lexer) (body rest : str),
    rest_of self = ds ++ rest ->
    forallb isdigit ds = true ->
    isdigit (hd NUL rest) = false ->
    List.length ds <= n ->
    digits_loop n self body =
      (mkLexer (offset self + List.length ds) (line self)
         (column self + List.length ds) (text self),
       body ++ ds).
Proof.
  induction ds as [|d ds IH]; intros n self body rest Hrest Hds Hstop Hn.
  - simpl in *. rewrite !Nat.add_0_r, app_nil_r.
    assert (Hp : peekch self = hd NUL rest).
    { unfold peekch, rest_of in *. now rewrite nth_skipn_hd, Hrest. }
    destruct n; simpl; [now destruct self|].
    rewrite Hp, Hstop. now destruct self.
  - simpl in Hds. apply andb_true_iff in Hds as [Hd Hds].
    destruct n as [|n]; [simpl in Hn; lia|].
    simpl in Hrest. simpl digits_loop.
    rewrite (peekch_rest _ _ _ Hrest), Hd.
    pose proof (rest_of_consume _ _ _ Hrest) as Hrest'.
    rewrite (IH n (consume self) (body ++ [d]) rest Hrest' Hds Hstop)
      by (simpl in Hn; lia).
    rewrite consume_digit by now rewrite (peekch_rest _ _ _ Hrest).
    simpl. rewrite <- app_assoc. simpl.
    f_equal. f_equal; lia.
Qed.

Lemma skip_space_none (self : Lexer) :
  isspace (peekch self) = false -> skip_space self = self.
Proof.
  intros H. unfold skip_space. destruct (remaining self); simpl; [reflexivity|].
  now rewrite H.
Qed.

(** ** The recursion of [next] ends *)

Lemma peekch_not_nul (self : Lexer) :
  peekch self <> NUL -> offset self < List.length (text self).
Proof.
  intros H. destruct (Nat.lt_ge_cases (offset self) (List.length (text self)));
    [assumption|].
  exfalso. apply H. unfold peekch. now apply nth_overflow.
Qed.

Lemma remaining_consume (self : Lexer) :
  remaining (consume self) = remaining self - 1.
Proof.
  unfold remaining, consume.
  destruct (Ascii.eqb (peekch self) LF); simpl; lia.
Qed.

Lemma skip_space_loop_remaining (n : nat) :
  forall self, remaining (skip_space_loop n self) <= remaining self.
Proof.
  induction n as [|n IH]; intros self; simpl; [lia|].
  destruct (isspace (peekch self)); [|lia].
  rewrite IH, remaining_consume. lia.
Qed.

Lemma line_comment_loop_remaining (n : nat) :
  forall self, remaining (line_comment_loop n self) <= remaining self.
Proof.
  induction n as [|n IH]; intros self; cbn [line_comment_loop]; [lia|].
  destruct (ch_in (peekch self) [CR; LF; NUL]); [lia|].
  rewrite IH, remaining_consume. lia.
Qed.

Lemma block_comment_loop_remaining (n : nat) :
  forall self, remaining (block_comment_loop n self) <= remaining self.
Proof.
  induction n as [|n IH]; intros self; cbn [block_comment_loop]; [lia|].
  destruct (Ascii.eqb (peekch self) NUL); [lia|].
  destruct (Ascii.eqb (peekch self) "*").
  - destruct (Ascii.eqb (peekch (consume self)) "/").
    + rewrite !remaining_consume. lia.
    + rewrite IH, remaining_consume. lia.
  - rewrite IH, remaining_consume. lia.
Qed.

(** The loops run until their condition fails: [skip_space] ends on a
    character that is no space. *)
Lemma skip_space_loop_stops (n : nat) :
  forall self,
    remaining self <= n -> isspace (peekch (skip_space_loop n self)) = false.
Proof.
  induction n as [|n IH]; intros self Hn; simpl.
  - unfold peekch. rewrite nth_overflow; [reflexivity|]. unfold remaining in Hn. lia.
  - destruct (isspace (peekch self)) eqn:Hsp; [|exact Hsp].
    apply IH. rewrite remaining_consume. lia.
Qed.

Lemma skip_space_stops (self : Lexer) : isspace (peekch (skip_space self)) = false.
Proof. apply skip_space_loop_stops. lia. Qed.

Lemma read_number_returns (self : Lexer) : read_number self <> OutOfFuel.
Proof.
  unfold read_number.
  destruct (digits_loop (remaining self) self []) as [self1 body1].
  destruct (if Ascii.eqb (peekch self1) "."
            then digits_loop (remaining (consume self1)) (consume self1)
                   (body1 ++ [peekch self1])
            else (self1, body1)) as [self2 body2].
  cbv zeta.
  repeat lazymatch goal with
         | |- (if ?c then _ else _) <> _ => destruct c
         | |- (match ?c with Some _ => _ | None => _ end) <> _ => destruct c
         end;
    discriminate.
Qed.

(** [next] returns a lexeme or [None], or raises: the model never runs
    out of the calls it counts. *)
Lemma next_fuel_returns (fuel : nat) :
  forall self, remaining self < fuel -> next_fuel fuel self <> OutOfFuel.
Proof.
  induction fuel as [|fuel IH]; intros self Hfuel; [lia|].
  cbn [next_fuel].
  assert (Hskip : remaining (skip_space self) <= remaining self)
    by apply skip_space_loop_remaining.
  set (self1 := skip_space self) in *.
  destruct (Ascii.eqb (peekch self1) NUL) eqn:Hnul; [discriminate|].
  assert (Hpos : 1 <= remaining self1).
  { apply Ascii.eqb_neq, peekch_not_nul in Hnul. unfold remaining. lia. }
  destruct (Ascii.eqb (peekch self1) "/").
  - destruct (Ascii.eqb (peekch (consume self1)) "/").
    + apply IH.
      pose proof (line_comment_loop_remaining
                    (remaining (consume (consume self1))) (consume (consume self1))).
      pose proof (remaining_consume self1).
      pose proof (remaining_consume (consume self1)). lia.
    + destruct (Ascii.eqb (peekch (consume self1)) "*"); [|discriminate].
      apply IH.
      pose proof (block_comment_loop_remaining
                    (remaining (consume (consume self1))) (consume (consume self1))).
      pose proof (remaining_consume self1).
      pose proof (remaining_consume (consume self1)). lia.
  - destruct (Ascii.eqb (peekch self1) "=").
    + destruct (Ascii.eqb (peekch (consume self1)) "="); discriminate.
    + destruct (isdigit (peekch self1) || Ascii.eqb (peekch self1) ".").
      * pose proof (read_number_returns self1) as Hnumber.
        destruct (read_number self1) as [[l self2]| | |]; cbn [bind];
          try discriminate. contradiction.
      * destruct (ch_in (peekch self1) [DQUOTE; SQUOTE]).
        { destruct (read_string self1). discriminate. }
        destruct (isalpha (peekch self1)).
        { destruct (read_identifier self1). discriminate. }
        discriminate.
Qed.

Lemma next_returns (self : Lexer) : next self <> OutOfFuel.
Proof. apply next_fuel_returns. lia. Qed.

Lemma skipn_length_app (a b : str) : skipn (List.length a) (a ++ b) = b.
Proof. induction a; simpl; auto. Qed.

Lemma peekch_init (c : ascii) (s : str) : peekch (Lexer_init (c :: s)) = c.
Proof. reflexivity. Qed.

Lemma int_spec (s : str) :
  s <> [] ->
  int s = if forallb isdecimal s && (List.length s <=? MAX_STR_DIGITS)
          then Some (int_digits s)
          else None.
Proof. intros Hne. destruct s; [contradiction | reflexivity]. Qed.

Lemma isdigit_dispatch (c : ascii) :
  isdigit c = true ->
  Ascii.eqb c NUL = false /\ Ascii.eqb c "/" = false /\ Ascii.eqb c "=" = false
  /\ Ascii.eqb c "." = false.
Proof.
  intros H. repeat split; now apply isdigit_neq.
Qed.

(** On a digit or a dot, [next] is [read_number]. *)
Lemma next_reads_number (self : Lexer) :
  isdigit (peekch self) = true \/ peekch self = "." ->
  next self = let* (l, self') := read_number self in Ok (Some l, self').
Proof.
  intros Hx. unfold next. simpl next_fuel.
  assert (Hsp : isspace (peekch self) = false).
  { destruct Hx as [Hx | ->]; [now apply isdigit_not_space | reflexivity]. }
  rewrite skip_space_none by exact Hsp.
  destruct Hx as [Hx | Hx].
  - destruct (isdigit_dispatch _ Hx) as (H0 & H1 & H2 & H3).
    now rewrite H0, H1, H2, Hx.
  - now rewrite Hx.
Qed.

Lemma lower_b (c : ascii) : c = "b" \/ c = "B" -> lower c = "b".
Proof. now intros [-> | ->]. Qed.

Lemma suffix_b_not_digit (c : ascii) : c = "b" \/ c = "B" -> isdigit c = false.
Proof. now intros [-> | ->]. Qed.

Lemma consume_suffix_b (self : Lexer) :
  peekch self = "b" \/ peekch self = "B" ->
  consume self = mkLexer (offset self + 1) (line self) (column self + 1) (text self).
Proof. unfold consume. now intros [-> | ->]. Qed.

(** C9 — Byte literals: digits, with or without a fractional part, that
    are followed by the suffix [b] or [B].  With a fractional part the
    lexeme has no type.  Without one, [int] reads the digits: when they
    are decimal digits, at most 4300 of them, the lexeme is a [BYTE]
    exactly when their value lies in [[-128, 127]], with the digits and a
    lower-case [b] as its body, and otherwise it has no type, its body is
    the literal as accumulated and the suffix is not consumed; on more
    than 4300 digits, or on a superscript digit among them, [next] raises
    [ValueError] and returns no lexeme. *)
Theorem C9_byte_literal (ds : str) (frac : option str) (c : ascii) (rest : str) :
  forallb isdigit ds = true ->
  match frac with
  | Some fs => forallb isdigit fs = true
  | None => ds <> []
  end ->
  c = "b" \/ c = "B" ->
  let body := ds ++ match frac with Some fs => "." :: fs | None => [] end in
  let source := body ++ c :: rest in
  let invalid :=
    Ok (Some (mkLexeme None (mkPosition 0 0 0) (Some body)),
        mkLexer (List.length body) 0 (List.length body) source) in
  next (Lexer_init source) =
    match frac with
    | Some _ => invalid
    | None =>
        if forallb isdecimal ds && (List.length ds <=? MAX_STR_DIGITS) then
          if (-128 <=? int_digits ds)%Z && (int_digits ds <=? 127)%Z
          then Ok (Some (mkLexeme (Some BYTE) (mkPosition 0 0 0) (Some (ds ++ ["b"]))),
                   mkLexer (List.length ds + 1) 0 (List.length ds + 1) source)
          else invalid
        else Raise ValueError
    end.
Proof.
  intros Hds Hfrac Hc body source invalid. subst invalid.
  pose proof (lower_b c Hc) as Hlow.
  pose proof (suffix_b_not_digit c Hc) as Hcd.
  assert (Hhead : exists x s, source = x :: s /\ (isdigit x = true \/ x = ".")).
  { subst source body. destruct ds as [|d ds'].
    - destruct frac as [fs|]; [|contradiction]. simpl. eauto.
    - simpl in Hds. apply andb_true_iff in Hds as [Hd _]. simpl. eauto. }
  destruct Hhead as (x & s & Hsrc & Hx).
  rewrite next_reads_number by (rewrite Hsrc, peekch_init; exact Hx).
  unfold read_number.
  set (self0 := Lexer_init source).
  set (tail := match frac with Some fs => "." :: fs | None => [] end ++ c :: rest).
  assert (Hsource : source = ds ++ tail).
  { subst source body tail. now rewrite app_assoc. }
  assert (Hrest0 : rest_of self0 = ds ++ tail).
  { unfold rest_of, self0. simpl. exact Hsource. }
  assert (Hstop0 : isdigit (hd NUL tail) = false).
  { subst tail. destruct frac; simpl; [reflexivity | exact Hcd]. }
  rewrite (digits_loop_run ds (remaining self0) self0 [] _ Hrest0 Hds Hstop0).
  2:{ rewrite remaining_rest, Hrest0, length_app. lia. }
  simpl app. cbv beta iota zeta.
  destruct frac as [fs|].
  - (* a fractional part *)
    set (self1 := mkLexer _ _ _ _).
    assert (Hrest1 : rest_of self1 = "." :: fs ++ c :: rest).
    { unfold rest_of, self1. simpl. rewrite Hsource. apply skipn_length_app. }
    rewrite (peekch_rest _ _ _ Hrest1). simpl Ascii.eqb. cbv iota.
    pose proof (rest_of_consume _ _ _ Hrest1) as Hrest2.
    assert (Hcons : consume self1 =
              mkLexer (List.length ds + 1) 0 (List.length ds + 1) source).
    { unfold consume. rewrite (peekch_rest _ _ _ Hrest1). reflexivity. }
    rewrite Hcons in *.
    rewrite (digits_loop_run fs _ _ _ (c :: rest) Hrest2 Hfrac Hcd).
    2:{ rewrite remaining_rest, Hrest2, length_app. lia. }
    set (self2 := mkLexer _ _ _ _).
    assert (Hrest3 : rest_of self2 = c :: rest).
    { unfold rest_of, self2. simpl.
      replace (List.length ds + 1 + List.length fs) with (List.length body)
        by (subst body; rewrite length_app; simpl; lia).
      apply skipn_length_app. }
    rewrite (peekch_rest _ _ _ Hrest3), Hlow. simpl Ascii.eqb. cbv iota.
    assert (Hdot : ch_in "." (([] ++ ds) ++ ["."] ++ fs) = true).
    { unfold ch_in. rewrite !existsb_app. simpl. now rewrite orb_true_r. }
    simpl app in Hdot. simpl app.
    replace ((ds ++ ["."]) ++ fs) with (ds ++ "." :: fs)
      by (now rewrite <- app_assoc).
    rewrite Hdot. cbv iota.
    unfold self2, self0. subst body. rewrite length_app.
    cbn [bind offset line column text position Lexer_init List.length].
    do 3 f_equal; lia.
  - (* digits only *)
    set (self1 := mkLexer _ _ _ _).
    assert (Hrest1 : rest_of self1 = c :: rest).
    { unfold rest_of, self1. simpl. rewrite Hsource. apply skipn_length_app. }
    rewrite (peekch_rest _ _ _ Hrest1).
    assert (Hnd : Ascii.eqb c "." = false) by (now destruct Hc as [-> | ->]).
    rewrite Hnd. rewrite !(peekch_rest _ _ _ Hrest1), !Hlow. simpl Ascii.eqb. cbv iota.
    rewrite (digits_no_char "." ds eq_refl Hds).
    rewrite (int_spec ds Hfrac).
    destruct (forallb isdecimal ds && (List.length ds <=? MAX_STR_DIGITS)) eqn:Hint;
      [|reflexivity].
    apply andb_true_iff in Hint as [Hdec _].
    pose proof (int_digits_nonneg ds Hdec) as Hnn.
    replace (-128 <=? int_digits ds)%Z with true by (symmetry; apply Z.leb_le; lia).
    simpl andb.
    rewrite (consume_suffix_b self1) by (now rewrite (peekch_rest _ _ _ Hrest1)).
    destruct (Z.leb_spec (int_digits ds) 127) as [Hle | Hgt].
    + replace (int_digits ds + 128 >? 255)%Z with false
        by (symmetry; rewrite Z.gtb_ltb; apply Z.ltb_ge; lia).
      reflexivity.
    + replace (int_digits ds + 128 >? 255)%Z with true
        by (symmetry; rewrite Z.gtb_ltb; apply Z.ltb_lt; lia).
      subst body. rewrite app_nil_r. reflexivity.
Qed.

(** ** Decimal rendering *)

Lemma digit_char_spec (n : N) :
  (n < 10)%N ->
  isdecimal (digit_char n) = true /\ digit_value (digit_char n) = Z.of_N n.
Proof.
  intros H.
  assert (Hn : In n [0; 1; 2; 3; 4; 5; 6; 7; 8; 9]%N).
  { simpl. lia. }
  simpl in Hn.
  repeat (destruct Hn as [<- | Hn]; [split; reflexivity|]). contradiction.
Qed.

Lemma digits_of_spec (fuel : nat) :
  forall n : N,
    (n < 2 ^ N.of_nat (S fuel))%N ->
    forallb isdecimal (digits_of (S fuel) n) = true
    /\ digits_of (S fuel) n <> []
    /\ int_digits (digits_of (S fuel) n) = Z.of_N n.
Proof.
  induction fuel as [|fuel IH]; intros n Hn.
  - assert (Hlt : (n < 10)%N) by (simpl in Hn; lia).
    simpl. apply N.ltb_lt in Hlt as Hb. rewrite Hb.
    destruct (digit_char_spec n Hlt) as [Hd Hv].
    simpl. rewrite Hd. repeat split; [discriminate|].
    unfold int_digits. simpl. lia.
  - change (digits_of (S (S fuel)) n)
      with (if (n <? 10)%N then [digit_char n]
            else digits_of (S fuel) (n / 10)%N ++ [digit_char (n mod 10)%N]).
    destruct (N.ltb_spec n 10) as [Hlt | Hge].
    + destruct (digit_char_spec n Hlt) as [Hd Hv].
      simpl. rewrite Hd. repeat split; [discriminate|].
      unfold int_digits. simpl. lia.
    + assert (Hdiv : (n / 10 < 2 ^ N.of_nat (S fuel))%N).
      { apply N.Div0.div_lt_upper_bound.
        rewrite Nat2N.inj_succ, N.pow_succ_r' in Hn. lia. }
      destruct (IH _ Hdiv) as (Hall & Hne & Hval).
      assert (Hmod : (n mod 10 < 10)%N) by (apply N.mod_lt; lia).
      destruct (digit_char_spec _ Hmod) as [Hd Hv].
      repeat split.
      * rewrite forallb_app, Hall. simpl. now rewrite Hd.
      * intros Heq. apply app_eq_nil in Heq as [_ Heq]. discriminate.
      * rewrite int_digits_snoc, Hval, Hv.
        pose proof (N.div_mod n 10 ltac:(lia)) as Hdm. lia.
Qed.

Lemma digits_of_length (fuel : nat) :
  forall (n : N) (k : nat),
    (n < 10 ^ N.of_nat (S k))%N -> List.length (digits_of fuel n) <= S k.
Proof.
  induction fuel as [|fuel IH]; intros n k Hn; cbn [digits_of]; [simpl; lia|].
  destruct (N.ltb_spec n 10) as [Hlt | Hge]; [simpl; lia|].
  rewrite length_app. cbn [List.length].
  destruct k as [|k]; [simpl in Hn; lia|].
  assert (Hdiv : (n / 10 < 10 ^ N.of_nat (S k))%N).
  { apply N.Div0.div_lt_upper_bound.
    rewrite (Nat2N.inj_succ (S k)), N.pow_succ_r' in Hn. lia. }
  specialize (IH _ _ Hdiv). lia.
Qed.

Lemma str_of_N_length (n : N) (k : nat) :
  (n < 10 ^ N.of_nat (S k))%N -> List.length (str_of_N n) <= S k.
Proof. apply digits_of_length. Qed.

Lemma str_of_N_spec (n : N) :
  forallb isdecimal (str_of_N n) = true
  /\ str_of_N n <> []
  /\ int_digits (str_of_N n) = Z.of_N n.
Proof.
  unfold str_of_N. apply digits_of_spec.
  rewrite Nat2N.inj_succ, N2Nat.id, N.pow_succ_r'.
  pose proof (N.size_gt n). lia.
Qed.




(** ** The lone slash *)

(** C6 — [next] has no [return] for a slash that opens no comment: after
    the white space, on a ["/"] that neither ["/"] nor ["*"] follows, it
    consumes the slash and returns [None], not a lexeme with body ["/"]. *)
Theorem C6_lone_slash_returns_none (self : Lexer) :
  peekch (skip_space self) = "/" ->
  peekch (consume (skip_space self)) <> "/" ->
  peekch (consume (skip_space self)) <> "*" ->
  next self = Ok (None, consume (skip_space self)).
Proof.
  intros Hslash Hnot1 Hnot2. unfold next. simpl next_fuel.
  rewrite Hslash. simpl Ascii.eqb. cbv iota.
  destruct (Ascii.eqb_spec (peekch (consume (skip_space self))) "/"); [contradiction|].
  destruct (Ascii.eqb_spec (peekch (consume (skip_space self))) "*"); [contradiction|].
  reflexivity.
Qed.

(** In [1/2] the lexeme after [1] is [None]. *)
Example lex_division :
  lex (S_ "1/2") =
    Ok [Some (mkLexeme (Some INT) (mkPosition 0 0 0) (Some (S_ "1")));
        None;
        Some (mkLexeme (Some INT) (mkPosition 2 0 2) (Some (S_ "2")));
        Some (mkLexeme (Some EOF) (mkPosition 3 0 3) None)].
Proof. reflexivity. Qed.

(** The parser reads an attribute of what [next] returned: a division is
    an [AttributeError]. *)
Example parse_division (file : Path) :
  compile_file file
    (S_ "namespace n { function h(): Void { var x = 1/2; } }") [] =
  Raise AttributeError.
Proof. vm_compute. reflexivity. Qed.

(** ** The version gate *)

(** C3 — the version gate compares the three numbers one by one:
    [compile] rejects [1.20.0] (the version ["1.20"] parses to), which is
    not below [1.14.1], with the error of the gate and before any file
    I/O. *)
Theorem C3_version_gate_rejects_1_20 (functions : list Function)
    (source_path : list Path) (out icon : Path) (description : str) (w : World) :
  MinecraftVersion_parse (S_ "1.20") = Ok (Some (mkMinecraftVersion 1 20 0))
  /\ version_below (mkMinecraftVersion 1 20 0) MINIMAL_VERSION = false
  /\ compile functions source_path out (mkMinecraftVersion 1 20 0) icon description w
     = (Fail (Some (ErrorText (S_ "Minimal Minecraft version for Cubent is 1.14.1"))), w).
Proof. repeat split. Qed.

(** Whenever the gate fails, nothing was done to the file system. *)
Lemma version_gate_before_io (functions : list Function) (source_path : list Path)
    (out icon : Path) (description : str) (mcversion : MinecraftVersion) (w : World) :
  MinecraftVersion_lt mcversion MINIMAL_VERSION = true ->
  compile functions source_path out mcversion icon description w
  = (Fail (Some (ErrorText (S_ "Minimal Minecraft version for Cubent is 1.14.1"))), w).
Proof. intros H. unfold compile. now rewrite H. Qed.

(** A version below the minimum is rejected; the converse fails. *)
Lemma version_below_rejected (v : MinecraftVersion) :
  version_below v MINIMAL_VERSION = true ->
  MinecraftVersion_lt v MINIMAL_VERSION = true.
Proof.
  unfold version_below, MinecraftVersion_lt. simpl.
  destruct (Z.ltb_spec (major v) 1), (Z.ltb_spec (minor v) 14),
    (Z.ltb_spec (phase v) 1), (Z.eqb_spec (major v) 1), (Z.eqb_spec (minor v) 14);
    simpl; auto.
Qed.

Lemma version_gate_spec (v : MinecraftVersion) :
  MinecraftVersion_lt v MINIMAL_VERSION = true
  <-> (major v < 1 \/ minor v < 14 \/ phase v < 1)%Z.
Proof.
  unfold MinecraftVersion_lt. simpl.
  rewrite !orb_true_iff, !Z.ltb_lt. apply or_assoc.
Qed.

(** ** Expressions *)

(** C1 — the expression [1+2*3==7] in a function body compiles to
    [1 2 + 3 * 7 ==]: each operator comes right after the primary to its
    right, whatever its level in [operators]. *)
Theorem C1_operators_left_to_right (file : Path) :
  match compile_file file
          (S_ "namespace n { function h(): Void { var x = 1+2*3==7; } }") [] with
  | Ok [CubentFunction path _ _ commands] =>
      path = [S_ "n"; S_ "h"]
      /\ map operation commands =
           [LOAD (LitInt 1); LOAD (LitInt 2); ADD; LOAD (LitInt 3); MUL;
            LOAD (LitInt 7); EQ; DECLARE_VAR (S_ "x")]
  | _ => False
  end.
Proof. vm_compute. split; reflexivity. Qed.

(** The same holds with the operators the other way round. *)
Example product_then_sum (file : Path) :
  match compile_file file
          (S_ "namespace n { function h(): Void { var x = 1*2+3; } }") [] with
  | Ok [CubentFunction _ _ _ commands] =>
      map operation commands =
        [LOAD (LitInt 1); LOAD (LitInt 2); MUL; LOAD (LitInt 3); ADD;
         DECLARE_VAR (S_ "x")]
  | _ => False
  end.
Proof. vm_compute. reflexivity. Qed.

(** [!=], [||] and [&&] are never one lexeme. *)
Example lex_not_equal :
  lex (S_ "!=") =
    Ok [Some (mkLexeme None (mkPosition 0 0 0) (Some (S_ "!")));
        Some (mkLexeme None (mkPosition 1 0 1) (Some (S_ "=")));
        Some (mkLexeme (Some EOF) (mkPosition 2 0 2) None)].
Proof. reflexivity. Qed.

(** ** The emitter *)

Lemma bind_io_ok {A B} (m : io A) (k : A -> io B) (w w' : World) (b : B) :
  bind_io m k w = (Ok b, w') ->
  exists a w1, m w = (Ok a, w1) /\ k a w1 = (Ok b, w').
Proof.
  unfold bind_io. destruct (m w) as [[a | e | x |] w1]; try discriminate.
  intros H. eauto.
Qed.

Lemma lift_ok {A} (o : outcome A) (w w' : World) (a : A) :
  lift o w = (Ok a, w') -> o = Ok a /\ w' = w.
Proof. unfold lift. intros H. inversion H. auto. Qed.

Lemma pop_ok (stack stack' : Stack) (t : CubentType) :
  pop stack = Ok (t, stack') -> stack = t :: stack'.
Proof. destruct stack; simpl; intros H; inversion H. reflexivity. Qed.

(** The parameter loop pops one value per parameter, each convertible to
    the type of its parameter, in the order of the parameters. *)
Lemma call_parameters_pops (function_storage : str) (context : Context)
    (parameters : dict CubentType) :
  forall (stack stack' : Stack) (w w' : World),
    call_parameters function_storage context parameters stack w = (Ok stack', w') ->
    exists popped,
      stack = popped ++ stack'
      /\ List.length popped = List.length parameters
      /\ Forall2 (fun argument_type parameter => convertible argument_type (snd parameter))
           popped parameters.
Proof.
  induction parameters as [|[name parameter_type] parameters IH];
    intros stack stack' w w' H.
  - simpl in H. inversion H. exists []. repeat split. constructor.
  - simpl in H.
    apply bind_io_ok in H as ([argument_type stack1] & w1 & Hpop & H).
    apply lift_ok in Hpop as [Hpop ->]. apply pop_ok in Hpop. subst stack.
    apply bind_io_ok in H as (converted & w2 & Hconv & H).
    destruct converted; simpl in H.
    + apply bind_io_ok in H as ([] & w3 & _ & H).
      apply IH in H as (popped & -> & Hlen & Hall).
      exists (argument_type :: popped). repeat split.
      * simpl. now rewrite Hlen.
      * constructor; [|exact Hall].
        intros fs0 w0. simpl.
        revert Hconv. unfold write_type_conversion, bind_io, lift, ret, write, dotted_path.
        destruct (type_path argument_type); try discriminate.
        destruct (type_path parameter_type); try discriminate.
        repeat match goal with
               | |- context [if ?c then _ else _] => destruct c
               end; simpl; intros Hc; inversion Hc; reflexivity.
    + unfold emit_error, bind_io, lift in H.
      destruct (type_name parameter_type); try discriminate.
      destruct (type_name argument_type); try discriminate.
      unfold error, bind in H.
      destruct (CompilationError_init _ _); discriminate.
Qed.

(** C5 — a [CALL] that the emitter processes successfully resolves to the
    first function with its path, pops one compile-time value per
    parameter of that function, each convertible to the parameter's type,
    and leaves the rest of the type stack as it was: the return type of
    the callee is not pushed, whether it is [Void] or not. *)
Theorem C5_call_pushes_nothing (functions : list Function) (build_uuid : str)
    (internal_directory : Path) (function_storage : str) (caller : list str)
    (context : Context)
    (path : list str) (argc : nat) (stack stack' : Stack) (scope scope' : Scope)
    (w w' : World) :
  write_command functions build_uuid internal_directory function_storage caller
    (CALL path argc) context (stack, scope) w = (Ok (stack', scope'), w') ->
  exists target_function popped,
    find_function functions path = Some target_function
    /\ stack = popped ++ stack'
    /\ List.length popped = List.length (fn_parameters target_function)
    /\ Forall2 (fun argument_type parameter => convertible argument_type (snd parameter))
         popped (fn_parameters target_function)
    /\ scope' = scope.
Proof.
  intros H. simpl in H.
  apply bind_io_ok in H as ([] & w1 & _ & H).
  destruct (find_function functions path) as [target_function|] eqn:Hfind.
  - apply bind_io_ok in H as (stack1 & w2 & Hcall & H).
    apply call_parameters_pops in Hcall as (popped & -> & Hlen & Hall).
    apply bind_io_ok in H as ([] & w3 & _ & H).
    unfold ret in H. inversion H; subst.
    exists target_function, popped. repeat split; auto.
  - unfold emit_error, lift, error, bind in H.
    destruct (CompilationError_init _ _); discriminate.
Qed.

(** The call of a function that returns [Int], as an initialiser: the
    declaration finds the type stack empty. *)
Example call_result_missing (file mcfunction_filename internal_directory : Path)
    (build_uuid : str) (w : World) :
  match compile_file file call_as_value [] with
  | Ok ([CubentFunction _ _ g_type _; CubentFunction path parameters _ commands]
        as functions) =>
      g_type = Int
      /\ map operation commands = [CALL [S_ "n"; S_ "g"] 0; DECLARE_VAR (S_ "x")]
      /\ fst (write_cubent_function functions build_uuid path commands parameters
                mcfunction_filename internal_directory [[]] w)
         = Raise IndexError
  | _ => False
  end.
Proof. vm_compute. repeat split. Qed.

(** ** Declarations of variables *)

(** C2 — for [var x = 1 + 2;] the emitter writes the prologue, the two
    pushes and the [ADD] sequence, and nothing for [DECLARE_VAR]: no line
    moves [Stack[-1]] into [Variables.x] or drops it.  The compile-time
    type stack is empty at the end. *)
Theorem C2_declare_var_writes_nothing (file mcfunction_filename internal_directory : Path)
    (w : World) :
  match compile_file file hello_world [] with
  | Ok ([CubentFunction path parameters _ commands] as functions) =>
      map operation commands =
        [LOAD (LitInt 1); LOAD (LitInt 2); ADD; DECLARE_VAR (S_ "x")]
      /\ let storage := S_ "U.demo:main" in
         write_cubent_function functions (S_ "U") path commands parameters
           mcfunction_filename internal_directory [[]] w
         = (Ok [],
            mkWorld
              (io_write mcfunction_filename
                 (prologue storage
                  ++ push_lines storage (S_ "1")
                  ++ push_lines storage (S_ "2")
                  ++ add_lines storage (S_ "Int"))
               :: trace w)
              (uuids w) (buffer w))
  | _ => False
  end.
Proof. vm_compute. split; reflexivity. Qed.

(** In general [DECLARE_VAR] writes to no file and calls nothing. *)
Lemma declare_var_silent (functions : list Function) (build_uuid : str)
    (internal_directory : Path) (function_storage : str) (path : list str)
    (context : Context) (name : str) (state : Stack * Scope) (w : World) :
  snd (write_command functions build_uuid internal_directory function_storage path
         (DECLARE_VAR name) context state w) = w.
Proof.
  destruct state as [stack scope]. simpl.
  unfold bind_io, lift, emit_error, ret.
  destruct (pop stack) as [[t stack']| | |]; simpl; try reflexivity.
  destruct (declare_variable scope name t); simpl; reflexivity.
Qed.

(** [SET_VAR], on its successful path, writes the move and the drop. *)
Lemma set_var_writes (functions : list Function) (build_uuid : str)
    (internal_directory : Path) (function_storage : str) (path : list str)
    (context : Context) (name : str)
    (stack stack' : Stack) (scope scope' : Scope) (w w' : World) :
  write_command functions build_uuid internal_directory function_storage path
    (SET_VAR name) context (stack, scope) w = (Ok (stack', scope'), w') ->
  buffer w' = buffer w ++ set_var_lines function_storage name.
Proof.
  simpl. unfold bind_io, lift, emit_error, ret, write, error, bind.
  destruct (pop stack) as [[t stack1]| | |]; simpl; try discriminate.
  destruct (get_variable scope name) as [variable_type|].
  - destruct (CubentType_eqb variable_type t); simpl.
    + intros H. inversion H. reflexivity.
    + destruct (dotted_path t); simpl; try discriminate.
      destruct (dotted_path variable_type); simpl; try discriminate.
      destruct (CompilationError_init _ _); discriminate.
  - destruct (CompilationError_init _ _); discriminate.
Qed.

(** ** The argument count of a call *)

Lemma with_open_w_ext {A} (p : Path) (body body' : io A) :
  (forall w, body w = body' w) ->
  forall w, with_open_w p body w = with_open_w p body' w.
Proof. intros H w. unfold with_open_w. now rewrite H. Qed.

Lemma bind_io_ext {A B} (m m' : io A) (k k' : A -> io B) :
  (forall w, m w = m' w) -> (forall a w, k a w = k' a w) ->
  forall w, bind_io m k w = bind_io m' k' w.
Proof.
  intros Hm Hk w. unfold bind_io. rewrite Hm.
  destruct (m' w) as [[a | e | x |] w1]; auto.
Qed.

Lemma path_after_forget_argc (path : list str) (operation : Operation) :
  path_after path (forget_argc operation) = path_after path operation.
Proof. now destruct operation. Qed.

Lemma write_command_forget_argc (functions : list Function) (build_uuid : str)
    (internal_directory : Path) :
  forall (operation : Operation) (function_storage : str) (path : list str)
         (context : Context) (state : Stack * Scope) (w : World),
    write_command functions build_uuid internal_directory function_storage path
      (forget_argc operation) context state w
    = write_command functions build_uuid internal_directory function_storage path
        operation context state w.
Proof.
  fix IH 1. intros operation function_storage path context [stack scope] w.
  destruct operation; try reflexivity.
  (* DO_IF *)
  cbn [forget_argc write_command].
  apply bind_io_ext; [reflexivity|]. intros [object_type stack1] w1.
  apply bind_io_ext; [reflexivity|]. intros converted w2.
  destruct converted; [|reflexivity]. cbn [negb].
  apply bind_io_ext; [reflexivity|]. intros name w3.
  apply bind_io_ext; [|reflexivity].
  apply with_open_w_ext. intros w4.
  apply bind_io_ext; [reflexivity|]. intros helper_storage.
  apply bind_io_ext; [reflexivity|]. intros _.
  generalize (@nil CubentType, @nil (str * CubentType) :: scope).
  generalize path.
  induction block as [|[context' operation'] block IHblock]; intros path' state w5.
  - reflexivity.
  - cbn [map fst snd]. rewrite path_after_forget_argc.
    apply bind_io_ext; [intros w6; apply IH | intros state' w6; apply IHblock].
Qed.

Lemma write_loop_forget_argcs (functions : list Function) (build_uuid : str)
    (internal_directory : Path) (function_storage : str) (commands : list Command) :
  forall (path : list str) (state : Stack * Scope) (w : World),
    write_loop functions build_uuid internal_directory function_storage path
      (forget_argcs commands) state w
    = write_loop functions build_uuid internal_directory function_storage path
        commands state w.
Proof.
  induction commands as [|[context operation] commands IH];
    intros path state w.
  - reflexivity.
  - cbn [forget_argcs map fst snd write_loop]. rewrite path_after_forget_argc.
    apply bind_io_ext; [intros w1; apply write_command_forget_argc|].
    intros state' w1. apply IH.
Qed.

(** In particular two calls that differ in the count alone are the same
    to the emitter. *)
Corollary call_argc_irrelevant (functions : list Function) (build_uuid : str)
    (internal_directory : Path) (function_storage : str) (caller : list str)
    (context : Context) (path : list str)
    (argc argc' : nat) (state : Stack * Scope) (w : World) :
  write_command functions build_uuid internal_directory function_storage caller
    (CALL path argc) context state w
  = write_command functions build_uuid internal_directory function_storage caller
      (CALL path argc') context state w.
Proof. reflexivity. Qed.

(** The parameter loop succeeds on every stack that holds, from the top,
    a value convertible to each parameter: it pops them and leaves what
    is below.  On a stack that ends before the parameters do, [pop]
    raises [IndexError]. *)
Lemma call_parameters_succeeds (function_storage : str) (context : Context)
    (parameters : dict CubentType) :
  forall (popped rest : Stack) (w : World),
    Forall2 (fun argument_type parameter => convertible argument_type (snd parameter))
      popped parameters ->
    exists w',
      call_parameters function_storage context parameters (popped ++ rest) w
      = (Ok rest, w').
Proof.
  induction parameters as [|[name parameter_type] parameters IH];
    intros popped rest w Hall.
  - inversion Hall. subst. simpl. eexists. reflexivity.
  - inversion Hall as [|argument_type parameter popped' parameters' Hconv Hrest];
      subst.
    cbn [call_parameters app]. unfold bind_io at 1. cbn [lift pop].
    unfold bind_io at 1.
    specialize (Hconv function_storage w). cbn [snd] in Hconv.
    destruct (write_type_conversion argument_type parameter_type function_storage w)
      as [converted w1].
    cbn [fst] in Hconv. subst converted. cbn [negb].
    unfold bind_io at 1. cbn [write].
    apply IH. exact Hrest.
Qed.

Lemma call_parameters_underflow (function_storage : str) (context : Context)
    (parameters : dict CubentType) :
  forall (stack : Stack) (w : World),
    List.length stack < List.length parameters ->
    Forall2 (fun argument_type parameter => convertible argument_type (snd parameter))
      stack (firstn (List.length stack) parameters) ->
    fst (call_parameters function_storage context parameters stack w)
    = Raise IndexError.
Proof.
  induction parameters as [|[name parameter_type] parameters IH];
    intros stack w Hlen Hall.
  - simpl in Hlen. lia.
  - destruct stack as [|argument_type stack]; [reflexivity|].
    cbn [List.length firstn] in Hall, Hlen.
    inversion Hall as [|? ? ? ? Hconv Hrest]; subst.
    cbn [call_parameters]. unfold bind_io at 1. cbn [lift pop].
    unfold bind_io at 1.
    specialize (Hconv function_storage w). cbn [snd] in Hconv.
    destruct (write_type_conversion argument_type parameter_type function_storage w)
      as [converted w1].
    cbn [fst] in Hconv. subst converted. cbn [negb].
    unfold bind_io at 1. cbn [write].
    apply IH; [lia | exact Hrest].
Qed.

(** A [CALL] fails with one of two messages, neither about the number of
    arguments, or with an exception. *)
Lemma call_parameters_error (function_storage : str) (context : Context)
    (parameters : dict CubentType) :
  forall (stack : Stack) (w w' : World) (e : option Error),
    call_parameters function_storage context parameters stack w = (Fail e, w') ->
    exists ce, e = Some (ErrorAt ce)
               /\ starts_with (S_ "Expected argument '") (err_message ce) = true.
Proof.
  induction parameters as [|[name parameter_type] parameters IH];
    intros stack w w' e H.
  - discriminate.
  - simpl in H. unfold bind_io at 1 in H.
    destruct stack as [|argument_type stack]; [discriminate|]. simpl in H.
    unfold bind_io at 1 in H.
    destruct (write_type_conversion argument_type parameter_type function_storage w)
      as [[converted | e1 | x |] w1] eqn:Hconv.
    + destruct converted; simpl in H.
      * unfold bind_io at 1 in H. simpl in H. eapply IH. exact H.
      * unfold emit_error, bind_io, lift, error, bind, CompilationError_init,
          type_name in H.
        destruct (type_path parameter_type); cbn in H; try discriminate.
        destruct (type_path argument_type); cbn in H; try discriminate.
        destruct (ctx_position context); cbn in H; try discriminate.
        destruct (nth_error _ _); cbn in H; try discriminate.
        inversion H. eexists. split; reflexivity.
    + exfalso. revert Hconv.
      unfold write_type_conversion, bind_io, lift, ret, write, dotted_path.
      destruct (type_path argument_type); try discriminate.
      destruct (type_path parameter_type); try discriminate.
      repeat match goal with
             | |- context [if ?c then _ else _] => destruct c
             end; discriminate.
    + discriminate.
    + discriminate.
Qed.

Lemma call_error_messages (functions : list Function) (build_uuid : str)
    (internal_directory : Path)
    (function_storage : str) (caller : list str) (context : Context)
    (path : list str) (argc : nat)
    (state : Stack * Scope) (w w' : World) (e : option Error) :
  write_command functions build_uuid internal_directory function_storage caller
    (CALL path argc) context state w = (Fail e, w') ->
  exists ce,
    e = Some (ErrorAt ce)
    /\ (starts_with (S_ "Expected argument '") (err_message ce) = true
        \/ starts_with (S_ "Undefined function '") (err_message ce) = true).
Proof.
  destruct state as [stack scope]. simpl. unfold bind_io at 1. simpl.
  destruct (find_function functions path) as [target|].
  - unfold bind_io at 1.
    destruct (call_parameters _ _ _ _ _) as [[stack1 | e1 | x |] w1] eqn:Hcall;
      try discriminate.
    + destruct target; unfold bind_io, write, ret; discriminate.
    + intros H. inversion H; subst.
      apply call_parameters_error in Hcall as (ce & -> & Hmsg). eauto.
  - unfold emit_error, lift, error, bind, CompilationError_init.
    destruct (ctx_position context); cbn; try discriminate.
    destruct (nth_error _ _); cbn; try discriminate.
    intros H. inversion H. eexists. split; [reflexivity|]. right. reflexivity.
Qed.

(** C10 — the emitter does not read the argument count of a [CALL].  It
    writes the same text, ends with the same type stack and scope and
    fails the same way whatever the counts recorded in the commands and
    in the blocks nested in them.  A call of a function in the table
    pops one value per parameter, whatever the count: on every stack
    that holds, from the top, a value convertible to each parameter it
    succeeds, takes exactly these values, be they arguments of the call
    or values pushed before it, and leaves all that is below them, be it
    arguments beyond the parameters; a call that succeeds has done so;
    on a stack that ends before the parameters do it raises
    [IndexError]; and a call that returns [False] does so with the
    message of an argument's type or of an undefined function, never one
    about the number of arguments. *)
Theorem C10_argc_ignored (functions : list Function) (build_uuid : str)
    (internal_directory : Path) (function_storage : str) (caller : list str) :
  (forall (commands : list Command) (state : Stack * Scope) (w : World),
      write_loop functions build_uuid internal_directory function_storage caller
        (forget_argcs commands) state w
      = write_loop functions build_uuid internal_directory function_storage caller
          commands state w)
  /\ (forall context path argc target_function popped rest scope w,
        find_function functions path = Some target_function ->
        Forall2 (fun argument_type parameter =>
                   convertible argument_type (snd parameter))
          popped (fn_parameters target_function) ->
        exists w',
          write_command functions build_uuid internal_directory function_storage
            caller (CALL path argc) context (popped ++ rest, scope) w
          = (Ok (rest, scope), w'))
  /\ (forall context path argc stack scope w stack' scope' w',
        write_command functions build_uuid internal_directory function_storage
          caller (CALL path argc) context (stack, scope) w
        = (Ok (stack', scope'), w') ->
        exists target_function popped,
          find_function functions path = Some target_function
          /\ stack = popped ++ stack'
          /\ List.length popped = List.length (fn_parameters target_function))
  /\ (forall context path argc target_function stack scope w,
        find_function functions path = Some target_function ->
        List.length stack < List.length (fn_parameters target_function) ->
        Forall2 (fun argument_type parameter =>
                   convertible argument_type (snd parameter))
          stack (firstn (List.length stack) (fn_parameters target_function)) ->
        fst (write_command functions build_uuid internal_directory function_storage
               caller (CALL path argc) context (stack, scope) w)
        = Raise IndexError)
  /\ (forall context path argc state w e w',
        write_command functions build_uuid internal_directory function_storage
          caller (CALL path argc) context state w = (Fail e, w') ->
        exists ce,
          e = Some (ErrorAt ce)
          /\ (starts_with (S_ "Expected argument '") (err_message ce) = true
              \/ starts_with (S_ "Undefined function '") (err_message ce) = true)).
Proof.
  split; [|split; [|split; [|split]]].
  - intros commands. apply write_loop_forget_argcs.
  - intros context path argc target_function popped rest scope w Hfind Hall.
    cbn [write_command]. unfold bind_io at 1. cbn [write]. rewrite Hfind.
    unfold bind_io at 1.
    match goal with
    | |- context [call_parameters ?fs ?c ?ps (popped ++ rest) ?w0] =>
        destruct (call_parameters_succeeds fs c ps popped rest w0 Hall) as [w1 Hcall];
        rewrite Hcall
    end.
    destruct target_function; unfold bind_io, write, ret; eexists; reflexivity.
  - intros context path argc stack scope w stack' scope' w' H.
    simpl in H.
    apply bind_io_ok in H as ([] & w1 & _ & H).
    destruct (find_function functions path) as [target_function|] eqn:Hfind.
    + apply bind_io_ok in H as (stack1 & w2 & Hcall & H).
      apply call_parameters_pops in Hcall as (popped & -> & Hlen & _).
      apply bind_io_ok in H as ([] & w3 & _ & H).
      unfold ret in H. inversion H; subst. eauto.
    + unfold emit_error, lift, error, bind in H.
      destruct (CompilationError_init _ _); discriminate.
  - intros context path argc target_function stack scope w Hfind Hlen Hall.
    cbn [write_command]. unfold bind_io at 1. cbn [write]. rewrite Hfind.
    unfold bind_io at 1.
    match goal with
    | |- context [call_parameters ?fs ?c ?ps stack ?w0] =>
        pose proof (call_parameters_underflow fs c ps stack w0 Hlen Hall) as Hcall;
        destruct (call_parameters fs c ps stack w0) as [r w1]
    end.
    cbn [fst] in Hcall. subst r. reflexivity.
  - intros context path argc state w e w'. apply call_error_messages.
Qed.

(** ** The function table *)

Lemma bind_ok {A B} (m : outcome A) (k : A -> outcome B) (b : B) :
  bind m k = Ok b -> exists a, m = Ok a /\ k a = Ok b.
Proof. destruct m as [a| | |]; simpl; try discriminate. eauto. Qed.

Lemma error_not_ok {A} (context : Context) (message : str) (a : A) :
  error context message <> Ok a.
Proof.
  unfold error, bind. destruct (CompilationError_init context message); discriminate.
Qed.

Lemma appended_appended {S} (a b : list Function) (r : outcome (S * list Function)) :
  appended a (appended b r) = appended (a ++ b) r.
Proof. destruct r as [[s d]| | |]; simpl; try reflexivity. now rewrite app_assoc. Qed.

(** One step along the head of the left-hand side *)
Ltac parser_step :=
  lazymatch goal with
  | |- bind ?m _ = _ => destruct m as [? | ? | ? |]; cbn [bind appended]
  | |- (match ?p with pair _ _ => _ end) = _ => destruct p
  | |- (if ?c then _ else _) = _ => destruct c
  end; try reflexivity.

(** A declaration is appended to the functions, whatever they are. *)
Lemma compile_structure_appends (fuel : nat) (lexer : Lexer) (context : Context)
    (namespace : list str) (imports : Imports) (functions : list Function) :
  compile_structure fuel lexer context namespace imports functions
  = appended functions (compile_structure fuel lexer context namespace imports []).
Proof.
  unfold compile_structure, error. repeat parser_step.
Qed.

Lemma compile_structures_appends (fuel : nat) :
  forall (lexer : Lexer) (context : Context) (namespace : list str)
         (imports : Imports) (functions : list Function),
    compile_structures fuel lexer context namespace imports functions
    = appended functions (compile_structures fuel lexer context namespace imports []).
Proof.
  induction fuel as [|fuel IH]; intros lexer context namespace imports functions.
  - reflexivity.
  - cbn [compile_structures].
    destruct (lookahead_lexeme lexer) as [la | | |]; cbn [bind appended]; try reflexivity.
    destruct (negb (body_is (lx_body la) "}")); [|cbn [appended]; now rewrite app_nil_r].
    rewrite compile_structure_appends.
    destruct (compile_structure fuel lexer context namespace imports [])
      as [[lexer' declared]| | |]; cbn [bind appended]; try reflexivity.
    rewrite IH, (IH _ _ _ _ ([] ++ declared)), appended_appended.
    reflexivity.
Qed.

Lemma compile_block_appends (fuel : nat) (lexer : Lexer) (context : Context)
    (imports : Imports) (functions : list Function) :
  compile_block fuel lexer context imports functions
  = appended functions (compile_block fuel lexer context imports []).
Proof.
  unfold compile_block, error.
  repeat first
    [ rewrite (compile_structures_appends _ _ _ _ _ functions);
      match goal with
      | |- bind (appended _ ?m) _ = _ =>
          destruct m as [[? ?] | ? | ? |]; cbn [bind appended]; try reflexivity
      end
    | parser_step ];
    cbn [appended]; rewrite ?app_nil_r; reflexivity.
Qed.

Lemma compile_blocks_appends (fuel : nat) :
  forall (lexer : Lexer) (context : Context) (imports : Imports)
         (functions : list Function),
    compile_blocks fuel lexer context imports functions
    = appended functions (compile_blocks fuel lexer context imports []).
Proof.
  induction fuel as [|fuel IH]; intros lexer context imports functions.
  - reflexivity.
  - cbn [compile_blocks].
    destruct (lookahead_lexeme lexer) as [la | | |]; cbn [bind appended]; try reflexivity.
    destruct (negb (type_is la EOF)); [|cbn [appended]; now rewrite app_nil_r].
    rewrite compile_block_appends.
    destruct (compile_block fuel lexer context imports [])
      as [[lexer' declared]| | |]; cbn [bind appended]; try reflexivity.
    rewrite IH, (IH _ _ _ ([] ++ declared)), appended_appended.
    reflexivity.
Qed.

Lemma compile_file_appends (fuel : nat) (filename : Path) (source : str)
    (functions : list Function) :
  compile_file_fuel fuel filename source functions =
    match compile_file_fuel fuel filename source [] with
    | Ok declared => Ok (functions ++ declared)
    | Fail e => Fail e
    | Raise x => Raise x
    | OutOfFuel => OutOfFuel
    end.
Proof.
  unfold compile_file_fuel.
  destruct (parse_imports _ _ _ _) as [[lexer imports]| | |]; cbn [bind]; try reflexivity.
  rewrite compile_blocks_appends.
  destruct (compile_blocks fuel lexer _ imports []) as [[lexer' declared]| | |];
    reflexivity.
Qed.

(** A declaration that is parsed adds one function, of the name it
    declares in the namespace around it, after the functions that are
    there. *)
Lemma compile_structure_declares_one (fuel : nat) (lexer lexer' : Lexer)
    (context : Context) (namespace : list str) (imports : Imports)
    (functions functions' : list Function) :
  compile_structure fuel lexer context namespace imports functions
  = Ok (lexer', functions') ->
  exists f name,
    declared_name lexer = Ok name
    /\ fn_path f = namespace ++ [name]
    /\ functions' = functions ++ [f].
Proof.
  intros H. unfold compile_structure in H. unfold declared_name.
  apply bind_ok in H as ([keyword lexer1] & Hkeyword & H).
  rewrite Hkeyword. cbn [bind].
  destruct (body_is (lx_body keyword) "function").
  - apply bind_ok in H as ([name lexer2] & Hname & H).
    rewrite Hname. cbn [bind].
    destruct (negb (type_is name IDENTIFIER)); [discriminate H|].
    cbv zeta in H.
    apply bind_ok in H as ([paren lexer3] & _ & H).
    destruct (negb (body_is (lx_body paren) "(")); [discriminate H|].
    apply bind_ok in H as ([lexer4 parameters] & _ & H).
    apply bind_ok in H as ([lexer5 return_type] & _ & H).
    apply bind_ok in H as ([opening lexer6] & _ & H).
    destruct (negb (body_is (lx_body opening) "{"));
      [exfalso; exact (error_not_ok _ _ _ H)|].
    apply bind_ok in H as ([lexer7 commands] & _ & H).
    apply bind_ok in H as ([closing lexer8] & _ & H).
    destruct (negb (body_is (lx_body closing) "}"));
      [exfalso; exact (error_not_ok _ _ _ H)|].
    apply bind_ok in H as (type & _ & H).
    injection H as _ <-. eexists. eexists.
    split; [reflexivity|]. split; [|reflexivity]. reflexivity.
  - destruct (body_is (lx_body keyword) "mcfunction");
      [|exfalso; exact (error_not_ok _ _ _ H)].
    apply bind_ok in H as ([location lexer2] & Hlocation & H).
    rewrite Hlocation. cbn [bind].
    destruct (negb (type_is location STRING));
      [exfalso; exact (error_not_ok _ _ _ H)|].
    cbv zeta in H.
    apply bind_ok in H as ([mcfunction_namespace mcfunction_path] & _ & H).
    apply bind_ok in H as ([name lexer3] & Hname & H).
    rewrite Hname. cbn [bind].
    destruct (negb (type_is name IDENTIFIER));
      [exfalso; exact (error_not_ok _ _ _ H)|].
    cbv zeta in H.
    apply bind_ok in H as ([paren lexer4] & _ & H).
    destruct (negb (body_is (lx_body paren) "("));
      [exfalso; exact (error_not_ok _ _ _ H)|].
    apply bind_ok in H as ([lexer5 parameters] & _ & H).
    apply bind_ok in H as ([lexer6 return_type] & _ & H).
    apply bind_ok in H as ([semicolon lexer7] & _ & H).
    destruct (negb (body_is (lx_body semicolon) ";"));
      [exfalso; exact (error_not_ok _ _ _ H)|].
    apply bind_ok in H as (type & _ & H).
    injection H as _ <-. eexists. eexists.
    split; [reflexivity|]. split; [|reflexivity]. reflexivity.
Qed.

(** C8 (as amended) — the parser does not look at the functions declared
    so far.  Every declaration that [compile_structure] parses with
    success adds exactly one descriptor, with the name it declares
    appended to the namespace as its qualified path, at the end of
    [self.functions], whatever functions are there, one of the same
    path among them: the functions before it stay, in their order.  And
    parsing a file fails or succeeds as it does on an empty list, and
    appends the same descriptors. *)
Theorem C8_declarations_appended (fuel : nat) :
  (forall lexer context namespace imports functions lexer' functions',
      compile_structure fuel lexer context namespace imports functions
      = Ok (lexer', functions') ->
      exists f name,
        declared_name lexer = Ok name
        /\ fn_path f = namespace ++ [name]
        /\ functions' = functions ++ [f])
  /\ (forall filename source functions,
        compile_file_fuel fuel filename source functions =
          match compile_file_fuel fuel filename source [] with
          | Ok declared => Ok (functions ++ declared)
          | Fail e => Fail e
          | Raise x => Raise x
          | OutOfFuel => OutOfFuel
          end).
Proof.
  split.
  - intros lexer context namespace imports functions lexer' functions'.
    apply compile_structure_declares_one.
  - apply compile_file_appends.
Qed.

(** A user function and an external function of one qualified path:
    the parser accepts both and a call resolves to the first. *)
Example twice_declared_parses (file : Path) :
  compile_file file twice_declared [] =
    Ok [CubentFunction [S_ "n"; S_ "g"] [] Void [];
        MCFunction [S_ "n"; S_ "g"] [] Void (S_ "minecraft:reload")].
Proof. vm_compute. reflexivity. Qed.

Lemma find_function_first (functions : list Function) (path : list str)
    (f : Function) :
  find_function functions path = Some f ->
  exists before after,
    functions = before ++ f :: after
    /\ path_eqb (fn_path f) path = true
    /\ forall g, In g before -> path_eqb (fn_path g) path = false.
Proof.
  unfold find_function. induction functions as [|g functions IH]; simpl; [discriminate|].
  destruct (path_eqb (fn_path g) path) eqn:Hg.
  - intros H. inversion H; subst. exists [], functions. repeat split; auto.
    intros ? [].
  - intros H. apply IH in H as (before & after & -> & Hf & Hbefore).
    exists (g :: before), after. repeat split; auto.
    intros h [<- | Hin]; auto.
Qed.

(** ** The depth of the parser's commands *)



Section BodyFacts.

Variable context : Context.
Variable imports : Imports.
Variable parameters : dict CubentType.

Lemma compile_function_call_S (fuel : nat) (lexer : Lexer) (commands : list Command) :
  compile_function_call context imports parameters (S fuel) lexer commands =
    let* (lexeme, lexer) := next_lexeme lexer in
    match (match lx_body lexeme with
           | Some name => dict_get imports name
           | None => None
           end) with
    | Some path =>
        let position := lx_position lexeme in
        let* (lexeme, lexer) := next_lexeme lexer in
        if negb (body_is (lx_body lexeme) "(") then
          error (at_position context (lx_position lexeme))
            (S_ "Expected '(' when calling function, got " ++ Lexeme_str lexeme)
        else
          let* (lexer, commands, argc) :=
            call_arguments context imports parameters fuel lexer commands 0 in
          let* (lexeme, lexer) := next_lexeme lexer in
          if negb (body_is (lx_body lexeme) ")") then
            error (at_position context (lx_position lexeme))
              (S_ "Expected ')', got " ++ Lexeme_str lexeme)
          else Ok (lexer, commands ++ [(at_position context position, CALL path argc)])
    | None =>
        error (at_position context (lx_position lexeme))
          (S_ "Expected function name, got " ++ Lexeme_str lexeme)
    end.
Proof. reflexivity. Qed.

Lemma call_arguments_S (fuel : nat) (lexer : Lexer) (commands : list Command)
    (argc : nat) :
  call_arguments context imports parameters (S fuel) lexer commands argc =
    let* la := lookahead_lexeme lexer in
    if negb (body_is (lx_body la) ")") then
      let* (lexer, commands) :=
        compile_expression context imports parameters fuel lexer commands in
      let argc := argc + 1 in
      let* la := lookahead_lexeme lexer in
      if body_is (lx_body la) "," then
        let* (_, lexer) := next_lexeme lexer in
        call_arguments context imports parameters fuel lexer commands argc
      else Ok (lexer, commands, argc)
    else Ok (lexer, commands, argc).
Proof. reflexivity. Qed.

Lemma compile_expression_S (fuel : nat) (lexer : Lexer) (commands : list Command) :
  compile_expression context imports parameters (S fuel) lexer commands =
    let* (lexer, commands) :=
      compile_primary context imports parameters fuel lexer commands in
    compile_operation context imports parameters fuel lexer commands 0.
Proof. reflexivity. Qed.

Lemma compile_operation_S (fuel : nat) (lexer : Lexer) (commands : list Command)
    (precedence : nat) :
  compile_operation context imports parameters (S fuel) lexer commands precedence =
    let* lexeme := lookahead_lexeme lexer in
    if match lx_body lexeme with
       | Some b => str_in b (operators_from precedence)
       | None => false
       end
    then
      let* (operator, lexer) := next_lexeme lexer in
      let* (lexer, commands) :=
        compile_primary context imports parameters fuel lexer commands in
      match dict_get operations (body_str operator) with
      | None => Raise KeyError
      | Some op =>
          let commands :=
            commands ++ [(at_position context (lx_position operator), op)] in
          let* (lexer, commands) :=
            compile_operation context imports parameters fuel lexer commands
              (precedence + match operators_from (precedence + 1) with
                            | [] => 0
                            | _ => 1
                            end) in
          compile_operation context imports parameters fuel lexer commands precedence
      end
    else Ok (lexer, commands).
Proof. reflexivity. Qed.

Lemma compile_primary_S (fuel : nat) (lexer : Lexer) (commands : list Command) :
  compile_primary context imports parameters (S fuel) lexer commands =
    let* lexeme := lookahead_lexeme lexer in
    if type_is lexeme IDENTIFIER && lexeme_in_imports imports lexeme then
      compile_function_call context imports parameters fuel lexer commands
    else
      let* command := primary_command context parameters lexeme in
      let* (_, lexer) := next_lexeme lexer in
      Ok (lexer, commands ++ [command]).
Proof. reflexivity. Qed.


End BodyFacts.

Section StatementFacts.

Variable context : Context.
Variable imports : Imports.
Variable parameters : dict CubentType.

Lemma compile_statement_S (fuel : nat) (lexer : Lexer) (commands : list Command) :
  compile_statement context imports parameters (S fuel) lexer commands =
    let* lexeme := lookahead_lexeme lexer in
    if type_is lexeme IDENTIFIER && lexeme_in_imports imports lexeme then
      let* (lexer, commands) :=
        compile_function_call context imports parameters fuel lexer commands in
      let* (lexeme, lexer) := next_lexeme lexer in
      if negb (body_is (lx_body lexeme) ";") then
        error (at_position context (lx_position lexeme))
          (S_ "Expected end of statement, got " ++ Lexeme_str lexeme)
      else Ok (lexer, commands)
    else if type_is lexeme IDENTIFIER then
      let* (_, lexer) := next_lexeme lexer in
      let* (lexer, path) := assign_path_loop fuel lexer context [lexeme] in
      let* (lexeme, lexer) := next_lexeme lexer in
      if negb (body_is (lx_body lexeme) "=") then
        error (at_position context (lx_position lexeme))
          (S_ "Expected '=', got " ++ Lexeme_str lexeme)
      else
        let* (lexer, commands) :=
          compile_expression context imports parameters fuel lexer commands in
        let* (lexeme, lexer) := next_lexeme lexer in
        if negb (body_is (lx_body lexeme) ";") then
          error (at_position context (lx_position lexeme))
            (S_ "Expected end of statement, got " ++ Lexeme_str lexeme)
        else Ok (lexer, commands ++ assign_commands context path)
    else if body_is (lx_body lexeme) "var" then
      let* (_, lexer) := next_lexeme lexer in
      let* (name, lexer) := next_lexeme lexer in
      if negb (type_is name IDENTIFIER) then
        error (at_position context (lx_position lexeme))
          (S_ "Expected identifier, got " ++ Lexeme_str lexeme)
      else
        let* (lexeme, lexer) := next_lexeme lexer in
        if negb (body_is (lx_body lexeme) "=") then
          error (at_position context (lx_position lexeme))
            (S_ "Expected '=', got " ++ Lexeme_str lexeme)
        else
          let* (lexer, commands) :=
            compile_expression context imports parameters fuel lexer commands in
          let* (lexeme, lexer) := next_lexeme lexer in
          if negb (body_is (lx_body lexeme) ";") then
            error (at_position context (lx_position lexeme))
              (S_ "Expected end of statement, got " ++ Lexeme_str lexeme)
          else
            Ok (lexer, commands ++ [(at_position context (lx_position name),
                                     DECLARE_VAR (body_str name))])
    else if body_is (lx_body lexeme) "if" then
      let* (keyword, lexer) := next_lexeme lexer in
      let* (lexeme, lexer) := next_lexeme lexer in
      if negb (body_is (lx_body lexeme) "(") then
        error (at_position context (lx_position lexeme))
          (S_ "Expected '(', got " ++ Lexeme_str lexeme)
      else
        let* (lexer, commands) :=
          compile_expression context imports parameters fuel lexer commands in
        let* (lexeme, lexer) := next_lexeme lexer in
        if negb (body_is (lx_body lexeme) ")") then
          error (at_position context (lx_position lexeme))
            (S_ "Expected ')', got " ++ Lexeme_str lexeme)
        else
          let* (lexeme, lexer) := next_lexeme lexer in
          if negb (body_is (lx_body lexeme) "{") then
            error (at_position context (lx_position lexeme))
              (S_ "Expected '{', got " ++ Lexeme_str lexeme)
          else
            let* (lexer, block_commands) :=
              compile_statements context imports parameters fuel lexer [] in
            let* (lexeme, lexer) := next_lexeme lexer in
            if negb (body_is (lx_body lexeme) "}") then
              error (at_position context (lx_position lexeme))
                (S_ "Expected '}', got " ++ Lexeme_str lexeme)
            else
              Ok (lexer, commands ++ [(at_position context (lx_position keyword),
                                       DO_IF block_commands)])
    else unexpected context lexeme.
Proof. reflexivity. Qed.

Lemma compile_statements_S (fuel : nat) (lexer : Lexer) (commands : list Command) :
  compile_statements context imports parameters (S fuel) lexer commands =
    let* la := lookahead_lexeme lexer in
    if negb (body_is (lx_body la) "}") then
      let* (lexer, commands) :=
        compile_statement context imports parameters fuel lexer commands in
      compile_statements context imports parameters fuel lexer commands
    else Ok (lexer, commands).
Proof. reflexivity. Qed.

Lemma assign_path_loop_extends (fuel : nat) :
  forall (lexer lexer' : Lexer) (path path' : list Lexeme),
    assign_path_loop fuel lexer context path = Ok (lexer', path') ->
    exists more, path' = path ++ more.
Proof.
  induction fuel as [|fuel IH]; intros lexer lexer' path path' H; [discriminate|].
  cbn [assign_path_loop] in H.
  apply bind_ok in H as (la & _ & H).
  destruct (body_is _ _).
  - apply bind_ok in H as ([dot lexer1] & _ & H).
    apply bind_ok in H as ([lexeme lexer2] & _ & H).
    destruct (negb _); [exfalso; exact (error_not_ok _ _ _ H)|].
    apply IH in H as (more & ->).
    eexists. symmetry. apply app_assoc.
  - inversion H; subst. exists []. now rewrite app_nil_r.
Qed.

End StatementFacts.

Lemma appended_ok {S} (functions functions' : list Function) (s : S)
    (r : outcome (S * list Function)) :
  appended functions r = Ok (s, functions') ->
  exists declared, r = Ok (s, declared) /\ functions' = functions ++ declared.
Proof.
  destruct r as [[s' declared]| | |]; simpl; try discriminate.
  intros H. inversion H; subst. eauto.
Qed.


(** ** More about the lexer *)

Lemma read_number_split (self : Lexer) :
  read_number self =
    let '(self', body) := accumulate_number self in
    classify_number (position self) self' body.
Proof.
  unfold read_number, accumulate_number, classify_number.
  destruct (digits_loop (remaining self) self []) as [self1 body1].
  destruct (if Ascii.eqb (peekch self1) "."
            then digits_loop (remaining (consume self1)) (consume self1)
                   (body1 ++ [peekch self1])
            else (self1, body1)) as [self2 body2].
  reflexivity.
Qed.

(** With more fuel than characters left, the fuel does not matter. *)
Lemma next_fuel_any (fuel : nat) :
  forall (fuel' : nat) (self : Lexer),
    remaining self < fuel -> remaining self < fuel' ->
    next_fuel fuel self = next_fuel fuel' self.
Proof.
  induction fuel as [|fuel IH]; intros fuel' self Hfuel Hfuel'; [lia|].
  destruct fuel' as [|fuel']; [lia|].
  cbn [next_fuel].
  assert (Hskip : remaining (skip_space self) <= remaining self)
    by apply skip_space_loop_remaining.
  set (self1 := skip_space self) in *.
  destruct (Ascii.eqb (peekch self1) NUL) eqn:Hnul; [reflexivity|].
  assert (Hpos : 1 <= remaining self1).
  { apply Ascii.eqb_neq, peekch_not_nul in Hnul. unfold remaining. lia. }
  pose proof (remaining_consume self1).
  pose proof (remaining_consume (consume self1)).
  destruct (Ascii.eqb (peekch self1) "/"); [|reflexivity].
  destruct (Ascii.eqb (peekch (consume self1)) "/").
  - pose proof (line_comment_loop_remaining
                  (remaining (consume (consume self1))) (consume (consume self1))).
    apply IH; lia.
  - destruct (Ascii.eqb (peekch (consume self1)) "*"); [|reflexivity].
    pose proof (block_comment_loop_remaining
                  (remaining (consume (consume self1))) (consume (consume self1))).
    apply IH; lia.
Qed.

Lemma next_fuel_enough (fuel : nat) (self : Lexer) :
  remaining self < fuel -> next_fuel fuel self = next self.
Proof. intros H. apply next_fuel_any; [exact H | lia]. Qed.

(** *** Moving the lexer along a line *)

Lemma advanced_0 (self : Lexer) : advanced self 0 = self.
Proof. destruct self. unfold advanced. simpl. now rewrite !Nat.add_0_r. Qed.

Lemma advanced_advanced (self : Lexer) (a b : nat) :
  advanced (advanced self a) b = advanced self (a + b).
Proof. unfold advanced. simpl. f_equal; lia. Qed.

Lemma rest_of_advanced (self : Lexer) (n : nat) :
  rest_of (advanced self n) = skipn n (rest_of self).
Proof. unfold rest_of, advanced. simpl. now rewrite skipn_skipn, Nat.add_comm. Qed.

Lemma rest_of_advanced_app (self : Lexer) (a b : str) :
  rest_of self = a ++ b -> rest_of (advanced self (List.length a)) = b.
Proof. intros H. rewrite rest_of_advanced, H. apply skipn_length_app. Qed.

Lemma consume_plain (self : Lexer) :
  peekch self <> LF -> consume self = advanced self 1.
Proof.
  intros H. unfold consume, advanced.
  apply Ascii.eqb_neq in H. now rewrite H.
Qed.

Lemma position_advanced_0 (self : Lexer) : position (advanced self 0) = position self.
Proof. now rewrite advanced_0. Qed.

(** *** The digits of a number *)

Lemma accumulate_digits (self : Lexer) (ds tail : str) :
  rest_of self = ds ++ tail ->
  forallb isdigit ds = true ->
  isdigit (hd NUL tail) = false ->
  hd NUL tail <> "." ->
  accumulate_number self = (advanced self (List.length ds), ds).
Proof.
  intros Hrest Hds Hstop Hdot. unfold accumulate_number.
  rewrite (digits_loop_run ds (remaining self) self [] tail Hrest Hds Hstop)
    by (rewrite remaining_rest, Hrest, length_app; lia).
  fold (advanced self (List.length ds)).
  pose proof (rest_of_advanced_app self ds tail Hrest) as Hrest1.
  assert (Hp : peekch (advanced self (List.length ds)) = hd NUL tail).
  { unfold peekch. rewrite nth_skipn_hd. fold (rest_of (advanced self (List.length ds))).
    now rewrite Hrest1. }
  rewrite Hp. apply Ascii.eqb_neq in Hdot. now rewrite Hdot.
Qed.

Lemma accumulate_fraction (self : Lexer) (ds fs tail : str) :
  rest_of self = ds ++ "." :: fs ++ tail ->
  forallb isdigit ds = true ->
  forallb isdigit fs = true ->
  isdigit (hd NUL tail) = false ->
  accumulate_number self =
    (advanced self (List.length (ds ++ "." :: fs)), ds ++ "." :: fs).
Proof.
  intros Hrest Hds Hfs Hstop. unfold accumulate_number.
  rewrite (digits_loop_run ds (remaining self) self [] _ Hrest Hds eq_refl)
    by (rewrite remaining_rest, Hrest, length_app; lia).
  fold (advanced self (List.length ds)).
  pose proof (rest_of_advanced_app self ds _ Hrest) as Hrest1.
  rewrite !(peekch_rest _ _ _ Hrest1). simpl Ascii.eqb. cbv iota.
  rewrite consume_plain by (rewrite (peekch_rest _ _ _ Hrest1); discriminate).
  apply rest_of_consume in Hrest1.
  rewrite consume_plain in Hrest1
    by (unfold peekch; rewrite nth_skipn_hd;
        fold (rest_of (advanced self (List.length ds)));
        rewrite rest_of_advanced, Hrest, skipn_length_app; discriminate).
  rewrite (digits_loop_run fs _ _ _ tail Hrest1 Hfs Hstop)
    by (rewrite remaining_rest, Hrest1, length_app; lia).
  fold (advanced (advanced (advanced self (List.length ds)) 1) (List.length fs)).
  rewrite !advanced_advanced. simpl app. rewrite <- app_assoc. simpl app.
  rewrite length_app. reflexivity.
Qed.

Lemma peekch_advanced_app (self : Lexer) (a b : str) :
  rest_of self = a ++ b -> peekch (advanced self (List.length a)) = hd NUL b.
Proof.
  intros H. unfold peekch. rewrite nth_skipn_hd.
  fold (rest_of (advanced self (List.length a))).
  now rewrite (rest_of_advanced_app self a b H).
Qed.

Lemma next_number (self : Lexer) :
  isdigit (peekch self) = true \/ peekch self = "." ->
  next self =
    let '(self', body) := accumulate_number self in
    let* (l, self'') := classify_number (position self) self' body in
    Ok (Some l, self'').
Proof.
  intros H. rewrite (next_reads_number self H), read_number_split.
  now destruct (accumulate_number self).
Qed.

Lemma peekch_digits (self : Lexer) (ds tail : str) :
  rest_of self = ds ++ tail -> ds <> [] -> forallb isdigit ds = true ->
  isdigit (peekch self) = true.
Proof.
  intros Hrest Hne Hds. destruct ds as [|d ds]; [contradiction|].
  simpl in Hrest, Hds. apply andb_true_iff in Hds as [Hd _].
  now rewrite (peekch_rest _ _ _ Hrest).
Qed.

Lemma gtb_above (v limit top : Z) :
  ((v + limit >? top) = negb (v <=? top - limit))%Z.
Proof.
  rewrite Z.gtb_ltb.
  destruct (Z.ltb_spec top (v + limit)), (Z.leb_spec v (top - limit));
    simpl; try reflexivity; lia.
Qed.

(** X7 — Digits before the suffix [s] or [S] are read by [int]: decimal
    digits, at most 4300 of them, are a [SHORT] lexeme, with a lower-case
    suffix in its body, when their value is at most 32767, and above it
    the digits alone are a lexeme without a type and the suffix is left
    in the text; on more than 4300 digits, or on a superscript digit
    among them, [next] raises [ValueError]. *)
Theorem short_literal (self : Lexer) (ds : str) (c : ascii) (tail : str) :
  rest_of self = ds ++ c :: tail ->
  ds <> [] ->
  forallb isdigit ds = true ->
  c = "s" \/ c = "S" ->
  next self =
    if forallb isdecimal ds && (List.length ds <=? MAX_STR_DIGITS) then
      if (int_digits ds <=? 32767)%Z
      then Ok (Some (mkLexeme (Some SHORT) (position self) (Some (ds ++ ["s"]))),
               advanced self (List.length ds + 1))
      else Ok (Some (mkLexeme None (position self) (Some ds)),
               advanced self (List.length ds))
    else Raise ValueError.
Proof.
  intros Hrest Hne Hds Hc.
  rewrite next_number by (left; exact (peekch_digits _ _ _ Hrest Hne Hds)).
  rewrite (accumulate_digits self ds (c :: tail) Hrest Hds)
    by (destruct Hc as [-> | ->]; simpl; solve [reflexivity | discriminate]).
  unfold classify_number.
  rewrite !(peekch_advanced_app self ds (c :: tail) Hrest). simpl hd.
  replace (lower c) with "s"%char by (now destruct Hc as [-> | ->]).
  simpl Ascii.eqb. cbv iota.
  rewrite (digits_no_char "." ds eq_refl Hds), (int_spec ds Hne).
  destruct (forallb isdecimal ds && (List.length ds <=? MAX_STR_DIGITS));
    [|reflexivity].
  rewrite gtb_above. simpl Z.sub.
  destruct (int_digits ds <=? 32767)%Z; simpl negb; cbv iota; cbn [bind].
  - rewrite consume_plain
      by (rewrite (peekch_advanced_app self ds (c :: tail) Hrest);
          destruct Hc as [-> | ->]; discriminate).
    now rewrite advanced_advanced.
  - reflexivity.
Qed.

(** X8 — Digits before the suffix [l] or [L] are read by [int]: decimal
    digits, at most 4300 of them, are a [LONG] lexeme when their value is
    at most 9223372036854775807, and a lexeme without a type above it; on
    more than 4300 digits, or on a superscript digit among them, [next]
    raises [ValueError]. *)
Theorem long_literal (self : Lexer) (ds : str) (c : ascii) (tail : str) :
  rest_of self = ds ++ c :: tail ->
  ds <> [] ->
  forallb isdigit ds = true ->
  c = "l" \/ c = "L" ->
  next self =
    if forallb isdecimal ds && (List.length ds <=? MAX_STR_DIGITS) then
      if (int_digits ds <=? 9223372036854775807)%Z
      then Ok (Some (mkLexeme (Some LONG) (position self) (Some (ds ++ ["l"]))),
               advanced self (List.length ds + 1))
      else Ok (Some (mkLexeme None (position self) (Some ds)),
               advanced self (List.length ds))
    else Raise ValueError.
Proof.
  intros Hrest Hne Hds Hc.
  rewrite next_number by (left; exact (peekch_digits _ _ _ Hrest Hne Hds)).
  rewrite (accumulate_digits self ds (c :: tail) Hrest Hds)
    by (destruct Hc as [-> | ->]; simpl; solve [reflexivity | discriminate]).
  unfold classify_number.
  rewrite !(peekch_advanced_app self ds (c :: tail) Hrest). simpl hd.
  replace (lower c) with "l"%char by (now destruct Hc as [-> | ->]).
  simpl Ascii.eqb. cbv iota.
  rewrite (digits_no_char "." ds eq_refl Hds), (int_spec ds Hne).
  destruct (forallb isdecimal ds && (List.length ds <=? MAX_STR_DIGITS));
    [|reflexivity].
  rewrite gtb_above. simpl Z.sub.
  destruct (int_digits ds <=? 9223372036854775807)%Z; simpl negb; cbv iota; cbn [bind].
  - rewrite consume_plain
      by (rewrite (peekch_advanced_app self ds (c :: tail) Hrest);
          destruct Hc as [-> | ->]; discriminate).
    now rewrite advanced_advanced.
  - reflexivity.
Qed.

Lemma not_suffix (c : ascii) :
  ch_in (lower c) (S_ "bslfd") = false ->
  Ascii.eqb (lower c) "b" = false /\ Ascii.eqb (lower c) "s" = false
  /\ Ascii.eqb (lower c) "l" = false /\ Ascii.eqb (lower c) "f" = false
  /\ Ascii.eqb (lower c) "d" = false.
Proof.
  unfold ch_in. simpl existsb. intros H.
  repeat (apply orb_false_iff in H as [? H]). auto.
Qed.

(** X9 — Digits with no further digit, no dot and no suffix after them
    are read by [int]: decimal digits, at most 4300 of them, are an [INT]
    lexeme when their value is at most 2147483647, and a larger value is
    a lexeme without a type, whatever follows; on more than 4300 digits,
    or on a superscript digit among them, [next] raises [ValueError]. *)
Theorem int_literal (self : Lexer) (ds tail : str) :
  rest_of self = ds ++ tail ->
  ds <> [] ->
  forallb isdigit ds = true ->
  isdigit (hd NUL tail) = false ->
  hd NUL tail <> "." ->
  ch_in (lower (hd NUL tail)) (S_ "bslfd") = false ->
  next self =
    if forallb isdecimal ds && (List.length ds <=? MAX_STR_DIGITS) then
      Ok (Some (mkLexeme (if (int_digits ds <=? 2147483647)%Z then Some INT else None)
                  (position self) (Some ds)),
          advanced self (List.length ds))
    else Raise ValueError.
Proof.
  intros Hrest Hne Hds Hstop Hdot Hsuffix.
  rewrite next_number by (left; exact (peekch_digits _ _ _ Hrest Hne Hds)).
  rewrite (accumulate_digits self ds tail Hrest Hds Hstop Hdot).
  unfold classify_number.
  rewrite !(peekch_advanced_app self ds tail Hrest).
  destruct (not_suffix _ Hsuffix) as (Hb & Hs & Hl & Hf & Hd).
  rewrite Hb, Hs, Hl, Hf, Hd.
  rewrite (digits_no_char "." ds eq_refl Hds), (int_spec ds Hne).
  destruct (forallb isdecimal ds && (List.length ds <=? MAX_STR_DIGITS));
    [|reflexivity].
  replace (int_digits ds + 2147483648 <=? 4294967295)%Z
    with (int_digits ds <=? 2147483647)%Z
    by (destruct (Z.leb_spec (int_digits ds) 2147483647),
          (Z.leb_spec (int_digits ds + 2147483648) 4294967295); try reflexivity; lia).
  now destruct (int_digits ds <=? 2147483647)%Z.
Qed.

(** X10 — Characters of the digit class, a dot and more of them, with no
    further one and no suffix after them, are a [DOUBLE] lexeme: [int] is
    not called.  Either run may be empty, so a dot alone is one too, and
    either may hold superscript digits. *)
Theorem double_literal (self : Lexer) (ds fs tail : str) :
  rest_of self = ds ++ "." :: fs ++ tail ->
  forallb isdigit ds = true ->
  forallb isdigit fs = true ->
  isdigit (hd NUL tail) = false ->
  ch_in (lower (hd NUL tail)) (S_ "bslfd") = false ->
  next self =
    Ok (Some (mkLexeme (Some DOUBLE) (position self) (Some (ds ++ "." :: fs))),
        advanced self (List.length (ds ++ "." :: fs))).
Proof.
  intros Hrest Hds Hfs Hstop Hsuffix.
  assert (Hfirst : isdigit (peekch self) = true \/ peekch self = ".").
  { destruct ds as [|d ds'].
    - right. exact (peekch_rest _ _ _ Hrest).
    - left. simpl in Hds. apply andb_true_iff in Hds as [Hd _].
      now rewrite (peekch_rest _ _ _ Hrest). }
  rewrite (next_number self Hfirst).
  rewrite (accumulate_fraction self ds fs tail Hrest Hds Hfs Hstop).
  unfold classify_number.
  assert (Hrest' : rest_of self = (ds ++ "." :: fs) ++ tail)
    by (now rewrite <- app_assoc).
  rewrite !(peekch_advanced_app self _ tail Hrest').
  destruct (not_suffix _ Hsuffix) as (Hb & Hs & Hl & Hf & Hd).
  rewrite Hb, Hs, Hl, Hf, Hd.
  assert (Hin : ch_in "." (ds ++ "." :: fs) = true).
  { unfold ch_in. rewrite existsb_app. simpl. now rewrite orb_true_r. }
  now rewrite Hin.
Qed.

(** *** Words *)

Lemma isalpha_neq (c d : ascii) :
  isalpha c = true -> isalpha d = false -> Ascii.eqb c d = false.
Proof.
  intros Hc Hd. destruct (Ascii.eqb_spec c d) as [->|]; [congruence | reflexivity].
Qed.

Lemma isalpha_not_digit (c : ascii) : isalpha c = true -> isdigit c = false.
Proof. each_char c. Qed.

Lemma isalpha_not_space (c : ascii) : isalpha c = true -> isspace c = false.
Proof. each_char c. Qed.

Lemma isalnum_not_linebreak (c : ascii) : isalnum c = true -> c <> LF.
Proof. intros H ->. discriminate. Qed.

(** The identifier loop takes a run of letters and digits. *)
Lemma alnum_loop_run (w : str) :
  forall (n : nat) (self : Lexer) (body tail : str),
    rest_of self = w ++ tail ->
    forallb isalnum w = true ->
    isalnum (hd NUL tail) = false ->
    List.length w <= n ->
    alnum_loop n self body = (advanced self (List.length w), body ++ w).
Proof.
  induction w as [|x w IH]; intros n self body tail Hrest Hw Hstop Hn.
  - simpl in *. rewrite advanced_0, app_nil_r.
    assert (Hp : peekch self = hd NUL tail).
    { unfold peekch, rest_of in *. now rewrite nth_skipn_hd, Hrest. }
    destruct n; simpl; [reflexivity|]. now rewrite Hp, Hstop.
  - simpl in Hw. apply andb_true_iff in Hw as [Hx Hw].
    destruct n as [|n]; [simpl in Hn; lia|].
    simpl in Hrest. simpl alnum_loop.
    rewrite (peekch_rest _ _ _ Hrest), Hx.
    pose proof (rest_of_consume _ _ _ Hrest) as Hrest'.
    rewrite (IH n (consume self) (body ++ [x]) tail Hrest' Hw Hstop)
      by (simpl in Hn; lia).
    rewrite consume_plain
      by (rewrite (peekch_rest _ _ _ Hrest); now apply isalnum_not_linebreak).
    rewrite advanced_advanced, <- app_assoc. reflexivity.
Qed.

(** X5 — A letter followed by alphanumeric characters, up to a character
    that is not one, is one lexeme whose body is the whole word; the
    letters and the alphanumeric characters are those of [str.isalpha]
    and [str.isalnum], accented letters among them: a [KEYWORD] or
    a [TYPE] when the word is in the lexer's lists, a [BOOLEAN] for
    [true] and [false], an [IDENTIFIER] otherwise. *)
Theorem word_lexeme (self : Lexer) (a : ascii) (w tail : str) :
  rest_of self = a :: w ++ tail ->
  isalpha a = true ->
  forallb isalnum w = true ->
  isalnum (hd NUL tail) = false ->
  next self =
    Ok (Some (mkLexeme
                (Some (if str_in (a :: w) keywords then KEYWORD
                       else if str_in (a :: w) types then TYPE
                       else if str_eqb (a :: w) (S_ "true")
                               || str_eqb (a :: w) (S_ "false") then BOOLEAN
                       else IDENTIFIER))
                (position self) (Some (a :: w))),
        advanced self (S (List.length w))).
Proof.
  intros Hrest Ha Hw Hstop.
  pose proof (peekch_rest _ _ _ Hrest) as Hp.
  unfold next. cbn [next_fuel].
  rewrite skip_space_none by (rewrite Hp; now apply isalpha_not_space).
  rewrite Hp.
  rewrite (isalpha_neq a NUL Ha eq_refl), (isalpha_neq a "/" Ha eq_refl),
    (isalpha_neq a "=" Ha eq_refl), (isalpha_not_digit a Ha),
    (isalpha_neq a "." Ha eq_refl).
  cbn [orb ch_in existsb].
  rewrite (isalpha_neq a DQUOTE Ha eq_refl), (isalpha_neq a SQUOTE Ha eq_refl), Ha.
  cbn [orb]. unfold read_identifier.
  rewrite (alnum_loop_run (a :: w) (remaining self) self [] tail).
  - reflexivity.
  - exact Hrest.
  - simpl. unfold isalnum at 1. now rewrite Ha.
  - exact Hstop.
  - rewrite remaining_rest, Hrest. simpl. rewrite length_app. lia.
Qed.

(** *** String literals *)

Lemma option_map_some {A B : Type} (f : A -> B) (o : option A) (b : B) :
  option_map f o = Some b -> exists a, o = Some a /\ b = f a.
Proof. destruct o as [a|]; simpl; [|discriminate]. intros [= <-]. eauto. Qed.

Lemma string_loop_run (q : ascii) (tail : str) :
  q = DQUOTE \/ q = SQUOTE ->
  forall (n : nat) (body s : str) (self : Lexer) (acc : str),
    List.length body < n ->
    spelled q body = Some s ->
    rest_of self = body ++ q :: tail ->
    string_loop n q self acc =
      (Some STRING, acc ++ body ++ [q], advanced self (List.length body + 1))
    /\ unescape (body ++ [q]) = s.
Proof.
  intros Hq. induction n as [|n IH]; intros body s self acc Hn Hs Hrest; [lia|].
  destruct body as [|c body].
  - simpl in Hs. injection Hs as <-. simpl in Hrest. split; [|reflexivity].
    cbn [string_loop]. rewrite !(peekch_rest _ _ _ Hrest), Ascii.eqb_refl.
    rewrite consume_plain
      by (rewrite (peekch_rest _ _ _ Hrest); destruct Hq as [-> | ->]; discriminate).
    reflexivity.
  - simpl in Hrest. cbn [spelled] in Hs. cbn [string_loop].
    rewrite !(peekch_rest _ _ _ Hrest).
    pose proof (rest_of_consume _ _ _ Hrest) as Hrest1.
    destruct (Ascii.eqb c BACKSLASH) eqn:Hback; try rewrite Hback in Hs.
    + apply Ascii.eqb_eq in Hback. subst c.
      destruct body as [|c' body]; [discriminate|].
      destruct (ch_in c' [BACKSLASH; DQUOTE; SQUOTE]) eqn:Hc'; try rewrite Hc' in Hs;
        [|discriminate].
      apply option_map_some in Hs as (s' & Hs' & ->).
      simpl in Hrest1.
      pose proof (rest_of_consume _ _ _ Hrest1) as Hrest2.
      assert (Hbq : Ascii.eqb BACKSLASH q = false)
        by (now destruct Hq as [-> | ->]).
      rewrite Hbq. change (ch_in BACKSLASH [CR; LF; NUL]) with false.
      change (Ascii.eqb BACKSLASH BACKSLASH) with true. cbv iota.
      rewrite !(peekch_rest _ _ _ Hrest1), Hc'.
      assert (Hlen : List.length body < n) by (simpl in Hn; lia).
      destruct (IH body s' (consume (consume self)) ((acc ++ [BACKSLASH]) ++ [c'])
                  Hlen Hs' Hrest2) as [Hloop Hun].
      rewrite Hloop. split.
      * assert (H1 : consume self = advanced self 1)
          by (apply consume_plain; rewrite (peekch_rest _ _ _ Hrest); discriminate).
        rewrite H1 in *.
        assert (H2 : consume (advanced self 1) = advanced self 2).
        { rewrite consume_plain, advanced_advanced; [reflexivity|].
          rewrite (peekch_rest _ _ _ Hrest1). intros ->. discriminate. }
        rewrite H2, advanced_advanced, <- !app_assoc. simpl.
        first [reflexivity | f_equal; unfold advanced; f_equal; lia].
      * simpl. destruct (body ++ [q]) eqn:Hb;
          [destruct body; discriminate|].
        now rewrite <- Hun.
    + destruct (ch_in c [q; CR; LF; NUL]) eqn:Hc; try rewrite Hc in Hs; [discriminate|].
      apply option_map_some in Hs as (s' & Hs' & ->).
      cbn [ch_in existsb] in Hc.
      apply orb_false_iff in Hc as [Hcq Hc].
      rewrite Hcq.
      assert (Hc2 : ch_in c [CR; LF; NUL] = false) by exact Hc.
      rewrite Hc2.
      assert (Hlen : List.length body < n) by (simpl in Hn; lia).
      destruct (IH body s' (consume self) (acc ++ [c]) Hlen Hs' Hrest1)
        as [Hloop Hun].
      rewrite Hloop. split.
      * assert (Hclf : c <> LF).
        { intros ->. cbv in Hc. discriminate. }
        rewrite consume_plain by (now rewrite (peekch_rest _ _ _ Hrest)).
        rewrite advanced_advanced, <- app_assoc. simpl.
        first [reflexivity | f_equal; unfold advanced; f_equal; lia].
      * simpl. destruct (body ++ [q]) eqn:Hb;
          [destruct body; discriminate|].
        rewrite Hback. now rewrite <- Hun.
Qed.

(** X6 — A string literal is lexed as one [STRING] lexeme whose body is the
    literal with both delimiters, and the decoding loop of the parser
    turns that body into the text the literal spells. *)
Theorem string_literal_decoded (self : Lexer) (q : ascii) (body s tail : str) :
  q = DQUOTE \/ q = SQUOTE ->
  spelled q body = Some s ->
  rest_of self = q :: body ++ q :: tail ->
  next self =
    Ok (Some (mkLexeme (Some STRING) (position self) (Some (q :: body ++ [q]))),
        advanced self (List.length body + 2))
  /\ decode_string (q :: body ++ [q]) = s.
Proof.
  intros Hq Hs Hrest.
  pose proof (peekch_rest _ _ _ Hrest) as Hp.
  pose proof (rest_of_consume _ _ _ Hrest) as Hrest1.
  assert (Hqlf : q <> LF) by (destruct Hq as [-> | ->]; discriminate).
  rewrite consume_plain in Hrest1 by (now rewrite Hp).
  destruct (string_loop_run q tail Hq (S (remaining (advanced self 1))) body s
              (advanced self 1) [q]) as [Hloop Hun].
  - rewrite remaining_rest, Hrest1, length_app. simpl. lia.
  - exact Hs.
  - exact Hrest1.
  - split; [|exact Hun].
    unfold next. cbn [next_fuel].
    rewrite skip_space_none by (rewrite Hp; now destruct Hq as [-> | ->]).
    rewrite Hp.
    replace (Ascii.eqb q NUL) with false by (now destruct Hq as [-> | ->]).
    replace (Ascii.eqb q "/") with false by (now destruct Hq as [-> | ->]).
    replace (Ascii.eqb q "=") with false by (now destruct Hq as [-> | ->]).
    replace (isdigit q || Ascii.eqb q ".") with false
      by (now destruct Hq as [-> | ->]).
    replace (ch_in q [DQUOTE; SQUOTE]) with true by (now destruct Hq as [-> | ->]).
    unfold read_string. rewrite Hp.
    rewrite consume_plain by (now rewrite Hp).
    rewrite Hloop. rewrite advanced_advanced.
    simpl app. first [reflexivity | do 2 f_equal; unfold advanced; f_equal; lia].
Qed.

Lemma string_loop_open (q : ascii) (tail : str) :
  q = DQUOTE \/ q = SQUOTE ->
  ch_in (hd NUL tail) [CR; LF; NUL] = true ->
  forall (n : nat) (body s : str) (self : Lexer) (acc : str),
    List.length body < n ->
    spelled q body = Some s ->
    rest_of self = body ++ tail ->
    string_loop n q self acc = (None, acc ++ body, advanced self (List.length body)).
Proof.
  intros Hq Hstop. induction n as [|n IH]; intros body s self acc Hn Hs Hrest; [lia|].
  destruct body as [|c body].
  - cbn [app List.length] in *. rewrite advanced_0, app_nil_r.
    assert (Hp : peekch self = hd NUL tail).
    { unfold peekch, rest_of in *. now rewrite nth_skipn_hd, Hrest. }
    cbn [string_loop]. rewrite !Hp, Hstop.
    assert (Hhq : Ascii.eqb (hd NUL tail) q = false).
    { cbn [ch_in existsb] in Hstop.
      destruct (Ascii.eqb_spec (hd NUL tail) q) as [Heq|]; [|reflexivity].
      rewrite Heq in Hstop. now destruct Hq as [-> | ->]. }
    now rewrite Hhq.
  - simpl in Hrest. cbn [spelled] in Hs. cbn [string_loop].
    rewrite !(peekch_rest _ _ _ Hrest).
    pose proof (rest_of_consume _ _ _ Hrest) as Hrest1.
    destruct (Ascii.eqb c BACKSLASH) eqn:Hback; try rewrite Hback in Hs.
    + apply Ascii.eqb_eq in Hback. subst c.
      destruct body as [|c' body]; [discriminate|].
      destruct (ch_in c' [BACKSLASH; DQUOTE; SQUOTE]) eqn:Hc'; try rewrite Hc' in Hs;
        [|discriminate].
      apply option_map_some in Hs as (s' & Hs' & ->).
      simpl in Hrest1.
      pose proof (rest_of_consume _ _ _ Hrest1) as Hrest2.
      assert (Hbq : Ascii.eqb BACKSLASH q = false)
        by (now destruct Hq as [-> | ->]).
      rewrite Hbq. change (ch_in BACKSLASH [CR; LF; NUL]) with false.
      change (Ascii.eqb BACKSLASH BACKSLASH) with true. cbv iota.
      rewrite !(peekch_rest _ _ _ Hrest1), Hc'.
      assert (Hlen : List.length body < n) by (simpl in Hn; lia).
      rewrite (IH body s' (consume (consume self)) ((acc ++ [BACKSLASH]) ++ [c'])
                 Hlen Hs' Hrest2).
      assert (H1 : consume self = advanced self 1)
        by (apply consume_plain; rewrite (peekch_rest _ _ _ Hrest); discriminate).
      rewrite H1 in *.
      assert (H2 : consume (advanced self 1) = advanced self 2).
      { rewrite consume_plain, advanced_advanced; [reflexivity|].
        rewrite (peekch_rest _ _ _ Hrest1). intros ->. discriminate. }
      rewrite H2, advanced_advanced, <- !app_assoc. reflexivity.
    + destruct (ch_in c [q; CR; LF; NUL]) eqn:Hc; try rewrite Hc in Hs; [discriminate|].
      apply option_map_some in Hs as (s' & Hs' & ->).
      cbn [ch_in existsb] in Hc.
      apply orb_false_iff in Hc as [Hcq Hc].
      rewrite Hcq.
      assert (Hc2 : ch_in c [CR; LF; NUL] = false) by exact Hc.
      rewrite Hc2.
      assert (Hlen : List.length body < n) by (simpl in Hn; lia).
      rewrite (IH body s' (consume self) (acc ++ [c]) Hlen Hs' Hrest1).
      assert (Hclf : c <> LF).
      { intros ->. cbv in Hc. discriminate. }
      rewrite consume_plain by (now rewrite (peekch_rest _ _ _ Hrest)).
      rewrite advanced_advanced, <- app_assoc. reflexivity.
Qed.

(** X27 — A string literal that a line break or the end of the text cuts short
    is a lexeme without a type, whose body is the opening delimiter and
    the text up to there; the line break is left in the text. *)
Theorem unterminated_string (self : Lexer) (q : ascii) (body s tail : str) :
  q = DQUOTE \/ q = SQUOTE ->
  spelled q body = Some s ->
  rest_of self = q :: body ++ tail ->
  ch_in (hd NUL tail) [CR; LF; NUL] = true ->
  next self =
    Ok (Some (mkLexeme None (position self) (Some (q :: body))),
        advanced self (List.length body + 1)).
Proof.
  intros Hq Hs Hrest Hstop.
  pose proof (peekch_rest _ _ _ Hrest) as Hp.
  pose proof (rest_of_consume _ _ _ Hrest) as Hrest1.
  assert (Hqlf : q <> LF) by (destruct Hq as [-> | ->]; discriminate).
  rewrite consume_plain in Hrest1 by (now rewrite Hp).
  unfold next. cbn [next_fuel].
  rewrite skip_space_none by (rewrite Hp; now destruct Hq as [-> | ->]).
  rewrite Hp.
  replace (Ascii.eqb q NUL) with false by (now destruct Hq as [-> | ->]).
  replace (Ascii.eqb q "/") with false by (now destruct Hq as [-> | ->]).
  replace (Ascii.eqb q "=") with false by (now destruct Hq as [-> | ->]).
  replace (isdigit q || Ascii.eqb q ".") with false
    by (now destruct Hq as [-> | ->]).
  replace (ch_in q [DQUOTE; SQUOTE]) with true by (now destruct Hq as [-> | ->]).
  unfold read_string. rewrite Hp.
  rewrite consume_plain by (now rewrite Hp).
  assert (Hlen : List.length body < S (remaining (advanced self 1)))
    by (rewrite remaining_rest, Hrest1, length_app; lia).
  rewrite (string_loop_open q tail Hq Hstop _ body s (advanced self 1) [q]
             Hlen Hs Hrest1).
  rewrite advanced_advanced.
  replace (1 + List.length body) with (List.length body + 1) by lia.
  reflexivity.
Qed.

(** *** The end of the text *)

Lemma classify_number_type (p : Position) (self : Lexer) (body : str)
    (l : Lexeme) (self' : Lexer) :
  classify_number p self body = Ok (l, self') ->
  type_is l EOF = false /\ (self' = self \/ self' = consume self).
Proof.
  unfold classify_number.
  repeat lazymatch goal with
         | |- (if ?c then _ else _) = _ -> _ => destruct c
         | |- (match ?c with Some _ => _ | None => _ end) = _ -> _ => destruct c
         end;
    intros [= <- <-] || discriminate; split; auto.
Qed.

Lemma string_loop_type (q : ascii) (n : nat) :
  forall (self : Lexer) (body : str),
    fst (fst (string_loop n q self body)) = None
    \/ fst (fst (string_loop n q self body)) = Some STRING.
Proof.
  induction n as [|n IH]; intros self body; cbn [string_loop]; [now left|].
  destruct (Ascii.eqb (peekch self) q); [now right|].
  destruct (ch_in (peekch self) [CR; LF; NUL]); [now left|].
  destruct (Ascii.eqb (peekch self) BACKSLASH); [|apply IH].
  destruct (ch_in (peekch (consume self)) [BACKSLASH; DQUOTE; SQUOTE]);
    [apply IH | now left].
Qed.

Lemma read_string_type (self : Lexer) :
  type_is (fst (read_string self)) EOF = false.
Proof.
  unfold read_string.
  pose proof (string_loop_type (peekch self) (S (remaining (consume self)))
                (consume self) [peekch self]) as H.
  destruct (string_loop _ _ _ _) as [[t body] self'].
  simpl in H. unfold type_is. simpl. now destruct H as [-> | ->].
Qed.

Lemma read_identifier_type (self : Lexer) :
  type_is (fst (read_identifier self)) EOF = false.
Proof.
  unfold read_identifier. destruct (alnum_loop _ _ _) as [self' body].
  unfold type_is. cbn [fst lx_type].
  destruct (str_in body keywords); [reflexivity|].
  destruct (str_in body types); [reflexivity|].
  now destruct (str_eqb body (S_ "true") || str_eqb body (S_ "false")).
Qed.

(** An [EOF] lexeme is returned at the end of the text only. *)
Lemma next_fuel_eof (fuel : nat) :
  forall (self : Lexer) (l : Lexeme) (self' : Lexer),
    next_fuel fuel self = Ok (Some l, self') ->
    type_is l EOF = true ->
    peekch self' = NUL /\ l = mkLexeme (Some EOF) (position self') None.
Proof.
  induction fuel as [|fuel IH]; intros self l self'; [discriminate|].
  cbn [next_fuel]. set (self1 := skip_space self).
  destruct (Ascii.eqb (peekch self1) NUL) eqn:Hnul.
  { intros [= <- <-] _. apply Ascii.eqb_eq in Hnul. now split. }
  destruct (Ascii.eqb (peekch self1) "/").
  { destruct (Ascii.eqb (peekch (consume self1)) "/"); [apply IH|].
    destruct (Ascii.eqb (peekch (consume self1)) "*"); [apply IH|discriminate]. }
  destruct (Ascii.eqb (peekch self1) "=").
  { destruct (Ascii.eqb (peekch (consume self1)) "="); intros [= <- <-]; discriminate. }
  destruct (isdigit (peekch self1) || Ascii.eqb (peekch self1) ".").
  { rewrite read_number_split. destruct (accumulate_number self1) as [self2 body].
    destruct (classify_number (position self1) self2 body) as [[l0 self3]| | |] eqn:Hc;
      cbn [bind]; try discriminate.
    intros [= <- <-] Ht. apply classify_number_type in Hc as [Hc _]. congruence. }
  destruct (ch_in (peekch self1) [DQUOTE; SQUOTE]).
  { pose proof (read_string_type self1) as Hs.
    destruct (read_string self1) as [l0 self2]. intros [= <- <-] Ht.
    simpl in Hs. congruence. }
  destruct (isalpha (peekch self1)).
  { pose proof (read_identifier_type self1) as Hs.
    destruct (read_identifier self1) as [l0 self2]. intros [= <- <-] Ht.
    simpl in Hs. congruence. }
  intros [= <- <-]; discriminate.
Qed.

(** X2 — Once [next] has returned [EOF] it returns the same [EOF] lexeme
    again, from the same state, however often it is called. *)
Theorem eof_repeats (self : Lexer) (l : Lexeme) (self' : Lexer) :
  next self = Ok (Some l, self') ->
  type_is l EOF = true ->
  next self' = Ok (Some l, self').
Proof.
  intros Hnext Ht.
  destruct (next_fuel_eof _ _ _ _ Hnext Ht) as [Hp ->].
  unfold next. cbn [next_fuel].
  rewrite skip_space_none by (now rewrite Hp).
  now rewrite Hp.
Qed.

(** *** The lexer moves forward *)

Lemma offset_consume (self : Lexer) : offset (consume self) = offset self + 1.
Proof. unfold consume. now destruct (Ascii.eqb (peekch self) LF). Qed.

Lemma skip_space_loop_forward (n : nat) :
  forall self,
    text (skip_space_loop n self) = text self
    /\ offset self <= offset (skip_space_loop n self).
Proof.
  induction n as [|n IH]; intros self; simpl; [auto|].
  destruct (isspace (peekch self)); [|auto].
  destruct (IH (consume self)) as [Ht Ho].
  rewrite Ht, text_consume. rewrite offset_consume in Ho. split; [reflexivity | lia].
Qed.

Lemma line_comment_loop_forward (n : nat) :
  forall self,
    text (line_comment_loop n self) = text self
    /\ offset self <= offset (line_comment_loop n self).
Proof.
  induction n as [|n IH]; intros self; cbn [line_comment_loop]; [auto|].
  destruct (ch_in (peekch self) [CR; LF; NUL]); [auto|].
  destruct (IH (consume self)) as [Ht Ho].
  rewrite Ht, text_consume. rewrite offset_consume in Ho. split; [reflexivity | lia].
Qed.

Lemma block_comment_loop_forward (n : nat) :
  forall self,
    text (block_comment_loop n self) = text self
    /\ offset self <= offset (block_comment_loop n self).
Proof.
  induction n as [|n IH]; intros self; cbn [block_comment_loop]; [auto|].
  destruct (Ascii.eqb (peekch self) NUL); [auto|].
  destruct (IH (consume self)) as [Ht Ho].
  rewrite offset_consume in Ho. rewrite text_consume in Ht.
  destruct (Ascii.eqb (peekch self) "*"); [|split; [assumption | lia]].
  destruct (Ascii.eqb (peekch (consume self)) "/"); [|split; [assumption | lia]].
  rewrite !text_consume, !offset_consume. split; [reflexivity | lia].
Qed.

Lemma digits_loop_forward (n : nat) :
  forall self body,
    text (fst (digits_loop n self body)) = text self
    /\ offset self <= offset (fst (digits_loop n self body))
    /\ (isdigit (peekch self) = true -> 0 < n ->
        offset self < offset (fst (digits_loop n self body))).
Proof.
  induction n as [|n IH]; intros self body; cbn [digits_loop].
  - simpl. repeat split; [lia | lia].
  - destruct (isdigit (peekch self)).
    + destruct (IH (consume self) (body ++ [peekch self])) as (Ht & Ho & _).
      rewrite Ht, text_consume. rewrite offset_consume in Ho.
      repeat split; lia.
    + simpl. repeat split; [lia | discriminate].
Qed.

Lemma alnum_loop_forward (n : nat) :
  forall self body,
    text (fst (alnum_loop n self body)) = text self
    /\ offset self <= offset (fst (alnum_loop n self body))
    /\ (isalnum (peekch self) = true -> 0 < n ->
        offset self < offset (fst (alnum_loop n self body))).
Proof.
  induction n as [|n IH]; intros self body; cbn [alnum_loop].
  - simpl. repeat split; [lia | lia].
  - destruct (isalnum (peekch self)).
    + destruct (IH (consume self) (body ++ [peekch self])) as (Ht & Ho & _).
      rewrite Ht, text_consume. rewrite offset_consume in Ho.
      repeat split; lia.
    + simpl. repeat split; [lia | discriminate].
Qed.

Lemma string_loop_forward (q : ascii) (n : nat) :
  forall self body,
    text (snd (string_loop n q self body)) = text self
    /\ offset self <= offset (snd (string_loop n q self body)).
Proof.
  induction n as [|n IH]; intros self body; cbn [string_loop]; [simpl; auto|].
  destruct (Ascii.eqb (peekch self) q).
  { simpl. rewrite text_consume, offset_consume. split; [reflexivity | lia]. }
  destruct (ch_in (peekch self) [CR; LF; NUL]); [simpl; auto|].
  destruct (Ascii.eqb (peekch self) BACKSLASH).
  - destruct (ch_in (peekch (consume self)) [BACKSLASH; DQUOTE; SQUOTE]).
    + destruct (IH (consume (consume self))
                  ((body ++ [peekch self]) ++ [peekch (consume self)])) as [Ht Ho].
      rewrite Ht, !text_consume. rewrite !offset_consume in Ho.
      split; [reflexivity | lia].
    + simpl. rewrite text_consume, offset_consume. split; [reflexivity | lia].
  - destruct (IH (consume self) (body ++ [peekch self])) as [Ht Ho].
    rewrite Ht, text_consume. rewrite offset_consume in Ho.
    split; [reflexivity | lia].
Qed.

Lemma remaining_positive (self : Lexer) : peekch self <> NUL -> 0 < remaining self.
Proof. intros H. apply peekch_not_nul in H. unfold remaining. lia. Qed.

Lemma accumulate_number_forward (self : Lexer) :
  isdigit (peekch self) = true \/ peekch self = "." ->
  text (fst (accumulate_number self)) = text self
  /\ offset self < offset (fst (accumulate_number self)).
Proof.
  intros Hfirst. unfold accumulate_number.
  destruct (digits_loop_forward (remaining self) self []) as (Ht & Ho & Hstrict).
  destruct (digits_loop (remaining self) self []) as [self1 body1] eqn:Hloop.
  simpl in Ht, Ho, Hstrict.
  assert (Hmoved : offset self < offset self1 \/ peekch self1 = ".").
  { destruct Hfirst as [Hd | Hdot].
    - left. apply Hstrict; [exact Hd|]. apply remaining_positive.
      intros Hnul. now rewrite Hnul in Hd.
    - right. destruct (remaining self); simpl in Hloop.
      + now injection Hloop as <- _.
      + rewrite Hdot in Hloop. simpl in Hloop. now injection Hloop as <- _. }
  destruct (Ascii.eqb (peekch self1) ".") eqn:Hdot.
  - destruct (digits_loop_forward (remaining (consume self1)) (consume self1)
                (body1 ++ [peekch self1])) as (Ht2 & Ho2 & _).
    rewrite Ht2, text_consume, Ht. rewrite offset_consume in Ho2.
    split; [reflexivity | lia].
  - simpl. split; [exact Ht|].
    destruct Hmoved as [Hlt | Hp]; [exact Hlt|].
    rewrite Hp in Hdot. discriminate.
Qed.

(** Where [next] goes: the text stays, the offset does not fall, and
    it rises, from inside the text, unless the lexeme is [EOF]. *)
Lemma next_fuel_forward (fuel : nat) :
  forall (self : Lexer) (r : option Lexeme) (self' : Lexer),
    next_fuel fuel self = Ok (r, self') ->
    text self' = text self
    /\ offset self <= offset self'
    /\ (not_eof r = true -> offset self < offset self')
    /\ (not_eof r = true -> offset self < List.length (text self)).
Proof.
  induction fuel as [|fuel IH]; intros self r self'; [discriminate|].
  cbn [next_fuel].
  destruct (skip_space_loop_forward (remaining self) self) as [Ht1 Ho1].
  fold (skip_space self) in Ht1, Ho1. set (self1 := skip_space self) in *.
  destruct (Ascii.eqb (peekch self1) NUL) eqn:Hnul.
  { intros [= <- <-]. repeat split; [assumption | assumption | discriminate | discriminate]. }
  assert (Hin : offset self < List.length (text self)).
  { apply Ascii.eqb_neq, peekch_not_nul in Hnul. rewrite Ht1 in Hnul. lia. }
  pose proof (text_consume self1) as Ht2.
  pose proof (offset_consume self1) as Ho2.
  pose proof (text_consume (consume self1)) as Ht3.
  pose proof (offset_consume (consume self1)) as Ho3.
  destruct (Ascii.eqb (peekch self1) "/").
  { destruct (Ascii.eqb (peekch (consume self1)) "/").
    { intros H. apply IH in H as (Ht & Ho & _ & _).
      destruct (line_comment_loop_forward (remaining (consume (consume self1)))
                  (consume (consume self1))) as [Ht4 Ho4].
      repeat split; [congruence | lia | lia | intros _; exact Hin]. }
    destruct (Ascii.eqb (peekch (consume self1)) "*").
    { intros H. apply IH in H as (Ht & Ho & _ & _).
      destruct (block_comment_loop_forward (remaining (consume (consume self1)))
                  (consume (consume self1))) as [Ht4 Ho4].
      repeat split; [congruence | lia | lia | intros _; exact Hin]. }
    intros [= <- <-]. repeat split; [congruence | lia | lia | intros _; exact Hin]. }
  destruct (Ascii.eqb (peekch self1) "=").
  { destruct (Ascii.eqb (peekch (consume self1)) "="); intros [= <- <-];
      repeat split; solve [congruence | lia | intros _; exact Hin]. }
  destruct (isdigit (peekch self1) || Ascii.eqb (peekch self1) ".") eqn:Hnumber.
  { rewrite read_number_split.
    assert (Hfirst : isdigit (peekch self1) = true \/ peekch self1 = ".").
    { apply orb_true_iff in Hnumber as [H | H]; [now left|].
      right. now apply Ascii.eqb_eq. }
    destruct (accumulate_number_forward self1 Hfirst) as [Ht4 Ho4].
    destruct (accumulate_number self1) as [self2 body]. simpl in Ht4, Ho4.
    destruct (classify_number (position self1) self2 body) as [[l0 self3]| | |] eqn:Hc;
      cbn [bind]; try discriminate.
    intros [= <- <-]. apply classify_number_type in Hc as [_ [-> | ->]].
    - repeat split; [congruence | lia | lia | intros _; exact Hin].
    - rewrite text_consume, offset_consume.
      repeat split; [congruence | lia | lia | intros _; exact Hin]. }
  destruct (ch_in (peekch self1) [DQUOTE; SQUOTE]).
  { unfold read_string.
    destruct (string_loop_forward (peekch self1) (S (remaining (consume self1)))
                (consume self1) [peekch self1]) as [Ht4 Ho4].
    destruct (string_loop _ _ _ _) as [[t body] self2]. simpl in Ht4, Ho4.
    intros [= <- <-]. repeat split; [congruence | lia | lia | intros _; exact Hin]. }
  destruct (isalpha (peekch self1)) eqn:Halpha.
  { unfold read_identifier.
    destruct (alnum_loop_forward (remaining self1) self1 []) as (Ht4 & Ho4 & Hstrict).
    assert (Hlt : offset self1 < offset (fst (alnum_loop (remaining self1) self1 []))).
    { apply Hstrict; [unfold isalnum; now rewrite Halpha|].
      apply remaining_positive. now apply Ascii.eqb_neq. }
    destruct (alnum_loop _ _ _) as [self2 body]. simpl in Ht4, Ho4, Hlt.
    intros [= <- <-]. repeat split; [congruence | lia | lia | intros _; exact Hin]. }
  intros [= <- <-]. repeat split; [congruence | lia | lia | intros _; exact Hin].
Qed.

(** X1 — [next] never changes the text and never moves back, and whenever it
    returns anything but [EOF] it has consumed at least one character:
    a loop that calls [next] until [EOF] ends. *)
Theorem next_moves_forward (self : Lexer) (r : option Lexeme) (self' : Lexer) :
  next self = Ok (r, self') ->
  text self' = text self
  /\ offset self <= offset self'
  /\ (not_eof r = true -> offset self < offset self').
Proof.
  intros H. unfold next in H.
  destruct (next_fuel_forward _ _ _ _ H) as (Htext & Hoffset & Hstrict & _).
  split; [exact Htext|]. split; [exact Hoffset | exact Hstrict].
Qed.

(** *** Comments *)

Lemma line_comment_loop_run (c : str) :
  forall (n : nat) (self : Lexer) (tail : str),
    rest_of self = c ++ tail ->
    forallb (fun x => negb (ch_in x [CR; LF; NUL])) c = true ->
    ch_in (hd NUL tail) [CR; LF; NUL] = true ->
    List.length c <= n ->
    line_comment_loop n self = advanced self (List.length c).
Proof.
  induction c as [|x c IH]; intros n self tail Hrest Hc Hstop Hn.
  - cbn [app List.length] in *. rewrite advanced_0.
    assert (Hp : peekch self = hd NUL tail).
    { unfold peekch, rest_of in *. now rewrite nth_skipn_hd, Hrest. }
    destruct n; cbn [line_comment_loop]; [reflexivity|]. now rewrite Hp, Hstop.
  - cbn [forallb] in Hc. apply andb_true_iff in Hc as [Hx Hc].
    apply negb_true_iff in Hx.
    destruct n as [|n]; [simpl in Hn; lia|].
    simpl in Hrest. cbn [line_comment_loop].
    rewrite (peekch_rest _ _ _ Hrest), Hx.
    pose proof (rest_of_consume _ _ _ Hrest) as Hrest'.
    rewrite (IH n (consume self) tail Hrest' Hc Hstop) by (simpl in Hn; lia).
    rewrite consume_plain.
    + now rewrite advanced_advanced.
    + rewrite (peekch_rest _ _ _ Hrest). intros ->. cbv in Hx. discriminate.
Qed.

(** X3 — A comment from two slashes to the end of its line is skipped: [next]
    returns what it returns at the line break, or at the end of the
    text, after the comment. *)
Theorem line_comment_skipped (self : Lexer) (c tail : str) :
  rest_of self = "/" :: "/" :: c ++ tail ->
  forallb (fun x => negb (ch_in x [CR; LF; NUL])) c = true ->
  ch_in (hd NUL tail) [CR; LF; NUL] = true ->
  next self = next (advanced self (List.length c + 2)).
Proof.
  intros Hrest Hc Hstop.
  pose proof (peekch_rest _ _ _ Hrest) as Hp.
  pose proof (rest_of_consume _ _ _ Hrest) as Hrest1.
  rewrite consume_plain in Hrest1 by (rewrite Hp; discriminate).
  pose proof (peekch_rest _ _ _ Hrest1) as Hp1.
  pose proof (rest_of_consume _ _ _ Hrest1) as Hrest2.
  rewrite consume_plain, advanced_advanced in Hrest2 by (rewrite Hp1; discriminate).
  unfold next at 1. cbn [next_fuel].
  rewrite skip_space_none by (now rewrite Hp).
  rewrite Hp. simpl Ascii.eqb. cbv iota.
  rewrite (consume_plain self) by (rewrite Hp; discriminate).
  rewrite Hp1. simpl Ascii.eqb. cbv iota.
  rewrite (consume_plain (advanced self 1)), advanced_advanced
    by (rewrite Hp1; discriminate).
  rewrite (line_comment_loop_run c _ _ tail Hrest2 Hc Hstop)
    by (rewrite remaining_rest, Hrest2, length_app; lia).
  rewrite advanced_advanced.
  replace (1 + 1 + List.length c) with (List.length c + 2) by lia.
  apply next_fuel_enough.
  rewrite !remaining_rest, Hrest, rest_of_advanced, Hrest.
  replace (List.length c + 2) with (List.length ("/" :: "/" :: c))
    by (simpl; lia).
  change ("/" :: "/" :: c ++ tail) with (("/" :: "/" :: c) ++ tail).
  rewrite skipn_length_app, length_app. simpl. lia.
Qed.

Lemma consumed_S (n : nat) (self : Lexer) :
  consumed (S n) self = consumed n (consume self).
Proof. unfold consumed. now rewrite Nat.iter_succ_r. Qed.

Lemma rest_of_consumed (a : str) :
  forall (self : Lexer) (b : str),
    rest_of self = a ++ b -> rest_of (consumed (List.length a) self) = b.
Proof.
  induction a as [|x a IH]; intros self b Hrest; [exact Hrest|].
  simpl List.length. rewrite consumed_S. apply IH.
  exact (rest_of_consume _ _ _ Hrest).
Qed.

Lemma block_comment_loop_run (c : str) :
  forall (n : nat) (self : Lexer) (tail : str),
    rest_of self = c ++ "*" :: "/" :: tail ->
    closes (c ++ ["*"]) = false ->
    ch_in NUL c = false ->
    List.length c < n ->
    block_comment_loop n self = consumed (List.length c + 2) self.
Proof.
  induction c as [|x c IH]; intros n self tail Hrest Hclose Hnul Hn;
    (destruct n as [|n]; [simpl in Hn; lia|]).
  - simpl in Hrest. cbn [block_comment_loop].
    rewrite (peekch_rest _ _ _ Hrest). simpl Ascii.eqb. cbv iota.
    rewrite (peekch_rest _ _ _ (rest_of_consume _ _ _ Hrest)).
    simpl Ascii.eqb. cbv iota. reflexivity.
  - simpl in Hrest. cbn [block_comment_loop].
    rewrite (peekch_rest _ _ _ Hrest).
    cbn [ch_in existsb] in Hnul. apply orb_false_iff in Hnul as [Hx Hnul].
    rewrite Ascii.eqb_sym in Hx. rewrite Hx.
    pose proof (rest_of_consume _ _ _ Hrest) as Hrest'.
    cbn [closes app] in Hclose. apply orb_false_iff in Hclose as [Hhere Hclose].
    assert (Hnext : block_comment_loop n (consume self)
                    = consumed (List.length (x :: c) + 2) self).
    { simpl List.length. simpl Nat.add. rewrite consumed_S.
      replace (S (List.length c + 1)) with (List.length c + 2) by lia.
      apply (IH n (consume self) tail Hrest' Hclose Hnul). simpl in Hn. lia. }
    destruct (Ascii.eqb x "*"); [|exact Hnext].
    simpl in Hhere.
    assert (Hp : peekch (consume self) = hd NUL (c ++ ["*"])).
    { unfold peekch. rewrite nth_skipn_hd. fold (rest_of (consume self)).
      rewrite Hrest'. now destruct c. }
    rewrite Hp, Hhere. exact Hnext.
Qed.

(** X4 — A block comment is skipped up to the first star and slash after its
    opening: [next] returns what it returns right after them. *)
Theorem block_comment_skipped (self : Lexer) (c tail : str) :
  rest_of self = "/" :: "*" :: c ++ "*" :: "/" :: tail ->
  closes (c ++ ["*"]) = false ->
  ch_in NUL c = false ->
  next self = next (consumed (List.length c + 4) self).
Proof.
  intros Hrest Hclose Hnul.
  pose proof (peekch_rest _ _ _ Hrest) as Hp.
  pose proof (rest_of_consume _ _ _ Hrest) as Hrest1.
  pose proof (peekch_rest _ _ _ Hrest1) as Hp1.
  pose proof (rest_of_consume _ _ _ Hrest1) as Hrest2.
  unfold next at 1. cbn [next_fuel].
  rewrite skip_space_none by (now rewrite Hp).
  rewrite Hp. simpl Ascii.eqb. cbv iota.
  rewrite Hp1. simpl Ascii.eqb. cbv iota.
  rewrite (block_comment_loop_run c _ _ tail Hrest2 Hclose Hnul)
    by (rewrite remaining_rest, Hrest2, length_app; simpl; lia).
  replace (List.length c + 4) with (S (S (List.length c + 2))) by lia.
  rewrite !consumed_S.
  apply next_fuel_enough.
  assert (Hrest3 : rest_of (consumed (List.length c + 2) (consume (consume self)))
                   = tail).
  { replace (List.length c + 2) with (List.length (c ++ ["*"; "/"]))
      by (rewrite length_app; simpl; lia).
    apply rest_of_consumed. rewrite Hrest2, <- app_assoc. reflexivity. }
  rewrite !remaining_rest, Hrest3, Hrest. simpl. rewrite length_app. simpl. lia.
Qed.

(** ** Scopes *)

Lemma str_eqb_neq (a b : str) : a <> b -> str_eqb a b = false.
Proof.
  intros H. destruct (str_eqb a b) eqn:E; [|reflexivity].
  apply str_eqb_eq in E. contradiction.
Qed.

Lemma dict_get_set_same {V} (d : dict V) (k : str) (v : V) :
  dict_get (dict_set d k v) k = Some v.
Proof.
  induction d as [|[k' v'] d IH]; simpl.
  - now rewrite str_eqb_refl.
  - destruct (str_eqb k k') eqn:E; simpl; rewrite E; [reflexivity | exact IH].
Qed.

Lemma dict_get_set_other {V} (d : dict V) (k m : str) (v : V) :
  m <> k -> dict_get (dict_set d k v) m = dict_get d m.
Proof.
  intros Hne. induction d as [|[k' v'] d IH]; simpl.
  - now rewrite (str_eqb_neq m k Hne).
  - destruct (str_eqb k k') eqn:E; simpl.
    + apply str_eqb_eq in E. subst k'. now rewrite (str_eqb_neq m k Hne).
    + now rewrite IH.
Qed.

(** X11 — A variable that [declare_variable] accepts is found by
    [get_variable] with the declared type, every other name is looked up
    as before, and the same scope refuses to declare the name again. *)
Theorem declare_variable_spec (scope scope' : Scope) (name : str) (t : CubentType) :
  declare_variable scope name t = Some scope' ->
  get_variable scope' name = Some t
  /\ (forall other, other <> name -> get_variable scope' other = get_variable scope other)
  /\ (forall t', declare_variable scope' name t' = None).
Proof.
  destruct scope as [|variables parents]; [discriminate|].
  unfold declare_variable.
  destruct (dict_has variables name) eqn:Hhas; [discriminate|].
  intros [= <-]. repeat split.
  - simpl. now rewrite dict_get_set_same.
  - intros other Hne. simpl. now rewrite (dict_get_set_other variables name other t Hne).
  - intros t'. unfold dict_has. now rewrite dict_get_set_same.
Qed.


(** ** Conversions *)

(** X12 — [write_type_conversion] accepts a pair of types when they are the
    same, when one of them is [Any], or when both are among [Boolean]
    and the types of numbers, and refuses every other pair; it writes
    nothing for a pair it refuses, for the same type and for [Any], and
    it leaves the file system alone.  ([Void] is not a type object: the
    method raises on it.) *)
Theorem write_type_conversion_table (current_type target_type : CubentType)
    (function_storage : str) (w : World) :
  current_type <> Void -> target_type <> Void ->
  let accepted :=
    CubentType_eqb current_type target_type
    || is_any current_type || is_any target_type
    || (number_like current_type && number_like target_type) in
  let silent :=
    CubentType_eqb current_type target_type
    || is_any current_type || is_any target_type || negb accepted in
  let result := write_type_conversion current_type target_type function_storage w in
  fst result = Ok accepted
  /\ trace (snd result) = trace w
  /\ uuids (snd result) = uuids w
  /\ (exists written, buffer (snd result) = buffer w ++ written
                      /\ (silent = true <-> written = [])).
Proof.
  intros Hc Ht accepted silent result.
  destruct current_type, target_type; try contradiction;
    subst accepted silent result;
    (split; [reflexivity|]); (split; [reflexivity|]); (split; [reflexivity|]);
    cbn;
    first [ exists []; split; [now rewrite app_nil_r | split; reflexivity]
          | eexists; split; [reflexivity | split; intros H; discriminate H] ].
Qed.

(** ** String literals in the output *)

Lemma unescape_cons (c x : ascii) (r : str) :
  unescape (c :: x :: r) =
    if Ascii.eqb c BACKSLASH then x :: unescape r else c :: unescape (x :: r).
Proof. reflexivity. Qed.

Lemma unescape_quoted (q : ascii) (s : str) :
  q <> BACKSLASH ->
  unescape (replace q [BACKSLASH; q] (replace BACKSLASH [BACKSLASH; BACKSLASH] s) ++ [q])
  = s.
Proof.
  intros Hq. induction s as [|c s IH]; [reflexivity|].
  cbn [replace].
  destruct (Ascii.eqb c BACKSLASH) eqn:Hback.
  - apply Ascii.eqb_eq in Hback. subst c.
    cbn [app replace].
    assert (Hbq : Ascii.eqb BACKSLASH q = false).
    { apply Ascii.eqb_neq. congruence. }
    rewrite Hbq. cbn [app]. rewrite unescape_cons.
    change (Ascii.eqb BACKSLASH BACKSLASH) with true. cbv iota.
    now rewrite IH.
  - cbn [app replace].
    destruct (Ascii.eqb c q) eqn:Hcq.
    + apply Ascii.eqb_eq in Hcq. subst c.
      cbn [app]. rewrite unescape_cons.
      change (Ascii.eqb BACKSLASH BACKSLASH) with true. cbv iota.
      now rewrite IH.
    + cbn [app].
      set (rest := replace q [BACKSLASH; q]
                     (replace BACKSLASH [BACKSLASH; BACKSLASH] s) ++ [q]) in *.
      assert (Hrest : exists x r, rest = x :: r).
      { subst rest. destruct (replace q _ _); simpl; eauto. }
      destruct Hrest as (x & r & Hrest). rewrite Hrest in *.
      rewrite unescape_cons, Hback. now rewrite IH.
Qed.

(** X13 — The quoted text that the emitter writes for a [String] literal is
    read back, by the loop with which the parser decodes a string
    lexeme, as the value of the literal: whichever quote the emitter
    picks, the backslashes and that quote are escaped so that nothing of
    the value is lost. *)
Theorem raw_string_decoded (s : str) :
  exists raw, raw_literal (LitString s) = Ok raw /\ decode_string raw = s.
Proof.
  exists (quoted s). split; [reflexivity|].
  unfold quoted, decode_string.
  destruct (negb _ && _); cbn [app tl]; apply unescape_quoted; discriminate.
Qed.

(** ** Operations the emitter cannot write *)

Lemma write_command_unsupported (functions : list Function) (build_uuid : str)
    (internal_directory : Path) :
  forall (operation : Operation) (function_storage : str) (path : list str)
         (context : Context) (state state' : Stack * Scope) (w w' : World),
    unsupported operation = true ->
    write_command functions build_uuid internal_directory function_storage path
      operation context state w <> (Ok state', w').
Proof.
  fix IH 1.
  intros operation function_storage path context [stack scope] state' w w' Hun H.
  destruct operation; try discriminate Hun.
  - (* GET_PROP *)
    cbn [write_command] in H.
    apply bind_io_ok in H as ([object_type stack1] & w1 & _ & H). discriminate H.
  - (* SET_PROP *)
    cbn [write_command] in H.
    apply bind_io_ok in H as ([object_type stack1] & w1 & _ & H). discriminate H.
  - (* GET_ARG *)
    discriminate H.
  - (* DO_IF *)
    cbn [write_command] in H. cbn [unsupported] in Hun.
    apply bind_io_ok in H as ([object_type stack1] & w1 & _ & H).
    apply bind_io_ok in H as (converted & w2 & _ & H).
    destruct converted; [|discriminate H]. cbn [negb] in H.
    apply bind_io_ok in H as (name & w3 & _ & H).
    apply bind_io_ok in H as (inner & w4 & Hblock & _).
    unfold with_open_w in Hblock.
    match type of Hblock with
    | (let '(r, w') := ?body ?w0 in _) = _ =>
        destruct (body w0) as [r0 w5] eqn:Hbody
    end.
    injection Hblock as -> _.
    apply bind_io_ok in Hbody as (helper_storage & w6 & _ & Hbody).
    apply bind_io_ok in Hbody as ([] & w7 & _ & Hbody).
    revert Hun Hbody.
    generalize (@nil CubentType, @nil (str * CubentType) :: scope).
    generalize w7. generalize path. clear - IH.
    induction block as [|[context' operation'] block IHblock];
      intros path w7 state Hun Hbody; [discriminate Hun|].
    cbn [existsb snd] in Hun.
    apply bind_io_ok in Hbody as (state1 & w8 & Hfirst & Hrest).
    destruct (unsupported operation') eqn:Hop.
    + exact (IH operation' helper_storage path context' state state1 w7 w8 Hop Hfirst).
    + exact (IHblock _ w8 state1 Hun Hrest).
Qed.

Lemma write_loop_unsupported (functions : list Function) (build_uuid : str)
    (internal_directory : Path) (function_storage : str) (commands : list Command) :
  existsb (fun command : Command => unsupported (operation command)) commands = true ->
  forall (path : list str) (state state' : Stack * Scope) (w w' : World),
    write_loop functions build_uuid internal_directory function_storage path
      commands state w
    <> (Ok state', w').
Proof.
  induction commands as [|[context op] commands IH];
    intros Hun path state state' w w' H; [discriminate Hun|].
  cbn [existsb operation snd] in Hun. cbn [write_loop] in H.
  apply bind_io_ok in H as (state1 & w1 & Hfirst & Hrest).
  destruct (unsupported op) eqn:Hop.
  - exact (write_command_unsupported _ _ _ op _ _ context state state1 w w1 Hop Hfirst).
  - exact (IH Hun _ state1 state' w1 w' Hrest).
Qed.

(** X14 — The emitter has no working branch for a read of a parameter and for
    a read or a write of a property: a function whose commands hold a
    [GET_ARG], a [GET_PROP] or a [SET_PROP], at the top or in the block
    of an [if], is never written with success. *)
Theorem unsupported_never_written (functions : list Function) (build_uuid : str)
    (path : list str) (commands : list Command) (parameters : dict CubentType)
    (mcfunction_filename internal_directory : Path) (scope : Scope)
    (w w' : World) (stack : Stack) :
  existsb (fun command : Command => unsupported (operation command)) commands = true ->
  write_cubent_function functions build_uuid path commands parameters
    mcfunction_filename internal_directory scope w <> (Ok stack, w').
Proof.
  intros Hun H. unfold write_cubent_function, with_open_w in H.
  match type of H with
  | (let '(r, w') := ?body ?w0 in _) = _ => destruct (body w0) as [r0 w1] eqn:Hbody
  end.
  injection H as -> _.
  unfold write_commands in Hbody.
  apply bind_io_ok in Hbody as (function_storage & w2 & _ & Hbody).
  apply bind_io_ok in Hbody as ([] & w3 & _ & Hbody).
  apply bind_io_ok in Hbody as ([stack1 scope1] & w4 & Hloop & _).
  exact (write_loop_unsupported _ _ _ _ commands Hun _ _ _ _ _ Hloop).
Qed.

(** ** What the emitter does to the world *)

Lemma grows_refl (w : World) : grows w w.
Proof.
  repeat split; [exists []; reflexivity | lia | exists []; now rewrite app_nil_r].
Qed.

Lemma grows_trans (a b c : World) : grows a b -> grows b c -> grows a c.
Proof.
  intros ((t1 & Ht1) & Hu1 & (b1 & Hb1)) ((t2 & Ht2) & Hu2 & (b2 & Hb2)).
  repeat split.
  - exists (t2 ++ t1). now rewrite Ht2, Ht1, app_assoc.
  - lia.
  - exists (b1 ++ b2). now rewrite Hb2, Hb1, app_assoc.
Qed.

Lemma grows_bind_io {A B} (m : io A) (k : A -> io B) :
  (forall w, grows w (snd (m w))) ->
  (forall a w, grows w (snd (k a w))) ->
  forall w, grows w (snd (bind_io m k w)).
Proof.
  intros Hm Hk w. unfold bind_io. specialize (Hm w).
  destruct (m w) as [[a | e | x |] w1]; simpl in *; try exact Hm.
  exact (grows_trans _ _ _ Hm (Hk a w1)).
Qed.

Lemma grows_lift {A} (o : outcome A) (w : World) : grows w (snd (lift o w)).
Proof. apply grows_refl. Qed.

Lemma grows_ret {A} (a : A) (w : World) : grows w (snd (ret a w)).
Proof. apply grows_refl. Qed.

Lemma grows_write (s : str) (w : World) : grows w (snd (write s w)).
Proof. repeat split; simpl; [exists []; reflexivity | lia | eauto]. Qed.

Lemma grows_call (e : IO) (w : World) : grows w (snd (call e w)).
Proof.
  repeat split; simpl; [exists [e]; reflexivity | lia | exists []; now rewrite app_nil_r].
Qed.

Lemma grows_uuid4 (w : World) : grows w (snd (uuid4 w)).
Proof.
  repeat split; simpl; [exists []; reflexivity | lia | exists []; now rewrite app_nil_r].
Qed.

Lemma grows_makedirs (p : Path) (w : World) : grows w (snd (makedirs p w)).
Proof.
  unfold makedirs. destruct (made p (trace w)); [apply grows_refl | apply grows_call].
Qed.

Lemma grows_with_open_w {A} (p : Path) (body : io A) :
  (forall w, grows w (snd (body w))) ->
  forall w, grows w (snd (with_open_w p body w)).
Proof.
  intros Hbody w. unfold with_open_w.
  specialize (Hbody (mkWorld (trace w) (uuids w) [])).
  destruct (body _) as [r w1]. simpl in *.
  destruct Hbody as ((t & Ht) & Hu & _).
  repeat split; simpl.
  - exists (io_write p (buffer w1) :: t). now rewrite Ht.
  - exact Hu.
  - exists []. now rewrite app_nil_r.
Qed.

Lemma grows_emit_error {A} (context : Context) (message : str) (w : World) :
  grows w (snd (@emit_error A context message w)).
Proof. apply grows_refl. Qed.

Create HintDb grows.

#[local] Hint Resolve grows_refl grows_lift grows_ret grows_write grows_call
  grows_uuid4 grows_makedirs grows_emit_error : grows.

Ltac grows_step :=
  lazymatch goal with
  | |- grows _ (snd (bind_io _ _ _)) => apply grows_bind_io; intros
  | |- grows _ (snd (with_open_w _ _ _)) => apply grows_with_open_w; intros
  | |- grows _ (snd ((let '(_, _) := ?p in _) _)) => destruct p
  | |- grows _ (snd ((if ?c then _ else _) _)) => destruct c
  | |- grows _ (snd ((match ?c with Some _ => _ | None => _ end) _)) => destruct c
  | |- grows _ (snd (match ?c with CubentFunction _ _ _ _ => _ | MCFunction _ _ _ _ => _ end _)) =>
      destruct c
  | |- _ => solve [auto with grows]
  end.

Lemma grows_write_type_conversion (current_type target_type : CubentType)
    (function_storage : str) (w : World) :
  grows w (snd (write_type_conversion current_type target_type function_storage w)).
Proof. unfold write_type_conversion. repeat grows_step. Qed.

Lemma grows_call_parameters (function_storage : str) (context : Context)
    (parameters : dict CubentType) :
  forall (stack : Stack) (w : World),
    grows w (snd (call_parameters function_storage context parameters stack w)).
Proof.
  induction parameters as [|[name parameter_type] parameters IH]; intros stack w.
  - apply grows_refl.
  - cbn [call_parameters]. repeat grows_step;
      solve [apply grows_write_type_conversion | apply IH].
Qed.

Lemma grows_write_command (functions : list Function) (build_uuid : str)
    (internal_directory : Path) :
  forall (operation : Operation) (function_storage : str) (path : list str)
         (context : Context) (state : Stack * Scope) (w : World),
    grows w (snd (write_command functions build_uuid internal_directory
                    function_storage path operation context state w)).
Proof.
  fix IH 1. intros operation function_storage path context [stack scope] w.
  destruct operation; cbn [write_command];
    try (repeat grows_step;
         solve [apply grows_write_type_conversion | apply grows_call_parameters]).
  (* DO_IF *)
  apply grows_bind_io; [intros; apply grows_lift|]. intros [object_type stack1] w1.
  apply grows_bind_io; [intros; apply grows_write_type_conversion|].
  intros converted w2.
  destruct converted; [|apply grows_lift]. cbn [negb].
  apply grows_bind_io; [intros; apply grows_uuid4|]. intros name w3.
  apply grows_bind_io; [|intros; repeat grows_step].
  apply grows_with_open_w. intros w4.
  apply grows_bind_io; [intros; apply grows_lift|]. intros helper_storage.
  apply grows_bind_io; [intros; apply grows_write|]. intros _.
  generalize (@nil CubentType, @nil (str * CubentType) :: scope).
  generalize path.
  induction block as [|[context' operation'] block IHblock]; intros path' state w5.
  - apply grows_refl.
  - apply grows_bind_io; [intros w6; apply IH | intros state' w6; apply IHblock].
Qed.

Lemma grows_write_loop (functions : list Function) (build_uuid : str)
    (internal_directory : Path) (function_storage : str) (commands : list Command) :
  forall (path : list str) (state : Stack * Scope) (w : World),
    grows w (snd (write_loop functions build_uuid internal_directory
                    function_storage path commands state w)).
Proof.
  induction commands as [|[context op] commands IH]; intros path state w.
  - apply grows_refl.
  - cbn [write_loop]. apply grows_bind_io; [intros; apply grows_write_command|].
    intros state' w1. apply IH.
Qed.

(** Writing a function changes nothing that was there: it adds calls to
    the file system and draws identifiers, and it leaves the text of the
    file that is open around it as it was. *)
Lemma grows_write_cubent_function (functions : list Function) (build_uuid : str)
    (path : list str) (commands : list Command) (parameters : dict CubentType)
    (mcfunction_filename internal_directory : Path) (scope : Scope) (w : World) :
  grows w (snd (write_cubent_function functions build_uuid path
                  commands parameters mcfunction_filename internal_directory scope w)).
Proof.
  unfold write_cubent_function. apply grows_with_open_w. intros w1.
  unfold write_commands. repeat grows_step. apply grows_write_loop.
Qed.

Lemma made_grows (p : Path) (w w' : World) :
  grows w w' -> made p (trace w) = true -> made p (trace w') = true.
Proof.
  intros ((calls & Ht) & _) H. unfold made in *.
  rewrite Ht, existsb_app, H. apply orb_true_r.
Qed.

Lemma is_prefix_refl (p : Path) : is_prefix p p = true.
Proof. induction p as [|x p IH]; simpl; [reflexivity|]. now rewrite str_eqb_refl. Qed.

(** ** The types on the stack *)

Lemma literal_type_value (v : Literal) : value_type (literal_type v) = true.
Proof. now destruct v. Qed.

Lemma dict_set_value (variables : dict CubentType) (name : str) (t : CubentType) :
  Forall (fun variable => value_type (snd variable) = true) variables ->
  value_type t = true ->
  Forall (fun variable => value_type (snd variable) = true) (dict_set variables name t).
Proof.
  intros Hall Ht. induction variables as [|[k v] variables IH]; simpl.
  - now repeat constructor.
  - inversion Hall; subst.
    destruct (str_eqb name k); constructor; auto.
Qed.

Lemma dict_get_value (variables : dict CubentType) (name : str) (t : CubentType) :
  Forall (fun variable => value_type (snd variable) = true) variables ->
  dict_get variables name = Some t -> value_type t = true.
Proof.
  intros Hall. induction variables as [|[k v] variables IH]; simpl; [discriminate|].
  inversion Hall; subst.
  destruct (str_eqb name k); [intros [= <-]; assumption | auto].
Qed.

Lemma get_variable_value (scope : Scope) (name : str) (t : CubentType) :
  value_scope scope -> get_variable scope name = Some t -> value_type t = true.
Proof.
  intros Hall. induction scope as [|variables scope IH]; simpl; [discriminate|].
  inversion Hall; subst.
  destruct (dict_get variables name) as [t'|] eqn:Hget.
  - intros [= <-]. eapply dict_get_value; eauto.
  - auto.
Qed.

Lemma declare_variable_value (scope scope' : Scope) (name : str) (t : CubentType) :
  value_scope scope -> value_type t = true ->
  declare_variable scope name t = Some scope' -> value_scope scope'.
Proof.
  intros Hall Ht. destruct scope as [|variables scope]; [discriminate|]. simpl.
  destruct (dict_has variables name); [discriminate|]. intros [= <-].
  inversion Hall; subst. constructor; [now apply dict_set_value | assumption].
Qed.

Lemma write_command_value_types (functions : list Function) (build_uuid : str)
    (internal_directory : Path) (function_storage : str) (path : list str)
    (operation : Operation)
    (context : Context) (stack stack' : Stack) (scope scope' : Scope) (w w' : World) :
  write_command functions build_uuid internal_directory function_storage path
    operation context (stack, scope) w = (Ok (stack', scope'), w') ->
  value_stack stack -> value_scope scope ->
  value_stack stack' /\ value_scope scope'.
Proof.
  intros H Hstack Hscope. unfold value_stack in *.
  destruct operation; cbn [write_command] in H.
  - (* LOAD *)
    apply bind_io_ok in H as (raw & w0 & _ & H).
    apply bind_io_ok in H as ([] & w1 & _ & H). injection H as <- <- _.
    split; [constructor; [apply literal_type_value | assumption] | assumption].
  - (* DECLARE_VAR *)
    apply bind_io_ok in H as ([variable_type stack1] & w1 & Hpop & H).
    apply lift_ok in Hpop as [Hpop ->]. apply pop_ok in Hpop. subst stack.
    inversion Hstack; subst.
    destruct (declare_variable scope name variable_type) as [scope1|] eqn:Hdeclare.
    + injection H as <- <- _. split; [assumption|].
      eapply declare_variable_value; eauto.
    + unfold emit_error, lift in H. injection H as H _.
      exfalso. exact (error_not_ok _ _ _ H).
  - (* GET_VAR *)
    destruct (get_variable scope name) as [variable_type|] eqn:Hget.
    + apply bind_io_ok in H as ([] & w1 & _ & H). injection H as <- <- _.
      split; [|assumption]. constructor; [|assumption].
      eapply get_variable_value; eauto.
    + unfold emit_error, lift in H. injection H as H _.
      exfalso. exact (error_not_ok _ _ _ H).
  - (* SET_VAR *)
    apply bind_io_ok in H as ([object_type stack1] & w1 & Hpop & H).
    apply lift_ok in Hpop as [Hpop ->]. apply pop_ok in Hpop. subst stack.
    inversion Hstack; subst.
    destruct (get_variable scope name) as [variable_type|].
    + destruct (negb (CubentType_eqb variable_type object_type)).
      * apply bind_io_ok in H as (p1 & w2 & _ & H).
        apply bind_io_ok in H as (p2 & w3 & _ & H).
        unfold emit_error, lift in H. injection H as H _.
        exfalso. exact (error_not_ok _ _ _ H).
      * apply bind_io_ok in H as ([] & w2 & _ & H). injection H as <- <- _.
        split; assumption.
    + unfold emit_error, lift in H. injection H as H _.
      exfalso. exact (error_not_ok _ _ _ H).
  - (* GET_PROP *)
    apply bind_io_ok in H as ([object_type stack1] & w1 & _ & H). discriminate H.
  - (* SET_PROP *)
    apply bind_io_ok in H as ([object_type stack1] & w1 & _ & H). discriminate H.
  - (* CALL *)
    apply bind_io_ok in H as ([] & w1 & _ & H).
    destruct (find_function functions _) as [target_function|].
    + apply bind_io_ok in H as (stack1 & w2 & Hcall & H).
      apply call_parameters_pops in Hcall as (popped & -> & _ & _).
      apply bind_io_ok in H as ([] & w3 & _ & H). injection H as <- <- _.
      apply Forall_app in Hstack as [_ Hstack]. split; assumption.
    + unfold emit_error, lift in H. injection H as H _.
      exfalso. exact (error_not_ok _ _ _ H).
  - (* GET_ARG *)
    discriminate H.
  - (* DO_IF *)
    apply bind_io_ok in H as ([object_type stack1] & w1 & Hpop & H).
    apply lift_ok in Hpop as [Hpop ->]. apply pop_ok in Hpop. subst stack.
    inversion Hstack; subst.
    apply bind_io_ok in H as (converted & w2 & _ & H).
    destruct converted; [|discriminate H]. cbn [negb] in H.
    apply bind_io_ok in H as (name & w3 & _ & H).
    apply bind_io_ok in H as (inner & w4 & _ & H).
    apply bind_io_ok in H as (directory & w5 & _ & H).
    apply bind_io_ok in H as ([] & w6 & _ & H). injection H as <- <- _.
    split; assumption.
  - (* ADD *)
    apply bind_io_ok in H as ([second_type stack1] & w1 & Hpop & H).
    apply lift_ok in Hpop as [Hpop ->]. apply pop_ok in Hpop. subst stack.
    apply bind_io_ok in H as ([first_type stack2] & w2 & Hpop & H).
    apply lift_ok in Hpop as [Hpop ->]. apply pop_ok in Hpop. subst stack1.
    inversion Hstack as [|? ? _ Hstack1]; subst.
    inversion Hstack1; subst.
    apply bind_io_ok in H as (p1 & w3 & _ & H).
    apply bind_io_ok in H as (p2 & w4 & _ & H).
    cbv zeta in H.
    destruct (negb _ || negb _).
    + apply bind_io_ok in H as (n1 & w5 & _ & H).
      apply bind_io_ok in H as (n2 & w6 & _ & H).
      unfold emit_error, lift in H. injection H as H _.
      exfalso. exact (error_not_ok _ _ _ H).
    + apply bind_io_ok in H as ([] & w5 & _ & H). injection H as <- <- _.
      split; [constructor; [reflexivity | assumption] | assumption].
  - (* SUB *) injection H as <- <- _. split; assumption.
  - (* DIV *) injection H as <- <- _. split; assumption.
  - (* MUL *) injection H as <- <- _. split; assumption.
  - (* EQ *)
    apply bind_io_ok in H as ([t1 stack1] & w1 & Hpop & H).
    apply lift_ok in Hpop as [Hpop ->]. apply pop_ok in Hpop. subst stack.
    apply bind_io_ok in H as ([t2 stack2] & w2 & Hpop & H).
    apply lift_ok in Hpop as [Hpop ->]. apply pop_ok in Hpop. subst stack1.
    inversion Hstack as [|? ? _ Hstack1]; subst.
    inversion Hstack1; subst.
    apply bind_io_ok in H as ([] & w3 & _ & H). injection H as <- <- _.
    split; [constructor; [reflexivity | assumption] | assumption].
  - (* NEQ *) injection H as <- <- _. split; assumption.
  - (* OR *) injection H as <- <- _. split; assumption.
  - (* AND *) injection H as <- <- _. split; assumption.
Qed.

Lemma write_loop_value_types (functions : list Function) (build_uuid : str)
    (internal_directory : Path) (function_storage : str) (commands : list Command) :
  forall (path : list str) (stack stack' : Stack) (scope scope' : Scope)
         (w w' : World),
    write_loop functions build_uuid internal_directory function_storage path
      commands (stack, scope) w = (Ok (stack', scope'), w') ->
    value_stack stack -> value_scope scope ->
    value_stack stack' /\ value_scope scope'.
Proof.
  induction commands as [|[context op] commands IH];
    intros path stack stack' scope scope' w w' H Hstack Hscope.
  - injection H as <- <- _. split; assumption.
  - cbn [write_loop] in H.
    apply bind_io_ok in H as ([stack1 scope1] & w1 & Hfirst & H).
    destruct (write_command_value_types _ _ _ _ _ _ _ _ _ _ _ _ _ Hfirst Hstack Hscope)
      as [Hstack1 Hscope1].
    exact (IH _ _ _ _ _ _ _ H Hstack1 Hscope1).
Qed.

(** X15 — The compile-time stack of the emitter holds only types of values:
    when the commands of a function have been written, in a scope of
    such types, no [Void] and no [Any] is on the stack that is left. *)
Theorem stack_holds_value_types (functions : list Function) (build_uuid : str)
    (path : list str) (commands : list Command) (parameters : dict CubentType)
    (internal_directory : Path) (scope : Scope) (w w' : World) (stack : Stack) :
  write_commands functions build_uuid path commands parameters internal_directory
    scope w = (Ok stack, w') ->
  value_scope scope ->
  value_stack stack.
Proof.
  intros H Hscope. unfold write_commands in H.
  apply bind_io_ok in H as (function_storage & w1 & _ & H).
  apply bind_io_ok in H as ([] & w2 & _ & H).
  apply bind_io_ok in H as ([stack1 scope1] & w3 & Hloop & H).
  injection H as <- _.
  exact (proj1 (write_loop_value_types _ _ _ _ _ _ _ _ _ _ _ _ Hloop
                  (Forall_nil _) Hscope)).
Qed.

(** ** The helper function of an [if] *)



(** ** One function per namespace *)

Lemma grows_copy_mcfunction (source_path : list Path) (namespace : str)
    (path : list str) (function_directory : Path) :
  forall w, grows w (snd (copy_mcfunction source_path namespace path
                            function_directory w)).
Proof.
  induction source_path as [|directory source_path IH]; intros w.
  - apply grows_refl.
  - cbn [copy_mcfunction]. repeat grows_step; try apply IH.
Qed.

Lemma made_after_makedirs (p : Path) (w w' : World) :
  makedirs p w = (Ok tt, w') ->
  made p (trace w) = false /\ made p (trace w') = true /\ grows w w'.
Proof.
  intros H. pose proof (grows_makedirs p w) as Hg. rewrite H in Hg.
  revert H. unfold makedirs. destruct (made p (trace w)) eqn:Hmade; [discriminate|].
  unfold call. intros [= <-]. split; [reflexivity|]. split; [|exact Hg].
  simpl. now rewrite is_prefix_refl.
Qed.

Lemma write_functions_namespaces (all_functions : list Function)
    (source_path : list Path) (out : Path) (build_uuid : str)
    (internal_directory : Path) (functions : list Function) :
  forall (w w' : World),
    write_functions all_functions source_path out build_uuid internal_directory
      functions w = (Ok tt, w') ->
    NoDup (user_namespaces functions)
    /\ forall namespace,
         In namespace (user_namespaces functions) ->
         made (namespace_directory out namespace) (trace w) = false.
Proof.
  induction functions as [|f functions IH]; intros w w' H.
  - split; [constructor | intros namespace []].
  - destruct f as [path parameters return_type commands
                  | path parameters return_type location].
    + cbn [write_functions] in H.
      apply bind_io_ok in H as ([] & w1 & Hmake & H).
      apply bind_io_ok in H as (stack & w2 & Hwrite & H).
      apply made_after_makedirs in Hmake as (Hbefore & Hafter & Hmade).
      fold (namespace_directory out (removelast path)) in Hbefore, Hafter.
      assert (Hgrows : grows w1 w2).
      { pose proof (grows_write_cubent_function all_functions build_uuid path commands
                      parameters
                      (namespace_directory out (removelast path)
                         ++ [last path [] ++ S_ ".mcfunction"])
                      internal_directory [[]] w1) as Hg.
        unfold namespace_directory in Hg. rewrite Hwrite in Hg. exact Hg. }
      pose proof (made_grows _ _ _ Hgrows Hafter) as Hafter2.
      destruct (IH _ _ H) as [Hnodup Hfresh].
      cbn [user_namespaces flat_map user_namespace app].
      fold (user_namespaces functions).
      split.
      * constructor; [|exact Hnodup].
        intros Hin. apply Hfresh in Hin. congruence.
      * intros namespace [<- | Hin]; [exact Hbefore|].
        apply Hfresh in Hin.
        destruct (made (namespace_directory out namespace) (trace w)) eqn:Hm;
          [|reflexivity].
        rewrite (made_grows _ _ _ (grows_trans _ _ _ Hmade Hgrows) Hm) in Hin.
        discriminate.
    + cbn [write_functions] in H.
      apply bind_io_ok in H as ([namespace path'] & w1 & Hsplit & H).
      apply lift_ok in Hsplit as [_ ->].
      apply bind_io_ok in H as ([] & w2 & Hmake & H).
      apply bind_io_ok in H as ([] & w3 & Hcopy & H).
      destruct (IH _ _ H) as [Hnodup Hfresh].
      cbn [user_namespaces flat_map user_namespace app].
      fold (user_namespaces functions).
      split; [exact Hnodup|].
      intros ns Hin. apply Hfresh in Hin.
      destruct (made (namespace_directory out ns) (trace w)) eqn:Hm; [|reflexivity].
      assert (Hw : grows w w3).
      { apply grows_trans with w2.
        - now apply made_after_makedirs in Hmake.
        - pose proof (grows_copy_mcfunction source_path namespace
                        (split_slash [] path')
                        (out ++ [S_ "data"; namespace; S_ "functions"]
                         ++ removelast (split_slash [] path')) w2) as Hg.
          now rewrite Hcopy in Hg. }
      rewrite (made_grows _ _ _ Hw Hm) in Hin. discriminate.
Qed.

(** X16 — A compilation that returns [True] has written at most one function
    of the user per namespace: the directory of a namespace is made
    anew for each of its functions, and the second [os.makedirs] of the
    same directory raises [FileExistsError]. *)
Theorem compile_namespaces_distinct (functions : list Function)
    (source_path : list Path) (out : Path) (mcversion : MinecraftVersion)
    (icon : Path) (description : str) (w w' : World) (functions' : list Function) :
  compile functions source_path out mcversion icon description w = (Ok functions', w') ->
  NoDup (user_namespaces functions').
Proof.
  unfold compile.
  destruct (MinecraftVersion_lt mcversion MINIMAL_VERSION); [discriminate|].
  intros H.
  apply bind_io_ok in H as ([] & w1 & _ & H).
  apply bind_io_ok in H as ([] & w2 & _ & H).
  apply bind_io_ok in H as ([] & w3 & _ & H).
  apply bind_io_ok in H as (functions1 & w4 & _ & H).
  apply bind_io_ok in H as (build_uuid & w5 & _ & H).
  apply bind_io_ok in H as ([] & w6 & _ & H).
  apply bind_io_ok in H as ([] & w7 & _ & H).
  apply bind_io_ok in H as ([] & w8 & _ & H).
  apply bind_io_ok in H as ([] & w9 & Hwrite & H).
  injection H as <- _.
  exact (proj1 (write_functions_namespaces _ _ _ _ _ _ _ _ Hwrite)).
Qed.

(** ** The output directory *)

Lemma grows_compile_files (directory : Path) (filenames : list str) :
  forall (functions : list Function) (w : World),
    grows w (snd (compile_files directory filenames functions w)).
Proof.
  induction filenames as [|filename filenames IH]; intros functions w.
  - apply grows_refl.
  - cbn [compile_files]. repeat grows_step; try apply IH.
Qed.

Lemma grows_compile_sources (source_path : list Path) :
  forall (functions : list Function) (w : World),
    grows w (snd (compile_sources source_path functions w)).
Proof.
  induction source_path as [|directory source_path IH]; intros functions w.
  - apply grows_refl.
  - cbn [compile_sources]. repeat grows_step;
      solve [apply grows_compile_files | apply IH].
Qed.

Lemma grows_write_functions (all_functions : list Function) (source_path : list Path)
    (out : Path) (build_uuid : str) (internal_directory : Path)
    (functions : list Function) :
  forall w : World,
    grows w (snd (write_functions all_functions source_path out build_uuid
                    internal_directory functions w)).
Proof.
  induction functions as [|f functions IH]; intros w.
  - apply grows_refl.
  - destruct f; cbn [write_functions]; repeat grows_step;
      solve [apply grows_write_cubent_function | apply grows_copy_mcfunction
            | apply IH].
Qed.

(** X17 — Once the version is accepted, [compile] begins by removing the
    output directory, when there is one, and making it anew, whatever
    becomes of the compilation afterwards: the calls it makes are those,
    after the calls made before, and then any others. *)
Theorem output_directory_wiped_first (functions : list Function)
    (source_path : list Path) (out : Path) (mcversion : MinecraftVersion)
    (icon : Path) (description : str) (w : World) :
  MinecraftVersion_lt mcversion MINIMAL_VERSION = false ->
  exists later,
    trace (snd (compile functions source_path out mcversion icon description w))
    = later ++ [io_makedirs out]
      ++ (if host_exists out then [io_rmtree out] else [])
      ++ [io_exists out] ++ trace w.
Proof.
  intros Hgate. unfold compile. rewrite Hgate.
  unfold bind_io at 1. cbn [call].
  set (w1 := mkWorld (io_exists out :: trace w) (uuids w) (buffer w)).
  unfold bind_io at 1.
  set (w2 := mkWorld ((if host_exists out then [io_rmtree out] else [])
                      ++ io_exists out :: trace w) (uuids w) (buffer w)).
  assert (Hw2 : (if host_exists out then call (io_rmtree out) else ret tt) w1
                = (Ok tt, w2)).
  { subst w1 w2. destruct (host_exists out); reflexivity. }
  rewrite Hw2.
  unfold bind_io at 1. cbn [call].
  set (w3 := mkWorld (io_makedirs out :: trace w2) (uuids w2) (buffer w2)).
  match goal with
  | |- exists later, trace (snd (?rest w3)) = _ =>
      assert (Hrest : grows w3 (snd (rest w3)))
  end.
  { repeat grows_step;
      solve [apply grows_compile_sources | apply grows_write_functions]. }
  destruct Hrest as ((later & Hlater) & _).
  exists later. rewrite Hlater. subst w3 w2. simpl. reflexivity.
Qed.

(** X18 — A source path that is no directory ends the compilation with
    [False] and without a message, after the output directory was
    removed and made anew. *)
Theorem missing_source_directory (functions : list Function) (directory : Path)
    (source_path : list Path) (out : Path) (mcversion : MinecraftVersion)
    (icon : Path) (description : str) (w : World) :
  MinecraftVersion_lt mcversion MINIMAL_VERSION = false ->
  host_isdir directory = false ->
  compile functions (directory :: source_path) out mcversion icon description w
  = (Fail None,
     mkWorld (io_isdir directory :: io_makedirs out
              :: (if host_exists out then [io_rmtree out] else [])
              ++ io_exists out :: trace w)
       (uuids w) (buffer w)).
Proof.
  intros Hgate Hdir. unfold compile. rewrite Hgate.
  cbn [compile_sources]. unfold bind_io, call, lift, ret. rewrite Hdir.
  destruct (host_exists out); reflexivity.
Qed.

(** ** Versions *)

Lemma split_dots_last (ds : str) :
  forall cur, ch_in "." ds = false -> split_dots cur ds = [cur ++ ds].
Proof.
  induction ds as [|d ds IH]; intros cur H; simpl.
  - now rewrite app_nil_r.
  - cbn [ch_in existsb] in H. apply orb_false_iff in H as [Hd Hds].
    rewrite Ascii.eqb_sym in Hd. rewrite Hd.
    rewrite (IH (cur ++ [d]) Hds), <- app_assoc. reflexivity.
Qed.

Lemma split_dots_part (ds rest : str) :
  forall cur,
    ch_in "." ds = false ->
    split_dots cur (ds ++ "." :: rest) = (cur ++ ds) :: split_dots [] rest.
Proof.
  induction ds as [|d ds IH]; intros cur H; simpl.
  - now rewrite app_nil_r.
  - cbn [ch_in existsb] in H. apply orb_false_iff in H as [Hd Hds].
    rewrite Ascii.eqb_sym in Hd. rewrite Hd.
    rewrite (IH (cur ++ [d]) Hds), <- app_assoc. reflexivity.
Qed.

Lemma str_of_Z_digits (z : Z) :
  (0 <= z)%Z ->
  forallb isdecimal (str_of_Z z) = true
  /\ str_of_Z z <> []
  /\ int_digits (str_of_Z z) = z.
Proof.
  intros Hz. unfold str_of_Z.
  destruct (Z.ltb_spec z 0) as [Hneg | _]; [lia|].
  destruct (str_of_N_spec (Z.to_N z)) as (Hd & Hne & Hv).
  repeat split; try assumption. rewrite Hv. lia.
Qed.

(** What [format_int] returns for a number that is not negative is read
    back by [int], is made of digits and holds no dot. *)
Lemma format_int_read (z : Z) (s : str) :
  (0 <= z)%Z -> format_int z = Ok s ->
  int s = Some z /\ str_isdigit s = true /\ ch_in "." s = false.
Proof.
  intros Hz. unfold format_int.
  destruct (Nat.leb_spec (List.length (str_of_N (Z.abs_N z))) MAX_STR_DIGITS)
    as [Hlen | Hlen]; [|discriminate].
  intros [= <-].
  destruct (str_of_Z_digits z Hz) as (Hd & Hne & Hv).
  assert (Hsame : str_of_Z z = str_of_N (Z.abs_N z)).
  { unfold str_of_Z. destruct (Z.ltb_spec z 0) as [Hneg | _]; [lia|].
    f_equal. destruct z; try reflexivity. lia. }
  rewrite <- Hsame in Hlen.
  repeat split.
  - now rewrite (int_of_digits _ Hne Hd Hlen), Hv.
  - unfold str_isdigit. destruct (str_of_Z z); [contradiction|].
    now apply decimals_digits.
  - apply digits_no_char; [reflexivity | now apply decimals_digits].
Qed.

(** A number below the power of ten of the limit has no more digits
    than the limit. *)
Lemma format_int_returns (z : Z) :
  (0 <= z < 10 ^ Z.of_nat MAX_STR_DIGITS)%Z -> format_int z = Ok (str_of_Z z).
Proof.
  intros [Hz Hmax]. unfold format_int.
  assert (Hlen : List.length (str_of_N (Z.abs_N z)) <= MAX_STR_DIGITS).
  { apply (str_of_N_length (Z.abs_N z) (pred MAX_STR_DIGITS)).
    replace (S (pred MAX_STR_DIGITS)) with MAX_STR_DIGITS by reflexivity.
    apply N2Z.inj_lt. rewrite N2Z.inj_abs_N, N2Z.inj_pow, nat_N_Z.
    rewrite Z.abs_eq by exact Hz. exact Hmax. }
  apply Nat.leb_le in Hlen. now rewrite Hlen.
Qed.

Lemma small_below_limit (z : Z) :
  (0 <= z < 100)%Z -> (0 <= z < 10 ^ Z.of_nat MAX_STR_DIGITS)%Z.
Proof.
  intros [Hz Hsmall]. split; [exact Hz|].
  apply Z.lt_le_trans with (10 ^ 2)%Z; [simpl; lia|].
  apply Z.pow_le_mono_r; [lia|].
  apply Z.leb_le. vm_compute. reflexivity.
Qed.

(** X19 — [MinecraftVersion.parse] reads back the text that [str] gives for
    a version of three numbers that are not negative and have at most
    4300 digits each, which [str] formats without an error: two numbers
    when the third is zero, all three otherwise. *)
Theorem version_parse_str (v : MinecraftVersion) :
  (0 <= major v < 10 ^ Z.of_nat MAX_STR_DIGITS)%Z ->
  (0 <= minor v < 10 ^ Z.of_nat MAX_STR_DIGITS)%Z ->
  (0 <= phase v < 10 ^ Z.of_nat MAX_STR_DIGITS)%Z ->
  exists text,
    MinecraftVersion_str v = Ok text
    /\ MinecraftVersion_parse text = Ok (Some v).
Proof.
  destruct v as [a b c]. cbn [major minor phase]. intros Ha Hb Hc.
  unfold MinecraftVersion_parse, MinecraftVersion_str. cbn [major minor phase].
  pose proof (format_int_returns a Ha) as Hfa.
  pose proof (format_int_returns b Hb) as Hfb.
  pose proof (format_int_returns c Hc) as Hfc.
  destruct (format_int_read a _ (proj1 Ha) Hfa) as (Hia & Hda & Hna).
  destruct (format_int_read b _ (proj1 Hb) Hfb) as (Hib & Hdb & Hnb).
  destruct (format_int_read c _ (proj1 Hc) Hfc) as (Hic & Hdc & Hnc).
  rewrite Hfa, Hfb, Hfc. cbn [bind].
  destruct (Z.eqb_spec c 0) as [-> | Hne]; eexists; (split; [reflexivity|]).
  - change (S_ ".") with ["."%char]. cbn [app].
    rewrite (split_dots_part _ _ [] Hna).
    rewrite (split_dots_last _ [] Hnb).
    cbn [app parse_numbers]. rewrite Hda, Hdb, Hia, Hib. reflexivity.
  - change (S_ ".") with ["."%char]. cbn [app].
    rewrite (split_dots_part _ _ [] Hna).
    rewrite (split_dots_part _ _ [] Hnb).
    rewrite (split_dots_last _ [] Hnc).
    cbn [app parse_numbers]. rewrite Hda, Hdb, Hdc, Hia, Hib, Hic. reflexivity.
Qed.

(** X20 — The comparisons of versions agree with each other: [>] is [<] with
    the sides exchanged, and so is [>=] for [<=]; [!=] is the negation
    of [==]; and two versions are equal exactly when neither is below
    the other. *)
Theorem version_comparisons (a b : MinecraftVersion) :
  MinecraftVersion_gt a b = MinecraftVersion_lt b a
  /\ MinecraftVersion_ge a b = MinecraftVersion_le b a
  /\ MinecraftVersion_ne a b = negb (MinecraftVersion_eq a b)
  /\ MinecraftVersion_eq a b
     = negb (MinecraftVersion_lt a b) && negb (MinecraftVersion_lt b a).
Proof.
  unfold MinecraftVersion_ge, MinecraftVersion_le.
  unfold MinecraftVersion_gt, MinecraftVersion_ne, MinecraftVersion_eq,
    MinecraftVersion_lt.
  rewrite !Z.gtb_ltb.
  destruct (Z.ltb_spec (major a) (major b)), (Z.ltb_spec (major b) (major a)),
    (Z.eqb_spec (major a) (major b)), (Z.eqb_spec (major b) (major a)); try lia;
    destruct (Z.ltb_spec (minor a) (minor b)), (Z.ltb_spec (minor b) (minor a)),
      (Z.eqb_spec (minor a) (minor b)), (Z.eqb_spec (minor b) (minor a)); try lia;
    destruct (Z.ltb_spec (phase a) (phase b)), (Z.ltb_spec (phase b) (phase a)),
      (Z.eqb_spec (phase a) (phase b)), (Z.eqb_spec (phase b) (phase a)); try lia;
    repeat split; reflexivity.
Qed.

(** ** The commands the parser writes *)

Section Grammar.

Variable context : Context.
Variable imports : Imports.
Variable parameters : dict CubentType.

Lemma rounds_ir_app (a b : list Command) :
  rounds_ir context parameters a -> rounds_ir context parameters b ->
  rounds_ir context parameters (a ++ b).
Proof.
  intros Ha Hb. induction Ha as [|operand body op position rounds Hop Hbody Hr IH].
  - exact Hb.
  - rewrite <- app_assoc. cbn [app]. now apply rounds_more with (body := body).
Qed.

(** What each function of the expression parser appends. *)
Lemma expression_grammar (fuel : nat) :
  (forall lexer commands lexer' commands',
      compile_function_call context imports parameters fuel lexer commands
      = Ok (lexer', commands') ->
      exists arguments argc position path,
        commands' = commands ++ arguments
                    ++ [(at_position context position, CALL path argc)]
        /\ arguments_ir context parameters arguments argc)
  /\ (forall lexer commands argc lexer' commands' argc',
        call_arguments context imports parameters fuel lexer commands argc
        = Ok (lexer', commands', argc') ->
        exists new more,
          commands' = commands ++ new /\ argc' = argc + more
          /\ arguments_ir context parameters new more)
  /\ (forall lexer commands lexer' commands',
        compile_expression context imports parameters fuel lexer commands
        = Ok (lexer', commands') ->
        exists new, commands' = commands ++ new
                    /\ expression_ir context parameters new)
  /\ (forall lexer commands precedence lexer' commands',
        compile_operation context imports parameters fuel lexer commands precedence
        = Ok (lexer', commands') ->
        exists new, commands' = commands ++ new /\ rounds_ir context parameters new)
  /\ (forall lexer commands lexer' commands',
        compile_primary context imports parameters fuel lexer commands
        = Ok (lexer', commands') ->
        exists new, commands' = commands ++ new /\ operand_ir context parameters new).
Proof.
  induction fuel as [|fuel (IHcall & IHargs & IHexpr & IHop & IHprim)].
  { repeat split; intros; discriminate. }
  repeat split.
  - (* compile_function_call *)
    intros lexer commands lexer' commands' H.
    rewrite compile_function_call_S in H.
    apply bind_ok in H as ([lexeme lexer1] & _ & H).
    destruct (match lx_body lexeme with
              | Some name => dict_get imports name
              | None => None
              end) as [path|]; [|exfalso; exact (error_not_ok _ _ _ H)].
    cbv zeta in H.
    apply bind_ok in H as ([lexeme2 lexer2] & _ & H).
    destruct (negb _); [exfalso; exact (error_not_ok _ _ _ H)|].
    apply bind_ok in H as ([[lexer3 commands3] argc] & Hargs & H).
    apply IHargs in Hargs as (new & more & -> & -> & Hnew).
    apply bind_ok in H as ([lexeme4 lexer4] & _ & H).
    destruct (negb _); [exfalso; exact (error_not_ok _ _ _ H)|].
    inversion H; subst.
    exists new, more, (lx_position lexeme), path.
    split; [symmetry; apply app_assoc | exact Hnew].
  - (* call_arguments *)
    intros lexer commands argc lexer' commands' argc' H.
    rewrite call_arguments_S in H.
    apply bind_ok in H as (la & _ & H).
    destruct (negb _).
    + apply bind_ok in H as ([lexer1 commands1] & Hexpr & H).
      apply IHexpr in Hexpr as (new & -> & Hnew).
      cbv zeta in H.
      apply bind_ok in H as (la2 & _ & H).
      destruct (body_is _ _).
      * apply bind_ok in H as ([comma lexer2] & _ & H).
        apply IHargs in H as (new' & more & -> & -> & Hnew').
        exists (new ++ new'), (S more).
        split; [symmetry; apply app_assoc|]. split; [lia|].
        now apply arguments_more.
      * inversion H; subst. exists (new ++ []), 1.
        split; [now rewrite app_nil_r|]. split; [reflexivity|].
        apply arguments_more; [exact Hnew | apply arguments_none].
    + inversion H; subst. exists [], 0.
      split; [now rewrite app_nil_r|]. split; [lia | apply arguments_none].
  - (* compile_expression *)
    intros lexer commands lexer' commands' H.
    rewrite compile_expression_S in H.
    apply bind_ok in H as ([lexer1 commands1] & Hprim & H).
    apply IHprim in Hprim as (new & -> & Hnew).
    apply IHop in H as (new' & -> & Hnew').
    eexists. split; [symmetry; apply app_assoc|].
    now apply expression_rounds.
  - (* compile_operation *)
    intros lexer commands precedence lexer' commands' H.
    rewrite compile_operation_S in H.
    apply bind_ok in H as (lexeme & _ & H).
    destruct (match lx_body lexeme with
              | Some b => str_in b (operators_from precedence)
              | None => false
              end).
    + apply bind_ok in H as ([operator lexer1] & _ & H).
      apply bind_ok in H as ([lexer2 commands2] & Hprim & H).
      apply IHprim in Hprim as (new & -> & Hnew).
      destruct (dict_get operations (body_str operator)) as [op|] eqn:Hop;
        [|discriminate].
      cbv zeta in H.
      apply bind_ok in H as ([lexer3 commands3] & Hinner & H).
      apply IHop in Hinner as (inner & -> & Hinner).
      apply IHop in H as (rest & -> & Hrest).
      exists (new ++ (at_position context (lx_position operator), op)
                :: (inner ++ rest)).
      split.
      * rewrite <- !app_assoc. reflexivity.
      * apply rounds_more with (body := body_str operator); auto.
        now apply rounds_ir_app.
    + inversion H; subst. exists []. split; [now rewrite app_nil_r|].
      apply rounds_none.
  - (* compile_primary *)
    intros lexer commands lexer' commands' H.
    rewrite compile_primary_S in H.
    apply bind_ok in H as (lexeme & _ & H).
    destruct (type_is lexeme IDENTIFIER && lexeme_in_imports imports lexeme).
    + apply IHcall in H as (arguments & argc & position & path & -> & Harguments).
      eexists. split; [reflexivity|]. now apply operand_call.
    + apply bind_ok in H as (command & Hcommand & H).
      apply bind_ok in H as ([consumed lexer1] & _ & H).
      inversion H; subst.
      exists [command]. split; [reflexivity|].
      now apply operand_primary with (lexeme := lexeme).
Qed.

(** What a statement, and a run of statements, appends. *)
Lemma statement_grammar (fuel : nat) :
  (forall lexer commands lexer' commands',
      compile_statement context imports parameters fuel lexer commands
      = Ok (lexer', commands') ->
      exists new, commands' = commands ++ new /\ statement_ir context parameters new)
  /\ (forall lexer commands lexer' commands',
        compile_statements context imports parameters fuel lexer commands
        = Ok (lexer', commands') ->
        exists new, commands' = commands ++ new
                    /\ statements_ir context parameters new).
Proof.
  induction fuel as [|fuel [IHstatement IHstatements]].
  { split; intros; discriminate. }
  destruct (expression_grammar fuel) as (Hcalls & _ & Hexprs & _ & _).
  split.
  - intros lexer commands lexer' commands' H.
    rewrite compile_statement_S in H.
    apply bind_ok in H as (lexeme & _ & H).
    destruct (type_is lexeme IDENTIFIER && lexeme_in_imports imports lexeme).
    { (* a call *)
      apply bind_ok in H as ([lexer1 commands1] & Hcall & H).
      apply Hcalls in Hcall as (arguments & argc & position & path & -> & Harguments).
      apply bind_ok in H as ([lexeme2 lexer2] & _ & H).
      destruct (negb _); [exfalso; exact (error_not_ok _ _ _ H)|].
      inversion H; subst. eexists. split; [reflexivity|].
      now apply statement_call. }
    destruct (type_is lexeme IDENTIFIER).
    { (* an assignment *)
      apply bind_ok in H as ([consumed lexer1] & _ & H).
      apply bind_ok in H as ([lexer2 path] & Hpath & H).
      apply assign_path_loop_extends in Hpath as (more & ->).
      apply bind_ok in H as ([lexeme3 lexer3] & _ & H).
      destruct (negb _); [exfalso; exact (error_not_ok _ _ _ H)|].
      apply bind_ok in H as ([lexer4 commands4] & Hexpr & H).
      apply Hexprs in Hexpr as (new & -> & Hnew).
      apply bind_ok in H as ([lexeme5 lexer5] & _ & H).
      destruct (negb _); [exfalso; exact (error_not_ok _ _ _ H)|].
      change ([lexeme] ++ more) with (lexeme :: more) in H.
      remember (assign_commands context (lexeme :: more)) as assigned eqn:Hassigned.
      inversion H; subst lexer' commands'.
      eexists. split; [symmetry; apply app_assoc|].
      rewrite Hassigned. now apply statement_assign. }
    destruct (body_is (lx_body lexeme) "var").
    { (* a declaration *)
      apply bind_ok in H as ([consumed lexer1] & _ & H).
      apply bind_ok in H as ([name lexer2] & _ & H).
      destruct (negb _); [exfalso; exact (error_not_ok _ _ _ H)|].
      apply bind_ok in H as ([lexeme3 lexer3] & _ & H).
      destruct (negb _); [exfalso; exact (error_not_ok _ _ _ H)|].
      apply bind_ok in H as ([lexer4 commands4] & Hexpr & H).
      apply Hexprs in Hexpr as (new & -> & Hnew).
      apply bind_ok in H as ([lexeme5 lexer5] & _ & H).
      destruct (negb _); [exfalso; exact (error_not_ok _ _ _ H)|].
      inversion H; subst.
      eexists. split; [symmetry; apply app_assoc|].
      now apply statement_declare. }
    destruct (body_is (lx_body lexeme) "if").
    { (* a conditional *)
      apply bind_ok in H as ([keyword lexer1] & _ & H).
      apply bind_ok in H as ([lexeme2 lexer2] & _ & H).
      destruct (negb _); [exfalso; exact (error_not_ok _ _ _ H)|].
      apply bind_ok in H as ([lexer3 commands3] & Hexpr & H).
      apply Hexprs in Hexpr as (new & -> & Hnew).
      apply bind_ok in H as ([lexeme4 lexer4] & _ & H).
      destruct (negb _); [exfalso; exact (error_not_ok _ _ _ H)|].
      apply bind_ok in H as ([lexeme5 lexer5] & _ & H).
      destruct (negb _); [exfalso; exact (error_not_ok _ _ _ H)|].
      apply bind_ok in H as ([lexer6 block_commands] & Hblock & H).
      apply IHstatements in Hblock as (block & Hblock & Hir).
      simpl in Hblock. subst block_commands.
      apply bind_ok in H as ([lexeme7 lexer7] & _ & H).
      destruct (negb _); [exfalso; exact (error_not_ok _ _ _ H)|].
      inversion H; subst.
      eexists. split; [symmetry; apply app_assoc|].
      now apply statement_if. }
    exfalso. exact (error_not_ok _ _ _ H).
  - intros lexer commands lexer' commands' H.
    rewrite compile_statements_S in H.
    apply bind_ok in H as (la & _ & H).
    destruct (negb _).
    + apply bind_ok in H as ([lexer1 commands1] & Hstatement & H).
      apply IHstatement in Hstatement as (new & -> & Hnew).
      apply IHstatements in H as (new' & -> & Hnew').
      eexists. split; [symmetry; apply app_assoc|].
      now apply statements_more.
    + inversion H; subst. exists []. split; [now rewrite app_nil_r|].
      apply statements_none.
Qed.


End Grammar.

(** ** The functions the parser declares *)

Lemma join_snoc (sep : str) (parts : list str) (name : str) :
  parts <> [] -> join sep (parts ++ [name]) = join sep parts ++ sep ++ name.
Proof.
  induction parts as [|p parts IH]; [contradiction|]. intros _.
  destruct parts as [|q parts]; [reflexivity|].
  change (join sep ((p :: q :: parts) ++ [name]))
    with (p ++ sep ++ join sep ((q :: parts) ++ [name])).
  rewrite IH by discriminate.
  change (join sep (p :: q :: parts)) with (p ++ sep ++ join sep (q :: parts)).
  now rewrite <- !app_assoc.
Qed.

Lemma namespace_loop_repeats (fuel : nat) :
  forall (lexer lexer' : Lexer) (lexeme : Lexeme) (namespace namespace' : list str),
    namespace_loop fuel lexer lexeme namespace = Ok (lexer', namespace') ->
    exists depth, namespace' = namespace ++ repeat (body_str lexeme) depth.
Proof.
  induction fuel as [|fuel IH]; intros lexer lexer' lexeme namespace namespace' H;
    [discriminate|].
  cbn [namespace_loop] in H.
  apply bind_ok in H as (la & _ & H).
  destruct (body_is _ _).
  - apply bind_ok in H as ([dot lexer1] & _ & H).
    apply IH in H as (depth & ->).
    exists (S depth). now rewrite <- app_assoc.
  - inversion H; subst. exists 0. now rewrite app_nil_r.
Qed.

Lemma dict_keys_set {V} (d : dict V) (k : str) (v : V) :
  dict_keys (dict_set d k v) = if dict_has d k then dict_keys d else dict_keys d ++ [k].
Proof.
  unfold dict_has. induction d as [|[k' v'] d IH]; simpl; [reflexivity|].
  destruct (str_eqb k k'); simpl; [reflexivity|].
  rewrite IH. now destruct (dict_get d k).
Qed.

Lemma dict_has_keys {V} (d : dict V) (k : str) :
  dict_has d k = false -> ~ In k (dict_keys d).
Proof.
  unfold dict_has. induction d as [|[k' v'] d IH]; simpl; [intros _ []|].
  destruct (str_eqb k k') eqn:E; [discriminate|].
  intros H [Heq | Hin]; [|now apply IH].
  subst k'. now rewrite str_eqb_refl in E.
Qed.

Lemma dict_set_distinct {V} (d : dict V) (k : str) (v : V) :
  NoDup (dict_keys d) -> NoDup (dict_keys (dict_set d k v)).
Proof.
  intros H. rewrite dict_keys_set.
  destruct (dict_has d k) eqn:Hhas; [exact H|].
  apply NoDup_app; [exact H | repeat constructor; intros [] |].
  intros x Hx [<- | []]. exact (dict_has_keys d k Hhas Hx).
Qed.

Lemma parameters_loop_distinct (fuel : nat) :
  forall (lexer lexer' : Lexer) (parameters parameters' : dict CubentType),
    parameters_loop fuel lexer parameters = Ok (lexer', parameters') ->
    NoDup (dict_keys parameters) -> NoDup (dict_keys parameters').
Proof.
  induction fuel as [|fuel IH]; intros lexer lexer' parameters parameters' H Hd;
    [discriminate|].
  cbn [parameters_loop] in H.
  apply bind_ok in H as (la & _ & H).
  destruct (negb _).
  - apply bind_ok in H as ([lexeme lexer1] & _ & H).
    destruct (negb _); [discriminate|].
    cbv zeta in H.
    apply bind_ok in H as ([colon lexer2] & _ & H).
    destruct (negb _); [discriminate|].
    apply bind_ok in H as ([lexeme3 lexer3] & _ & H).
    destruct (negb _); [discriminate|].
    apply bind_ok in H as (parameter_type & _ & H).
    apply bind_ok in H as (la2 & _ & H).
    destruct (body_is _ _).
    + apply bind_ok in H as ([comma lexer4] & _ & H).
      apply IH in H; [exact H | now apply dict_set_distinct].
    + inversion H; subst. now apply dict_set_distinct.
  - inversion H; subst. exact Hd.
Qed.

Lemma split_colon_spec (s : str) :
  forall (before namespace rest : str),
    split_colon before s = Some (namespace, rest) ->
    exists head, namespace = before ++ head /\ s = head ++ ":" :: rest
                 /\ ch_in ":" head = false.
Proof.
  induction s as [|c s IH]; intros before namespace rest H; [discriminate|].
  simpl in H. destruct (Ascii.eqb c ":") eqn:Hc.
  - apply Ascii.eqb_eq in Hc. subst c. injection H as <- <-.
    exists []. now rewrite app_nil_r.
  - apply IH in H as (head & -> & -> & Hhead).
    exists (c :: head). rewrite <- app_assoc. repeat split.
    cbn [ch_in existsb]. rewrite Ascii.eqb_sym, Hc. exact Hhead.
Qed.

Lemma split_colon_head (head rest : str) :
  forall before,
    ch_in ":" head = false ->
    split_colon before (head ++ ":" :: rest) = Some (before ++ head, rest).
Proof.
  induction head as [|c head IH]; intros before H; simpl.
  - now rewrite app_nil_r.
  - cbn [ch_in existsb] in H. apply orb_false_iff in H as [Hc Hhead].
    rewrite Ascii.eqb_sym in Hc. rewrite Hc.
    rewrite (IH (before ++ [c]) Hhead), <- app_assoc. reflexivity.
Qed.

Lemma split_location_join (namespace path : str) :
  ch_in ":" namespace = false -> ch_in ":" path = false ->
  split_location (namespace ++ S_ ":" ++ path) = Ok (namespace, path).
Proof.
  intros Hn Hp. unfold split_location.
  change (S_ ":" ++ path) with (":"%char :: path).
  rewrite (split_colon_head namespace path [] Hn). cbn [app]. now rewrite Hp.
Qed.

(** The location that the parser stores is one that [compile] can split
    again. *)
Lemma stored_location_splits (location namespace path : str) :
  (if ch_in ":" location then split_location location
   else Ok (S_ "minecraft", location)) = Ok (namespace, path) ->
  split_location (namespace ++ S_ ":" ++ path) = Ok (namespace, path).
Proof.
  destruct (ch_in ":" location) eqn:Hcolon.
  - unfold split_location at 1.
    destruct (split_colon [] location) as [[namespace0 rest]|] eqn:Hsplit;
      [|discriminate].
    destruct (ch_in ":" rest) eqn:Hrest; [discriminate|].
    intros [= <- <-].
    apply split_colon_spec in Hsplit as (head & -> & -> & Hhead).
    now apply split_location_join.
  - intros [= <- <-]. now apply split_location_join.
Qed.

Section Declarations.

Variable filename : Path.
Variable source : str.

Let context : Context := mkContext filename source None None.

Lemma compile_structure_declares (fuel : nat) (lexer lexer' : Lexer)
    (first : str) (depth : nat) (imports : Imports) (declared : list Function) :
  compile_structure fuel lexer context (repeat first (S depth)) imports []
  = Ok (lexer', declared) ->
  Forall (well_declared filename source) declared.
Proof.
  intros H. unfold compile_structure in H.
  apply bind_ok in H as ([lexeme lexer1] & _ & H).
  destruct (body_is (lx_body lexeme) "function").
  - apply bind_ok in H as ([name lexer2] & _ & H).
    destruct (negb _); [discriminate|]. cbv zeta in H.
    apply bind_ok in H as ([paren lexer3] & _ & H).
    destruct (negb _); [discriminate|].
    apply bind_ok in H as ([lexer4 parameters] & Hparameters & H).
    apply parameters_loop_distinct in Hparameters; [|constructor].
    apply bind_ok in H as ([lexer5 return_type] & _ & H).
    apply bind_ok in H as ([brace lexer6] & _ & H).
    destruct (negb _); [exfalso; exact (error_not_ok _ _ _ H)|].
    apply bind_ok in H as ([lexer7 commands] & Hbody & H).
    apply statement_grammar in Hbody as (new & Hnew & Hir).
    simpl in Hnew. subst new.
    apply bind_ok in H as ([closing lexer8] & _ & H).
    destruct (negb _); [exfalso; exact (error_not_ok _ _ _ H)|].
    apply bind_ok in H as (declared_type & _ & H).
    inversion H; subst. constructor; [|constructor].
    repeat split.
    + exists first, depth, (body_str name). reflexivity.
    + exact Hparameters.
    + change (first :: repeat first depth ++ [body_str name])
        with (repeat first (S depth) ++ [body_str name]).
      rewrite join_snoc by discriminate. exact Hir.
  - destruct (body_is (lx_body lexeme) "mcfunction");
      [|exfalso; exact (error_not_ok _ _ _ H)].
    apply bind_ok in H as ([location lexer2] & _ & H).
    destruct (negb _); [exfalso; exact (error_not_ok _ _ _ H)|]. cbv zeta in H.
    apply bind_ok in H as ([mcfunction_namespace mcfunction_path] & Hlocation & H).
    apply stored_location_splits in Hlocation.
    apply bind_ok in H as ([name lexer3] & _ & H).
    destruct (negb _); [exfalso; exact (error_not_ok _ _ _ H)|]. cbv zeta in H.
    apply bind_ok in H as ([paren lexer4] & _ & H).
    destruct (negb _); [exfalso; exact (error_not_ok _ _ _ H)|].
    apply bind_ok in H as ([lexer5 parameters] & Hparameters & H).
    apply parameters_loop_distinct in Hparameters; [|constructor].
    apply bind_ok in H as ([lexer6 return_type] & _ & H).
    apply bind_ok in H as ([semicolon lexer7] & _ & H).
    destruct (negb _); [exfalso; exact (error_not_ok _ _ _ H)|].
    apply bind_ok in H as (declared_type & _ & H).
    inversion H; subst. constructor; [|constructor].
    repeat split.
    + exists first, depth, (body_str name). reflexivity.
    + exact Hparameters.
    + eauto.
Qed.

Lemma compile_structures_declares (fuel : nat) :
  forall (lexer lexer' : Lexer) (first : str) (depth : nat) (imports : Imports)
         (declared : list Function),
    compile_structures fuel lexer context (repeat first (S depth)) imports []
    = Ok (lexer', declared) ->
    Forall (well_declared filename source) declared.
Proof.
  induction fuel as [|fuel IH]; intros lexer lexer' first depth imports declared H;
    [discriminate|].
  cbn [compile_structures] in H.
  apply bind_ok in H as (la & _ & H).
  destruct (negb _).
  - apply bind_ok in H as ([lexer1 functions1] & Hone & H).
    apply compile_structure_declares in Hone.
    rewrite compile_structures_appends in H.
    apply appended_ok in H as (more & H & ->).
    apply IH in H. apply Forall_app. now split.
  - inversion H; subst. constructor.
Qed.

Lemma compile_block_declares (fuel : nat) (lexer lexer' : Lexer) (imports : Imports)
    (declared : list Function) :
  compile_block fuel lexer context imports [] = Ok (lexer', declared) ->
  Forall (well_declared filename source) declared.
Proof.
  intros H. unfold compile_block in H.
  apply bind_ok in H as ([lexeme lexer1] & _ & H).
  destruct (body_is (lx_body lexeme) "namespace").
  - apply bind_ok in H as ([name lexer2] & _ & H).
    destruct (negb _); [exfalso; exact (error_not_ok _ _ _ H)|].
    apply bind_ok in H as ([lexer3 namespace] & Hnamespace & H).
    apply namespace_loop_repeats in Hnamespace as (depth & ->).
    apply bind_ok in H as ([opening lexer4] & _ & H).
    destruct (negb _); [exfalso; exact (error_not_ok _ _ _ H)|].
    apply bind_ok in H as ([lexer5 functions] & Hstructures & H).
    change ([body_str name] ++ repeat (body_str name) depth)
      with (repeat (body_str name) (S depth)) in Hstructures.
    apply compile_structures_declares in Hstructures.
    apply bind_ok in H as ([closing lexer6] & _ & H).
    destruct (negb _); [exfalso; exact (error_not_ok _ _ _ H)|].
    inversion H; subst. exact Hstructures.
  - destruct (body_is (lx_body lexeme) "load").
    + apply bind_ok in H as ([opening lexer2] & _ & H).
      destruct (negb _); [exfalso; exact (error_not_ok _ _ _ H)|].
      apply bind_ok in H as ([closing lexer3] & _ & H).
      destruct (negb _); [exfalso; exact (error_not_ok _ _ _ H)|].
      inversion H; subst. constructor.
    + destruct (body_is (lx_body lexeme) "tick");
        [|exfalso; exact (error_not_ok _ _ _ H)].
      inversion H; subst. constructor.
Qed.

Lemma compile_blocks_declares (fuel : nat) :
  forall (lexer lexer' : Lexer) (imports : Imports) (declared : list Function),
    compile_blocks fuel lexer context imports [] = Ok (lexer', declared) ->
    Forall (well_declared filename source) declared.
Proof.
  induction fuel as [|fuel IH]; intros lexer lexer' imports declared H;
    [discriminate|].
  cbn [compile_blocks] in H.
  apply bind_ok in H as (la & _ & H).
  destruct (negb _).
  - apply bind_ok in H as ([lexer1 functions1] & Hone & H).
    apply compile_block_declares in Hone.
    rewrite compile_blocks_appends in H.
    apply appended_ok in H as (more & H & ->).
    apply IH in H. apply Forall_app. now split.
  - inversion H; subst. constructor.
Qed.

End Declarations.


(** X22 — Parsing a file adds to the functions only declarations that are well
    formed: each has the name of a function after the names of its
    namespace, which are all the first name of the namespace; its
    parameters have different names; the commands of a function of the
    user are those of a function body, in the context of that function
    in this file; and the location of an external function is one that
    [compile] can split into a namespace and a path. *)
Theorem parsed_functions_well_declared (filename : Path) (source : str)
    (functions functions' : list Function) :
  compile_file filename source functions = Ok functions' ->
  exists declared,
    functions' = functions ++ declared
    /\ Forall (well_declared filename source) declared.
Proof.
  unfold compile_file, compile_file_fuel. intros H.
  apply bind_ok in H as ([lexer imports] & _ & H).
  apply bind_ok in H as ([lexer' functions1] & Hblocks & H).
  inversion H; subst.
  rewrite compile_blocks_appends in Hblocks.
  apply appended_ok in Hblocks as (declared & Hblocks & ->).
  exists declared. split; [reflexivity|].
  exact (compile_blocks_declares filename source _ _ _ _ _ Hblocks).
Qed.

(** ** The contexts of the commands *)

Lemma contexts_of_app (a b : list Command) :
  contexts_of (a ++ b) = contexts_of a ++ contexts_of b.
Proof. unfold contexts_of. apply flat_map_app. Qed.

Lemma operations_no_block (body : str) (op : Operation) :
  dict_get operations body = Some op -> block_contexts op = [].
Proof.
  unfold operations. cbn [dict_get].
  repeat lazymatch goal with
         | |- (if ?c then _ else _) = _ -> _ =>
             destruct c; [intros H; inversion H; reflexivity|]
         end.
  discriminate.
Qed.

Section Contexts.

Variable context : Context.
Variable parameters : dict CubentType.

Lemma positioned_app (a b : list Command) :
  positioned context a -> positioned context b -> positioned context (a ++ b).
Proof.
  unfold positioned. rewrite contexts_of_app. intros Ha Hb.
  apply Forall_app. now split.
Qed.

Lemma positioned_one (position : Position) (op : Operation) :
  block_contexts op = [] -> positioned context [(at_position context position, op)].
Proof.
  intros Hop. unfold positioned, contexts_of. cbn [flat_map fst snd].
  rewrite Hop. cbn [app]. constructor; [eauto | constructor].
Qed.

Lemma positioned_round (operand rounds : list Command) (position : Position)
    (body : str) (op : Operation) :
  positioned context operand ->
  dict_get operations body = Some op ->
  positioned context rounds ->
  positioned context (operand ++ (at_position context position, op) :: rounds).
Proof.
  intros Ha Hop Hb. apply positioned_app; [exact Ha|].
  change (positioned context ([(at_position context position, op)] ++ rounds)).
  apply positioned_app; [|exact Hb].
  apply positioned_one. exact (operations_no_block _ _ Hop).
Qed.

Lemma primary_command_positioned (lexeme : Lexeme) (command : Command) :
  primary_command context parameters lexeme = Ok command ->
  positioned context [command].
Proof.
  unfold primary_command, unexpected.
  destruct (lx_type lexeme) as [[]|];
    try (intros H; exfalso; exact (error_not_ok _ _ _ H));
    repeat lazymatch goal with
           | |- (if ?c then _ else _) = _ -> _ => destruct c
           | |- (match ?c with Some _ => _ | None => _ end) = _ -> _ => destruct c
           | |- bind ?m _ = _ -> _ => destruct m; cbn [bind]
           end;
    try discriminate;
    intros H; inversion H; subst; now apply positioned_one.
Qed.

Lemma assign_commands_positioned (first : Lexeme) (more : list Lexeme) :
  positioned context (assign_commands context (first :: more)).
Proof.
  destruct more as [|second more]; [now apply positioned_one|].
  unfold assign_commands.
  apply positioned_app; [now apply positioned_one|].
  apply positioned_app; [|now apply positioned_one].
  unfold positioned, contexts_of. rewrite flat_map_concat_map, map_map.
  apply Forall_concat, Forall_map, Forall_forall.
  intros lexeme _. cbn [fst snd block_contexts app].
  constructor; [eauto | constructor].
Qed.

Lemma positioned_nil : positioned context [].
Proof. constructor. Qed.

Lemma operand_ir_positioned (commands : list Command) :
  operand_ir context parameters commands -> positioned context commands.
Proof.
  apply (operand_ir_mut context parameters
           (positioned context) (fun commands _ => positioned context commands)
           (positioned context) (positioned context));
    intros;
    eauto using positioned_app, positioned_one, positioned_round,
      primary_command_positioned, positioned_nil.
Qed.

Lemma expression_ir_positioned (commands : list Command) :
  expression_ir context parameters commands -> positioned context commands.
Proof.
  apply (expression_ir_mut context parameters
           (positioned context) (fun commands _ => positioned context commands)
           (positioned context) (positioned context));
    intros;
    eauto using positioned_app, positioned_one, positioned_round,
      primary_command_positioned, positioned_nil.
Qed.

Lemma arguments_ir_positioned (commands : list Command) (argc : nat) :
  arguments_ir context parameters commands argc -> positioned context commands.
Proof.
  apply (arguments_ir_mut context parameters
           (positioned context) (fun commands _ => positioned context commands)
           (positioned context) (positioned context));
    intros;
    eauto using positioned_app, positioned_one, positioned_round,
      primary_command_positioned, positioned_nil.
Qed.

Lemma statements_ir_positioned (commands : list Command) :
  statements_ir context parameters commands -> positioned context commands.
Proof.
  apply (statements_ir_mut context parameters
           (positioned context) (positioned context));
    intros;
    eauto using positioned_app, positioned_one, assign_commands_positioned,
      arguments_ir_positioned, expression_ir_positioned, positioned_nil.
  apply positioned_app; [now apply expression_ir_positioned|].
  unfold positioned, contexts_of. cbn [flat_map fst snd block_contexts].
  rewrite app_nil_r. constructor; [eauto|]. assumption.
Qed.

End Contexts.

(** X23 — Every command of a function that the parser declares, at the top or
    in the block of an [if], carries the name of the file, its text, the
    dotted path of the function and a position: an error that the
    emitter reports for it names the right file and function. *)
Theorem parsed_commands_located (filename : Path) (source : str)
    (functions : list Function) (path : list str) (parameters : dict CubentType)
    (return_type : CubentType) (commands : list Command) :
  compile_file filename source [] = Ok functions ->
  In (CubentFunction path parameters return_type commands) functions ->
  Forall (located filename source path) (contexts_of commands).
Proof.
  intros H Hin. unfold compile_file, compile_file_fuel in H.
  apply bind_ok in H as ([lexer imports] & _ & H).
  apply bind_ok in H as ([lexer' declared] & Hblocks & H).
  inversion H; subst.
  apply compile_blocks_declares in Hblocks as Hall.
  rewrite Forall_forall in Hall. apply Hall in Hin as (_ & _ & Hir).
  apply statements_ir_positioned in Hir.
  unfold positioned in Hir. rewrite Forall_forall in Hir |- *.
  intros c Hc. destruct (Hir c Hc) as (position & ->).
  repeat split. discriminate.
Qed.

(** ** Reads of a parameter *)

Lemma find_arg_index_spec (body : str) (keys : list str) :
  forall (index found : nat),
    find_arg_index body keys index = Ok found ->
    index <= found < index + List.length keys
    /\ (exists a b, nth_error keys (found - index) = Some [a; b] /\ body = [a])
    /\ forall earlier,
         earlier < found - index ->
         exists c d, nth_error keys earlier = Some [c; d] /\ [c] <> body.
Proof.
  induction keys as [|key keys IH]; intros index found H; [discriminate|].
  cbn [find_arg_index] in H.
  destruct key as [|a [|b [|c key]]]; try discriminate.
  destruct (str_eqb [a] body) eqn:Heq.
  - injection H as <-. apply str_eqb_eq in Heq. subst body.
    split; [simpl; lia|]. split; [exists a, b; now rewrite Nat.sub_diag|].
    intros earlier Hearlier. lia.
  - apply IH in H as (Hrange & (a' & b' & Hnth & ->) & Hfirst).
    split; [simpl; lia|]. split.
    + exists a', b'. split; [|reflexivity].
      replace (found - index) with (S (found - S index)) by lia. exact Hnth.
    + intros [|earlier] Hearlier.
      * exists a, b. split; [reflexivity|].
        intros Hsame. rewrite Hsame, str_eqb_refl in Heq. discriminate.
      * apply Hfirst. lia.
Qed.

(** X24 — The parser writes a [GET_ARG] only for an identifier of one
    character that is the name of a parameter, and then with the index
    of the first parameter that begins with that character: that
    parameter has a name of two characters, so it is not the parameter
    of that name, and every parameter before it has a name of two
    characters that begins with another character. *)
Theorem get_arg_index (context : Context) (parameters : dict CubentType)
    (lexeme : Lexeme) (command_context : Context) (index : nat) :
  primary_command context parameters lexeme = Ok (command_context, GET_ARG index) ->
  lx_type lexeme = Some IDENTIFIER
  /\ index < List.length parameters
  /\ In (body_str lexeme) (dict_keys parameters)
  /\ (exists a b,
        nth_error (dict_keys parameters) index = Some [a; b]
        /\ body_str lexeme = [a])
  /\ forall earlier,
       earlier < index ->
       exists c d,
         nth_error (dict_keys parameters) earlier = Some [c; d]
         /\ [c] <> body_str lexeme.
Proof.
  unfold primary_command, unexpected.
  destruct (lx_type lexeme) as [[]|];
    try (intros H; exfalso; exact (error_not_ok _ _ _ H));
    try (repeat lazymatch goal with
                | |- (if ?c then _ else _) = _ -> _ => destruct c
                | |- (match ?c with Some _ => _ | None => _ end) = _ -> _ => destruct c
                end;
         discriminate).
  destruct (existsb (str_eqb (body_str lexeme)) (dict_keys parameters)) eqn:Hname;
    [|discriminate].
  destruct (find_arg_index (body_str lexeme) (dict_keys parameters) 0)
    as [found| | |] eqn:Hfind; cbn [bind]; try discriminate.
  intros [= _ <-].
  apply find_arg_index_spec in Hfind as (Hrange & Hfound & Hfirst).
  rewrite Nat.sub_0_r in Hfound, Hfirst. unfold dict_keys in Hrange.
  rewrite length_map in Hrange.
  split; [reflexivity|]. split; [lia|]. split; [|split; assumption].
  apply existsb_exists in Hname as (key & Hin & Heq).
  apply str_eqb_eq in Heq. now rewrite Heq.
Qed.

(** ** The parser ends *)

Lemma next_remaining (self : Lexer) (r : option Lexeme) (self' : Lexer) :
  next self = Ok (r, self') ->
  remaining self' <= remaining self
  /\ (not_eof r = true -> remaining self' < remaining self).
Proof.
  intros H. unfold next in H.
  destruct (next_fuel_forward _ _ _ _ H) as (Ht & Ho & Hs & Hin).
  unfold remaining. rewrite Ht. split; [lia|].
  intros Hr. specialize (Hs Hr). specialize (Hin Hr). lia.
Qed.

Lemma next_lexeme_returns (lexer : Lexer) : next_lexeme lexer <> OutOfFuel.
Proof.
  unfold next_lexeme. pose proof (next_returns lexer) as H.
  destruct (next lexer) as [[[l|] lexer']| | |]; cbn [bind]; congruence.
Qed.

Lemma lookahead_lexeme_returns (lexer : Lexer) : lookahead_lexeme lexer <> OutOfFuel.
Proof.
  unfold lookahead_lexeme. pose proof (next_lexeme_returns lexer) as H.
  destruct (next_lexeme lexer) as [[l lexer']| | |]; cbn [bind]; congruence.
Qed.

Lemma lookahead_next (lexer lexer' : Lexer) (la l : Lexeme) :
  lookahead_lexeme lexer = Ok la -> next_lexeme lexer = Ok (l, lexer') -> l = la.
Proof.
  unfold lookahead_lexeme. intros Hla Hnext. rewrite Hnext in Hla.
  cbn [bind] in Hla. congruence.
Qed.

Lemma next_lexeme_remaining (lexer lexer' : Lexer) (l : Lexeme) :
  next_lexeme lexer = Ok (l, lexer') ->
  remaining lexer' <= remaining lexer
  /\ (lx_body l <> None -> remaining lexer' < remaining lexer)
  /\ (type_is l EOF = false -> remaining lexer' < remaining lexer).
Proof.
  unfold next_lexeme. intros H.
  apply bind_ok in H as ([[l0|] lexer0] & Hnext & H); [|discriminate].
  injection H as -> ->.
  destruct (next_remaining _ _ _ Hnext) as [Hle Hlt].
  split; [exact Hle|].
  assert (Hstrict : type_is l EOF = false -> remaining lexer' < remaining lexer).
  { intros Ht. apply Hlt. cbn [not_eof]. now rewrite Ht. }
  split; [|exact Hstrict].
  intros Hbody. apply Hstrict.
  destruct (type_is l EOF) eqn:Ht; [|reflexivity].
  destruct (next_fuel_eof _ _ _ _ Hnext Ht) as [_ ->]. now contradiction Hbody.
Qed.

Lemma strict_body (lexer lexer' : Lexer) (l : Lexeme) (lit : string) :
  next_lexeme lexer = Ok (l, lexer') ->
  body_is (lx_body l) lit = true ->
  remaining lexer' < remaining lexer.
Proof.
  intros H Hb. apply next_lexeme_remaining in H as (_ & H & _). apply H.
  destruct (lx_body l); [discriminate | discriminate Hb].
Qed.

Lemma strict_not_body (lexer lexer' : Lexer) (l : Lexeme) (lit : string) :
  next_lexeme lexer = Ok (l, lexer') ->
  negb (body_is (lx_body l) lit) = false ->
  remaining lexer' < remaining lexer.
Proof.
  intros H Hb. apply negb_false_iff in Hb. exact (strict_body _ _ _ _ H Hb).
Qed.

Lemma strict_identifier (lexer lexer' : Lexer) (l : Lexeme) :
  next_lexeme lexer = Ok (l, lexer') ->
  negb (type_is l IDENTIFIER) = false ->
  remaining lexer' < remaining lexer.
Proof.
  intros H Ht. apply negb_false_iff in Ht.
  apply next_lexeme_remaining in H as (_ & _ & H). apply H.
  unfold type_is in *. destruct (lx_type l) as [[]|]; try discriminate; reflexivity.
Qed.

Lemma strict_imported (lexer lexer' : Lexer) (l : Lexeme) (imports : Imports)
    (path : list str) :
  next_lexeme lexer = Ok (l, lexer') ->
  match lx_body l with
  | Some name => dict_get imports name
  | None => None
  end = Some path ->
  remaining lexer' < remaining lexer.
Proof.
  intros H Hb. apply next_lexeme_remaining in H as (_ & H & _). apply H.
  destruct (lx_body l); [discriminate | discriminate Hb].
Qed.

Lemma strict_operator (lexer lexer' : Lexer) (l : Lexeme) (table : list str) :
  next_lexeme lexer = Ok (l, lexer') ->
  match lx_body l with
  | Some b => str_in b table
  | None => false
  end = true ->
  remaining lexer' < remaining lexer.
Proof.
  intros H Hb. apply next_lexeme_remaining in H as (_ & H & _). apply H.
  destruct (lx_body l); [discriminate | discriminate Hb].
Qed.

(** The steps of a parser function that returned *)
Ltac invert_bound H :=
  repeat (cbv beta zeta in H;
          lazymatch type of H with
          | bind ?m _ = Ok _ =>
              let x := fresh "x" in
              let Hx := fresh "Hx" in
              apply bind_ok in H as (x & Hx & H)
          | (match ?p with pair _ _ => _ end) = Ok _ => destruct p
          | (if ?c then _ else _) = Ok _ =>
              let E := fresh "E" in destruct c eqn:E
          | (match ?o with Some _ => _ | None => _ end) = Ok _ =>
              let E := fresh "E" in destruct o eqn:E
          | error _ _ = Ok _ => exfalso; exact (error_not_ok _ _ _ H)
          | unexpected _ _ = Ok _ => exfalso; exact (error_not_ok _ _ _ H)
          | Raise _ = Ok _ => discriminate H
          end).

Ltac invert_every :=
  repeat match goal with
         | H : (if _ then _ else _) = Ok _ |- _ => progress invert_bound H
         | H : bind _ _ = Ok _ |- _ => progress invert_bound H
         | H : Ok _ = Ok _ |- _ => inversion H; subst; clear H
         end.

(** What the calls of [next] consumed *)
Ltac consumed_facts :=
  repeat match goal with
         | Hla : lookahead_lexeme ?lexer = Ok ?la,
           H : next_lexeme ?lexer = Ok (?l, _) |- _ =>
             assert (l = la) by exact (lookahead_next _ _ _ _ Hla H);
             subst l; clear Hla
         end;
  repeat match goal with
         | H : next_lexeme _ = Ok (?l, _),
           Hb : negb (body_is (lx_body ?l) _) = false |- _ =>
             apply (fun H => strict_not_body _ _ _ _ H Hb) in H
         | H : next_lexeme _ = Ok (?l, _),
           Hb : body_is (lx_body ?l) _ = true |- _ =>
             apply (fun H => strict_body _ _ _ _ H Hb) in H
         | H : next_lexeme _ = Ok (?l, _),
           Hb : negb (type_is ?l IDENTIFIER) = false |- _ =>
             apply (fun H => strict_identifier _ _ _ H Hb) in H
         | H : next_lexeme _ = Ok (?l, _),
           Hb : match lx_body ?l with Some _ => _ | None => None end = Some _ |- _ =>
             apply (fun H => strict_imported _ _ _ _ _ H Hb) in H
         | H : next_lexeme _ = Ok (?l, _),
           Hb : match lx_body ?l with Some _ => _ | None => false end = true |- _ =>
             apply (fun H => strict_operator _ _ _ _ H Hb) in H
         | H : next_lexeme _ = Ok (_, _) |- _ =>
             apply next_lexeme_remaining in H as (H & _)
         end.

Lemma import_path_loop_remaining (fuel : nat) :
  forall (lexer lexer' : Lexer) (context : Context) (lexeme lexeme' : Lexeme)
         (path path' : list str),
    import_path_loop fuel lexer context lexeme path = Ok (lexeme', lexer', path') ->
    remaining lexer' <= remaining lexer.
Proof.
  induction fuel as [|fuel IH]; intros lexer lexer' context lexeme lexeme' path path' H;
    [discriminate|].
  cbn [import_path_loop] in H. invert_bound H.
  - apply IH in H. consumed_facts. lia.
  - invert_every. lia.
Qed.

Lemma parse_imports_remaining (fuel : nat) :
  forall (lexer lexer' : Lexer) (context : Context) (imports imports' : Imports),
    parse_imports fuel lexer context imports = Ok (lexer', imports') ->
    remaining lexer' <= remaining lexer.
Proof.
  induction fuel as [|fuel IH]; intros lexer lexer' context imports imports' H;
    [discriminate|].
  cbn [parse_imports] in H. invert_bound H.
  - apply IH in H.
    match goal with
    | Hp : import_path_loop _ _ _ _ _ = Ok _ |- _ =>
        apply import_path_loop_remaining in Hp
    end.
    invert_every; consumed_facts; lia.
  - invert_every. lia.
Qed.

Lemma assign_path_loop_remaining (fuel : nat) :
  forall (lexer lexer' : Lexer) (context : Context) (path path' : list Lexeme),
    assign_path_loop fuel lexer context path = Ok (lexer', path') ->
    remaining lexer' <= remaining lexer.
Proof.
  induction fuel as [|fuel IH]; intros lexer lexer' context path path' H;
    [discriminate|].
  cbn [assign_path_loop] in H. invert_bound H.
  - apply IH in H. consumed_facts. lia.
  - invert_every. lia.
Qed.

Section Consumption.

Variable context : Context.
Variable imports : Imports.
Variable parameters : dict CubentType.

(** What is left of the text shrinks along an expression, and a call
    consumes at least its name. *)
Lemma expression_remaining (fuel : nat) :
  (forall lexer commands lexer' commands',
      compile_function_call context imports parameters fuel lexer commands
      = Ok (lexer', commands') ->
      remaining lexer' < remaining lexer)
  /\ (forall lexer commands argc lexer' commands' argc',
        call_arguments context imports parameters fuel lexer commands argc
        = Ok (lexer', commands', argc') ->
        remaining lexer' <= remaining lexer)
  /\ (forall lexer commands lexer' commands',
        compile_expression context imports parameters fuel lexer commands
        = Ok (lexer', commands') ->
        remaining lexer' <= remaining lexer)
  /\ (forall lexer commands precedence lexer' commands',
        compile_operation context imports parameters fuel lexer commands precedence
        = Ok (lexer', commands') ->
        remaining lexer' <= remaining lexer)
  /\ (forall lexer commands lexer' commands',
        compile_primary context imports parameters fuel lexer commands
        = Ok (lexer', commands') ->
        remaining lexer' <= remaining lexer).
Proof.
  induction fuel as [|fuel (IHcall & IHargs & IHexpr & IHop & IHprim)].
  { repeat split; intros; discriminate. }
  repeat split.
  - intros lexer commands lexer' commands' H.
    rewrite compile_function_call_S in H. invert_bound H.
    match goal with
    | Ha : call_arguments _ _ _ _ _ _ _ = Ok _ |- _ => apply IHargs in Ha
    end.
    invert_every. consumed_facts. lia.
  - intros lexer commands argc lexer' commands' argc' H.
    rewrite call_arguments_S in H. invert_bound H.
    + match goal with
      | He : compile_expression _ _ _ _ _ _ = Ok _ |- _ => apply IHexpr in He
      end.
      apply IHargs in H. consumed_facts. lia.
    + match goal with
      | He : compile_expression _ _ _ _ _ _ = Ok _ |- _ => apply IHexpr in He
      end.
      invert_every. lia.
    + invert_every. lia.
  - intros lexer commands lexer' commands' H.
    rewrite compile_expression_S in H. invert_bound H.
    match goal with
    | Hp : compile_primary _ _ _ _ _ _ = Ok _ |- _ => apply IHprim in Hp
    end.
    apply IHop in H. lia.
  - intros lexer commands precedence lexer' commands' H.
    rewrite compile_operation_S in H. invert_bound H.
    + match goal with
      | Hp : compile_primary _ _ _ _ _ _ = Ok _ |- _ => apply IHprim in Hp
      end.
      match goal with
      | Ho : compile_operation _ _ _ _ _ _ _ = Ok (_, _),
        Ho' : compile_operation _ _ _ _ _ _ _ = Ok (_, _) |- _ =>
          apply IHop in Ho; apply IHop in Ho'
      end.
      consumed_facts. lia.
    + invert_every. lia.
  - intros lexer commands lexer' commands' H.
    rewrite compile_primary_S in H. invert_bound H.
    + apply IHcall in H. lia.
    + invert_every. consumed_facts. lia.
Qed.

(** A statement consumes at least one character. *)
Lemma statement_remaining (fuel : nat) :
  (forall lexer commands lexer' commands',
      compile_statement context imports parameters fuel lexer commands
      = Ok (lexer', commands') ->
      remaining lexer' < remaining lexer)
  /\ (forall lexer commands lexer' commands',
        compile_statements context imports parameters fuel lexer commands
        = Ok (lexer', commands') ->
        remaining lexer' <= remaining lexer).
Proof.
  induction fuel as [|fuel [IHstatement IHstatements]].
  { split; intros; discriminate. }
  destruct (expression_remaining fuel) as (Hcall & _ & Hexpr & _ & _).
  split.
  - intros lexer commands lexer' commands' H.
    rewrite compile_statement_S in H. invert_bound H;
      repeat match goal with
             | Hc : compile_function_call _ _ _ _ _ _ = Ok _ |- _ =>
                 apply Hcall in Hc
             | He : compile_expression _ _ _ _ _ _ = Ok _ |- _ => apply Hexpr in He
             | Hs : compile_statements _ _ _ _ _ _ = Ok _ |- _ =>
                 apply IHstatements in Hs
             | Ha : assign_path_loop _ _ _ _ = Ok _ |- _ =>
                 apply assign_path_loop_remaining in Ha
             end;
      invert_every; consumed_facts; lia.
  - intros lexer commands lexer' commands' H.
    rewrite compile_statements_S in H. invert_bound H.
    + match goal with
      | Hs : compile_statement _ _ _ _ _ _ = Ok _ |- _ => apply IHstatement in Hs
      end.
      apply IHstatements in H. lia.
    + invert_every. lia.
Qed.

End Consumption.

Lemma parameters_loop_remaining (fuel : nat) :
  forall (lexer lexer' : Lexer) (parameters parameters' : dict CubentType),
    parameters_loop fuel lexer parameters = Ok (lexer', parameters') ->
    remaining lexer' <= remaining lexer.
Proof.
  induction fuel as [|fuel IH]; intros lexer lexer' parameters parameters' H;
    [discriminate|].
  cbn [parameters_loop] in H. invert_bound H.
  - apply IH in H. consumed_facts. lia.
  - invert_every. consumed_facts. lia.
  - invert_every. lia.
Qed.

Lemma signature_tail_remaining (lexer lexer' : Lexer) (context : Context)
    (lexeme : Lexeme) :
  signature_tail lexer context = Ok (lexer', lexeme) ->
  remaining lexer' <= remaining lexer.
Proof.
  intros H. unfold signature_tail in H. invert_bound H.
  invert_every. consumed_facts. lia.
Qed.

Lemma namespace_loop_remaining (fuel : nat) :
  forall (lexer lexer' : Lexer) (lexeme : Lexeme) (namespace namespace' : list str),
    namespace_loop fuel lexer lexeme namespace = Ok (lexer', namespace') ->
    remaining lexer' <= remaining lexer.
Proof.
  induction fuel as [|fuel IH]; intros lexer lexer' lexeme namespace namespace' H;
    [discriminate|].
  cbn [namespace_loop] in H. invert_bound H.
  - apply IH in H. consumed_facts. lia.
  - invert_every. lia.
Qed.

(** A declaration consumes at least its keyword. *)
Lemma compile_structure_remaining (fuel : nat) (lexer lexer' : Lexer)
    (context : Context) (namespace : list str) (imports : Imports)
    (functions functions' : list Function) :
  compile_structure fuel lexer context namespace imports functions
  = Ok (lexer', functions') ->
  remaining lexer' < remaining lexer.
Proof.
  intros H. unfold compile_structure in H. invert_bound H;
    repeat match goal with
           | Hp : parameters_loop _ _ _ = Ok _ |- _ =>
               apply parameters_loop_remaining in Hp
           | Hs : signature_tail _ _ = Ok _ |- _ => apply signature_tail_remaining in Hs
           | Hb : compile_statements _ _ _ _ _ _ = Ok _ |- _ =>
               apply statement_remaining in Hb
           end;
    invert_every; consumed_facts; lia.
Qed.

Lemma compile_structures_remaining (fuel : nat) :
  forall (lexer lexer' : Lexer) (context : Context) (namespace : list str)
         (imports : Imports) (functions functions' : list Function),
    compile_structures fuel lexer context namespace imports functions
    = Ok (lexer', functions') ->
    remaining lexer' <= remaining lexer.
Proof.
  induction fuel as [|fuel IH];
    intros lexer lexer' context namespace imports functions functions' H;
    [discriminate|].
  cbn [compile_structures] in H. invert_bound H.
  - apply IH in H.
    match goal with
    | Hs : compile_structure _ _ _ _ _ _ = Ok _ |- _ =>
        apply compile_structure_remaining in Hs
    end.
    lia.
  - invert_every. lia.
Qed.

(** A block consumes at least its keyword. *)
Lemma compile_block_remaining (fuel : nat) (lexer lexer' : Lexer) (context : Context)
    (imports : Imports) (functions functions' : list Function) :
  compile_block fuel lexer context imports functions = Ok (lexer', functions') ->
  remaining lexer' < remaining lexer.
Proof.
  intros H. unfold compile_block in H. invert_bound H;
    repeat match goal with
           | Hn : namespace_loop _ _ _ _ = Ok _ |- _ =>
               apply namespace_loop_remaining in Hn
           | Hs : compile_structures _ _ _ _ _ _ = Ok _ |- _ =>
               apply compile_structures_remaining in Hs
           end;
    invert_every; consumed_facts; lia.
Qed.

(** *** Enough fuel *)

Lemma bind_returns {A B} (m : outcome A) (k : A -> outcome B) :
  m <> OutOfFuel -> (forall a, m = Ok a -> k a <> OutOfFuel) ->
  bind m k <> OutOfFuel.
Proof.
  intros Hm Hk. destruct m as [a | e | x |]; cbn [bind];
    [now apply Hk | discriminate | discriminate | contradiction].
Qed.

Lemma error_returns {A} (context : Context) (message : str) :
  @error A context message <> OutOfFuel.
Proof.
  unfold error, CompilationError_init.
  destruct (ctx_position context); [|discriminate].
  destruct (nth_error _ _); discriminate.
Qed.

Lemma getattr_returns (name : option str) : getattr_CubentType name <> OutOfFuel.
Proof.
  unfold getattr_CubentType. destruct name; [|discriminate].
  repeat lazymatch goal with
         | |- (if ?c then _ else _) <> _ => destruct c; [discriminate|]
         end.
  discriminate.
Qed.

Lemma find_arg_index_returns (body : str) (keys : list str) :
  forall index, find_arg_index body keys index <> OutOfFuel.
Proof.
  induction keys as [|key keys IH]; intros index; [discriminate|].
  cbn [find_arg_index].
  destruct key as [|a [|b [|c key]]]; try discriminate.
  destruct (str_eqb [a] body); [discriminate | apply IH].
Qed.

Lemma primary_command_returns (context : Context) (parameters : dict CubentType)
    (lexeme : Lexeme) :
  primary_command context parameters lexeme <> OutOfFuel.
Proof.
  unfold primary_command, unexpected.
  destruct (lx_type lexeme) as [[]|]; try apply error_returns;
    repeat lazymatch goal with
           | |- (if ?c then _ else _) <> _ => destruct c
           | |- (match ?c with Some _ => _ | None => _ end) <> _ => destruct c
           | |- bind (find_arg_index ?b ?k ?i) _ <> _ =>
               apply bind_returns; [apply find_arg_index_returns | intros ? _]
           end;
    discriminate.
Qed.

Lemma split_location_returns (location : str) : split_location location <> OutOfFuel.
Proof.
  unfold split_location. destruct (split_colon [] location) as [[namespace rest]|];
    [|discriminate].
  destruct (ch_in ":" rest); discriminate.
Qed.

(** One step along a parser function that has fuel *)
Ltac returns_step :=
  lazymatch goal with
  | |- bind (next_lexeme _) _ <> OutOfFuel =>
      apply bind_returns; [apply next_lexeme_returns | intros [? ?] ?]
  | |- bind (lookahead_lexeme _) _ <> OutOfFuel =>
      apply bind_returns; [apply lookahead_lexeme_returns | intros ? ?]
  | |- bind (getattr_CubentType _) _ <> OutOfFuel =>
      apply bind_returns; [apply getattr_returns | intros ? ?]
  | |- bind (primary_command _ _ _) _ <> OutOfFuel =>
      apply bind_returns; [apply primary_command_returns | intros ? ?]
  | |- (if ?c then _ else _) <> OutOfFuel =>
      let E := fresh "E" in destruct c eqn:E
  | |- (match ?o with Some _ => _ | None => _ end) <> OutOfFuel =>
      let E := fresh "E" in destruct o eqn:E
  | |- (match ?p with pair _ _ => _ end) <> OutOfFuel => destruct p
  | |- error _ _ <> OutOfFuel => apply error_returns
  | |- unexpected _ _ <> OutOfFuel => apply error_returns
  | |- Ok _ <> OutOfFuel => discriminate
  | |- Raise _ <> OutOfFuel => discriminate
  | |- split_location _ <> OutOfFuel => apply split_location_returns
  end.

Ltac returns_steps := repeat (cbv beta zeta; returns_step).

(** The bound on the fuel of a call, from what was consumed before it *)
Ltac enough_fuel := invert_every; consumed_facts; lia.

Lemma import_path_loop_returns (fuel : nat) :
  forall (lexer : Lexer) (context : Context) (lexeme : Lexeme) (path : list str),
    8 * remaining lexer + 1 <= fuel ->
    import_path_loop fuel lexer context lexeme path <> OutOfFuel.
Proof.
  induction fuel as [|fuel IH]; intros lexer context lexeme path Hfuel; [lia|].
  cbn [import_path_loop]. returns_steps. apply IH. enough_fuel.
Qed.

Lemma parse_imports_returns (fuel : nat) :
  forall (lexer : Lexer) (context : Context) (imports : Imports),
    8 * remaining lexer + 1 <= fuel ->
    parse_imports fuel lexer context imports <> OutOfFuel.
Proof.
  induction fuel as [|fuel IH]; intros lexer context imports Hfuel; [lia|].
  cbn [parse_imports]. returns_steps.
  apply bind_returns; [apply import_path_loop_returns; enough_fuel|].
  intros [[lexeme1 lexer1] path1] Hpath.
  apply import_path_loop_remaining in Hpath.
  apply bind_returns.
  - returns_steps.
  - intros [[name lexeme2] lexer2] Hname. returns_steps.
    apply IH. enough_fuel.
Qed.

Lemma assign_path_loop_returns (fuel : nat) :
  forall (lexer : Lexer) (context : Context) (path : list Lexeme),
    8 * remaining lexer + 1 <= fuel ->
    assign_path_loop fuel lexer context path <> OutOfFuel.
Proof.
  induction fuel as [|fuel IH]; intros lexer context path Hfuel; [lia|].
  cbn [assign_path_loop]. returns_steps. apply IH. enough_fuel.
Qed.

Section Fuel.

Variable context : Context.
Variable imports : Imports.
Variable parameters : dict CubentType.

(** The fuel that the expression parser needs: eight calls for each
    character that is left, and one for each function on the way from
    an argument to the call that it may be. *)
Lemma expression_returns (fuel : nat) :
  (forall lexer commands,
      8 * remaining lexer + 1 <= fuel ->
      compile_function_call context imports parameters fuel lexer commands
      <> OutOfFuel)
  /\ (forall lexer commands argc,
        8 * remaining lexer + 4 <= fuel ->
        call_arguments context imports parameters fuel lexer commands argc
        <> OutOfFuel)
  /\ (forall lexer commands,
        8 * remaining lexer + 3 <= fuel ->
        compile_expression context imports parameters fuel lexer commands
        <> OutOfFuel)
  /\ (forall lexer commands precedence,
        8 * remaining lexer + 1 <= fuel ->
        compile_operation context imports parameters fuel lexer commands precedence
        <> OutOfFuel)
  /\ (forall lexer commands,
        8 * remaining lexer + 2 <= fuel ->
        compile_primary context imports parameters fuel lexer commands
        <> OutOfFuel).
Proof.
  induction fuel as [|fuel (IHcall & IHargs & IHexpr & IHop & IHprim)].
  { repeat split; intros; lia. }
  destruct (expression_remaining context imports parameters fuel)
    as (Pcall & Pargs & Pexpr & Pop & Pprim).
  repeat split.
  - intros lexer commands Hfuel.
    rewrite compile_function_call_S. returns_steps.
    apply bind_returns; [apply IHargs; enough_fuel|].
    intros [[lexer3 commands3] argc3] Hargs. apply Pargs in Hargs.
    returns_steps.
  - intros lexer commands argc Hfuel.
    rewrite call_arguments_S. returns_steps.
    apply bind_returns; [apply IHexpr; enough_fuel|].
    intros [lexer1 commands1] Hexpr. apply Pexpr in Hexpr.
    returns_steps. apply IHargs. enough_fuel.
  - intros lexer commands Hfuel.
    rewrite compile_expression_S.
    apply bind_returns; [apply IHprim; enough_fuel|].
    intros [lexer1 commands1] Hprim. apply Pprim in Hprim.
    apply IHop. enough_fuel.
  - intros lexer commands precedence Hfuel.
    rewrite compile_operation_S. returns_steps.
    apply bind_returns; [apply IHprim; enough_fuel|].
    intros [lexer2 commands2] Hprim. apply Pprim in Hprim.
    returns_steps.
    apply bind_returns; [apply IHop; enough_fuel|].
    intros [lexer3 commands3] Hinner. apply Pop in Hinner.
    apply IHop. enough_fuel.
  - intros lexer commands Hfuel.
    rewrite compile_primary_S. returns_steps.
    apply IHcall. enough_fuel.
Qed.

Lemma statement_returns (fuel : nat) :
  (forall lexer commands,
      8 * remaining lexer + 2 <= fuel ->
      compile_statement context imports parameters fuel lexer commands
      <> OutOfFuel)
  /\ (forall lexer commands,
        8 * remaining lexer + 3 <= fuel ->
        compile_statements context imports parameters fuel lexer commands
        <> OutOfFuel).
Proof.
  induction fuel as [|fuel [IHstatement IHstatements]].
  { split; intros; lia. }
  destruct (expression_returns fuel) as (Rcall & _ & Rexpr & _ & _).
  destruct (expression_remaining context imports parameters fuel)
    as (Pcall & _ & Pexpr & _ & _).
  destruct (statement_remaining context imports parameters fuel)
    as (Pstatement & Pstatements).
  split.
  - intros lexer commands Hfuel.
    rewrite compile_statement_S. returns_steps.
    + (* a call *)
      apply bind_returns; [apply Rcall; enough_fuel|].
      intros [lexer1 commands1] Hcall. returns_steps.
    + (* an assignment *)
      apply bind_returns; [apply assign_path_loop_returns; enough_fuel|].
      intros [lexer2 path] Hpath. apply assign_path_loop_remaining in Hpath.
      returns_steps.
      apply bind_returns; [apply Rexpr; enough_fuel|].
      intros [lexer4 commands4] Hexpr. returns_steps.
    + (* a declaration *)
      apply bind_returns; [apply Rexpr; enough_fuel|].
      intros [lexer4 commands4] Hexpr. returns_steps.
    + (* a conditional *)
      apply bind_returns; [apply Rexpr; enough_fuel|].
      intros [lexer3 commands3] Hexpr. apply Pexpr in Hexpr.
      returns_steps.
      apply bind_returns; [apply IHstatements; enough_fuel|].
      intros [lexer6 block] Hblock. returns_steps.
  - intros lexer commands Hfuel.
    rewrite compile_statements_S. returns_steps.
    apply bind_returns; [apply IHstatement; enough_fuel|].
    intros [lexer1 commands1] Hstatement. apply Pstatement in Hstatement.
    apply IHstatements. enough_fuel.
Qed.

End Fuel.

Lemma parameters_loop_returns (fuel : nat) :
  forall (lexer : Lexer) (parameters : dict CubentType),
    8 * remaining lexer + 1 <= fuel ->
    parameters_loop fuel lexer parameters <> OutOfFuel.
Proof.
  induction fuel as [|fuel IH]; intros lexer parameters Hfuel; [lia|].
  cbn [parameters_loop]. returns_steps. apply IH. enough_fuel.
Qed.

Lemma namespace_loop_returns (fuel : nat) :
  forall (lexer : Lexer) (lexeme : Lexeme) (namespace : list str),
    8 * remaining lexer + 1 <= fuel ->
    namespace_loop fuel lexer lexeme namespace <> OutOfFuel.
Proof.
  induction fuel as [|fuel IH]; intros lexer lexeme namespace Hfuel; [lia|].
  cbn [namespace_loop]. returns_steps. apply IH. enough_fuel.
Qed.

Lemma signature_tail_returns (lexer : Lexer) (context : Context) :
  signature_tail lexer context <> OutOfFuel.
Proof. unfold signature_tail. returns_steps. Qed.

Lemma compile_structure_returns (fuel : nat) (lexer : Lexer) (context : Context)
    (namespace : list str) (imports : Imports) (functions : list Function) :
  8 * remaining lexer <= fuel ->
  compile_structure fuel lexer context namespace imports functions <> OutOfFuel.
Proof.
  intros Hfuel. unfold compile_structure. returns_steps.
  - (* a function *)
    apply bind_returns; [apply parameters_loop_returns; enough_fuel|].
    intros [lexer4 parameters] Hparameters.
    apply parameters_loop_remaining in Hparameters.
    apply bind_returns; [apply signature_tail_returns|].
    intros [lexer5 return_type] Htail. apply signature_tail_remaining in Htail.
    returns_steps.
    apply bind_returns; [apply statement_returns; enough_fuel|].
    intros [lexer7 commands] Hbody. returns_steps.
  - (* an external function *)
    apply bind_returns; [returns_steps|].
    intros [mcfunction_namespace mcfunction_path] Hlocation. returns_steps.
    apply bind_returns; [apply parameters_loop_returns; enough_fuel|].
    intros [lexer5 parameters] Hparameters.
    apply bind_returns; [apply signature_tail_returns|].
    intros [lexer6 return_type] Htail. returns_steps.
Qed.

Lemma compile_structures_returns (fuel : nat) :
  forall (lexer : Lexer) (context : Context) (namespace : list str)
         (imports : Imports) (functions : list Function),
    8 * remaining lexer + 1 <= fuel ->
    compile_structures fuel lexer context namespace imports functions <> OutOfFuel.
Proof.
  induction fuel as [|fuel IH]; intros lexer context namespace imports functions Hfuel;
    [lia|].
  cbn [compile_structures]. returns_steps.
  apply bind_returns; [apply compile_structure_returns; lia|].
  intros [lexer1 functions1] Hone. apply compile_structure_remaining in Hone.
  apply IH. lia.
Qed.

Lemma compile_block_returns (fuel : nat) (lexer : Lexer) (context : Context)
    (imports : Imports) (functions : list Function) :
  8 * remaining lexer <= fuel ->
  compile_block fuel lexer context imports functions <> OutOfFuel.
Proof.
  intros Hfuel. unfold compile_block. returns_steps.
  apply bind_returns; [apply namespace_loop_returns; enough_fuel|].
  intros [lexer3 namespace] Hnamespace. apply namespace_loop_remaining in Hnamespace.
  returns_steps.
  apply bind_returns; [apply compile_structures_returns; enough_fuel|].
  intros [lexer5 functions5] Hstructures. returns_steps.
Qed.

Lemma compile_blocks_returns (fuel : nat) :
  forall (lexer : Lexer) (context : Context) (imports : Imports)
         (functions : list Function),
    8 * remaining lexer + 1 <= fuel ->
    compile_blocks fuel lexer context imports functions <> OutOfFuel.
Proof.
  induction fuel as [|fuel IH]; intros lexer context imports functions Hfuel; [lia|].
  cbn [compile_blocks]. returns_steps.
  apply bind_returns; [apply compile_block_returns; lia|].
  intros [lexer1 functions1] Hone. apply compile_block_remaining in Hone.
  apply IH. lia.
Qed.

(** X25 — The parser ends on every text: each of its loops consumes at least
    one character of the text in every iteration, and so does every call
    of a function by itself, so that [compile_file] returns the
    functions, an error or an exception, and never runs out of the calls
    that the model counts. *)
Theorem compile_file_returns (filename : Path) (source : str)
    (functions : list Function) :
  compile_file filename source functions <> OutOfFuel.
Proof.
  unfold compile_file, compile_file_fuel, parser_fuel.
  assert (Hstart : remaining (Lexer_init source) = List.length source).
  { unfold remaining. simpl. lia. }
  apply bind_returns; [apply parse_imports_returns; lia|].
  intros [lexer imports] Himports. apply parse_imports_remaining in Himports.
  apply bind_returns; [apply compile_blocks_returns; lia|].
  intros [lexer' functions'] _. discriminate.
Qed.

(** ** The counter of the specification on the commands of the parser *)



(** The commands of the parser read as the statements they come from. *)
Section Reading.

Variable context : Context.
Variable parameters : dict CubentType.





End Reading.



(** The counter over commands that read as statements whose uses agree
    with the table *)
Section AgreementDepth.

Variable functions : list Function.















End AgreementDepth.

End Cubent.

(** ** The theorems at concrete inputs *)

(** A literal of 4301 digits before the suffix [b]: [next] raises
    [ValueError]. *)
Lemma C9_byte_literal_witness :
  let ds := repeat "1"%char 4301 in
  forallb isdigit ds = true
  /\ ds <> []
  /\ ("b" = "b" \/ "b" = "B")%char
  /\ next no_float (Lexer_init (ds ++ ["b"%char])) = Raise ValueError.
Proof.
  intros ds.
  assert (H1 : forallb isdigit ds = true) by (vm_compute; reflexivity).
  assert (H2 : ds <> []) by discriminate.
  assert (H3 : ("b" = "b" \/ "b" = "B")%char) by (left; reflexivity).
  split; [exact H1|]. split; [exact H2|]. split; [exact H3|].
  pose proof (C9_byte_literal no_float ds None "b"%char [] H1 H2 H3) as H.
  vm_compute in H. vm_compute. exact H.
Defined.

(** [127b] is a [BYTE] lexeme with the body [127b]. *)
Example lex_127b :
  lex no_float (S_ "127b") =
    Ok [Some (mkLexeme (Some BYTE) (mkPosition 0 0 0) (Some (S_ "127b")));
        Some (mkLexeme (Some EOF) (mkPosition 4 0 4) None)].
Proof. reflexivity. Qed.

(** A superscript two is a digit for [str.isdigit] and none for [int]:
    the literal is read to its end and [int] raises. *)
Example lex_superscript_byte :
  next no_float (Lexer_init (S_ "1" ++ ["178"%char; "b"%char])) = Raise ValueError.
Proof. reflexivity. Qed.

(** [128b] is not a [BYTE]: the lexeme has no type and its body is [128]. *)
Example lex_128b :
  lex no_float (S_ "128b") =
    Ok [Some (mkLexeme None (mkPosition 0 0 0) (Some (S_ "128")));
        Some (mkLexeme (Some IDENTIFIER) (mkPosition 3 0 3) (Some (S_ "b")));
        Some (mkLexeme (Some EOF) (mkPosition 4 0 4) None)].
Proof. reflexivity. Qed.



Lemma C6_lone_slash_witness :
  let self := mkLexer 1 0 1 (S_ "1/2") in
  peekch (skip_space self) = "/"%char
  /\ peekch (consume (skip_space self)) <> "/"%char
  /\ peekch (consume (skip_space self)) <> "*"%char
  /\ next no_float self = Ok (None, mkLexer 2 0 2 (S_ "1/2")).
Proof.
  intros self.
  assert (H1 : peekch (skip_space self) = "/"%char) by reflexivity.
  assert (H2 : peekch (consume (skip_space self)) <> "/"%char) by discriminate.
  assert (H3 : peekch (consume (skip_space self)) <> "*"%char) by discriminate.
  split; [exact H1|]. split; [exact H2|]. split; [exact H3|].
  exact (C6_lone_slash_returns_none no_float self H1 H2 H3).
Defined.

Lemma C5_call_pushes_nothing_witness :
  let call :=
    write_command literal_repr numbered_uuid int_returning (S_ "U") [S_ "internal"]
      (S_ "U.n:h") [S_ "n"; S_ "h"]
      (CALL [S_ "n"; S_ "g"] 0) nowhere ([Boolean], [[]]) world0 in
  call = (Ok ([Boolean], [[]]), snd call)
  /\ exists target_function popped,
       find_function int_returning [S_ "n"; S_ "g"] = Some target_function
       /\ [Boolean] = popped ++ [Boolean]
       /\ List.length popped = List.length (fn_parameters target_function)
       /\ Forall2 (fun argument_type parameter =>
                     convertible argument_type (snd parameter))
            popped (fn_parameters target_function)
       /\ ([[]] : Scope) = [[]].
Proof.
  intros call.
  assert (H : call = (Ok ([Boolean], [[]]), snd call)) by (vm_compute; reflexivity).
  split; [exact H|].
  exact (C5_call_pushes_nothing literal_repr numbered_uuid int_returning (S_ "U")
           [S_ "internal"] (S_ "U.n:h") [S_ "n"; S_ "h"] nowhere [S_ "n"; S_ "g"] 0
           [Boolean] [Boolean] [[]] [[]] world0 (snd call) H).
Defined.



(** A function without calls keeps the counter as well. *)
Example plain_function_balanced :
  compile_file_fuel no_float (parser_fuel balanced_source) main_file balanced_source []
  = Ok (functions_of no_float balanced_source)
  /\ depth_invariant (functions_of no_float balanced_source)
       (commands_of no_float balanced_source) = true.
Proof. vm_compute. repeat split. Qed.

(** The steps of the counter in that function: [var x = 1 + 2 * 3;] and
    [if (x == 7) { ... }] *)
Example balanced_steps :
  map (fun command => depth_effect [] (operation command))
    (commands_of no_float balanced_source)
  = [1; 1; -1; 1; -1; -1; 1; 1; -1; -1]%Z.
Proof. vm_compute. reflexivity. Qed.


(** Two declarations of [n.g]: the compiler accepts the file and its
    function list holds both. *)
Lemma C8_twice_declared_counterexample :
  match compile no_float literal_repr numbered_uuid nothing_exists every_directory
          one_source (fun _ => twice_declared) empty_mcmeta
          [] [[S_ "src"]] [S_ "out"] (mkMinecraftVersion 1 20 1) [S_ "pack.png"]
          (S_ "demo") world0 with
  | (Ok [f; g], _) => fn_path f = fn_path g
  | _ => False
  end.
Proof. vm_compute. reflexivity. Qed.

(** A declaration of [n.g] when the list holds a function [n.g]: the
    descriptor is added after it. *)
Lemma C8_declarations_appended_witness :
  let functions := [MCFunction [S_ "n"; S_ "g"] [] Void (S_ "minecraft:reload")] in
  let lexer := Lexer_init (S_ "function g(): Int { }") in
  match compile_structure no_float 40 lexer nowhere [S_ "n"] [] functions with
  | Ok (_, functions') =>
      functions' = functions ++ [CubentFunction [S_ "n"; S_ "g"] [] Int []]
      /\ exists f name,
           declared_name no_float lexer = Ok name
           /\ fn_path f = [S_ "n"] ++ [name]
           /\ functions' = functions ++ [f]
  | _ => False
  end.
Proof.
  intros functions lexer.
  destruct (compile_structure no_float 40 lexer nowhere [S_ "n"] [] functions)
    as [[lexer' functions'] | e | x |] eqn:H.
  - split.
    + vm_compute in H. injection H as _ <-. reflexivity.
    + exact (proj1 (C8_declarations_appended no_float 40) lexer nowhere [S_ "n"] []
               functions lexer' functions' H).
  - vm_compute in H. discriminate H.
  - vm_compute in H. discriminate H.
  - vm_compute in H. discriminate H.
Defined.

(** The whole compilation of [var x = 1 + 2;]: no written file mentions
    [Variables.x]. *)
Example hello_world_files :
  let '(result, w) :=
    compile no_float literal_repr numbered_uuid nothing_exists every_directory
      one_source (fun _ => hello_world) empty_mcmeta
      [] [[S_ "src"]] [S_ "out"] (mkMinecraftVersion 1 20 1) [S_ "pack.png"]
      (S_ "demo") world0 in
  let storage := S_ "uuid0.demo:main" in
  (exists functions, result = Ok functions)
  /\ trace w =
       [io_write [S_ "out"; S_ "data"; S_ "demo"; S_ "functions"; S_ "main.mcfunction"]
          (prologue storage ++ push_lines storage (S_ "1")
           ++ push_lines storage (S_ "2") ++ add_lines storage (S_ "Int"));
        io_makedirs [S_ "out"; S_ "data"; S_ "demo"; S_ "functions"];
        io_makedirs [S_ "out"; S_ "data"; S_ "uuid0"; S_ "functions"];
        io_copyfile [S_ "pack.png"] [S_ "out"; S_ "pack.png"];
        io_write [S_ "out"; S_ "pack.mcmeta"] (S_ "{}");
        io_read [S_ "src"; S_ "main.cubent"];
        io_glob [S_ "src"];
        io_isdir [S_ "src"];
        io_makedirs [S_ "out"];
        io_exists [S_ "out"]].
Proof. vm_compute. split; [eexists; reflexivity | reflexivity]. Qed.

(** A call of [n.g(a: Int, b: Byte)] on a stack of three values: with no
    argument recorded, and with three, the call pops the two values on top,
    a [Short] for [a] and an [Int] for [b], and leaves the third; on a
    stack of one value it raises [IndexError]. *)
Lemma C10_argc_ignored_witness :
  let call argc stack :=
    write_command literal_repr numbered_uuid two_parameters (S_ "U") [S_ "internal"]
      (S_ "U.n:h") [S_ "n"; S_ "h"]
      (CALL [S_ "n"; S_ "g"] argc) nowhere (stack, [[]]) world0 in
  let target :=
    CubentFunction [S_ "n"; S_ "g"] [(S_ "a", Int); (S_ "b", Byte)] Void [] in
  find_function two_parameters [S_ "n"; S_ "g"] = Some target
  /\ Forall2 (fun argument_type parameter => convertible argument_type (snd parameter))
       [Short; Int] (fn_parameters target)
  /\ fst (call 0 [Short; Int; String_]) = Ok ([String_], [[]])
  /\ fst (call 3 [Short; Int; String_]) = Ok ([String_], [[]])
  /\ fst (call 2 [Short]) = Raise IndexError
  /\ exists w', call 0 ([Short; Int] ++ [String_]) = (Ok ([String_], [[]]), w').
Proof.
  intros call target.
  assert (H1 : find_function two_parameters [S_ "n"; S_ "g"] = Some target)
    by reflexivity.
  assert (H2 : Forall2 (fun argument_type parameter =>
                          convertible argument_type (snd parameter))
                 [Short; Int] (fn_parameters target)).
  { repeat constructor; intros function_storage w; reflexivity. }
  split; [exact H1|]. split; [exact H2|].
  split; [vm_compute; reflexivity|]. split; [vm_compute; reflexivity|].
  split; [vm_compute; reflexivity|].
  exact (proj1 (proj2 (C10_argc_ignored literal_repr numbered_uuid two_parameters
                         (S_ "U") [S_ "internal"] (S_ "U.n:h") [S_ "n"; S_ "h"]))
           nowhere [S_ "n"; S_ "g"] 0 target [Short; Int] [String_] [[]] world0 H1 H2).
Defined.

(** ** The further theorems at concrete inputs *)

Lemma short_literal_witness :
  let self := mkLexer 4 0 4 (S_ "x = 32767S;") in
  rest_of self = S_ "32767" ++ "S"%char :: S_ ";"
  /\ S_ "32767" <> []
  /\ forallb isdigit (S_ "32767") = true
  /\ ("S" = "s" \/ "S" = "S")%char
  /\ next no_float self =
       Ok (Some (mkLexeme (Some SHORT) (mkPosition 4 0 4) (Some (S_ "32767s"))),
           mkLexer 10 0 10 (S_ "x = 32767S;")).
Proof.
  intros self.
  assert (H1 : rest_of self = S_ "32767" ++ "S"%char :: S_ ";") by reflexivity.
  assert (H2 : S_ "32767" <> []) by discriminate.
  assert (H3 : forallb isdigit (S_ "32767") = true) by reflexivity.
  assert (H4 : ("S" = "s" \/ "S" = "S")%char) by (right; reflexivity).
  split; [exact H1|]. split; [exact H2|]. split; [exact H3|]. split; [exact H4|].
  exact (short_literal no_float self (S_ "32767") "S"%char (S_ ";") H1 H2 H3 H4).
Defined.

Lemma long_literal_witness :
  let self := Lexer_init (S_ "9223372036854775808l") in
  rest_of self = S_ "9223372036854775808" ++ "l"%char :: []
  /\ S_ "9223372036854775808" <> []
  /\ forallb isdigit (S_ "9223372036854775808") = true
  /\ ("l" = "l" \/ "l" = "L")%char
  /\ next no_float self =
       Ok (Some (mkLexeme None (mkPosition 0 0 0) (Some (S_ "9223372036854775808"))),
           mkLexer 19 0 19 (S_ "9223372036854775808l")).
Proof.
  intros self.
  assert (H1 : rest_of self = S_ "9223372036854775808" ++ "l"%char :: [])
    by reflexivity.
  assert (H2 : S_ "9223372036854775808" <> []) by discriminate.
  assert (H3 : forallb isdigit (S_ "9223372036854775808") = true) by reflexivity.
  assert (H4 : ("l" = "l" \/ "l" = "L")%char) by (left; reflexivity).
  split; [exact H1|]. split; [exact H2|]. split; [exact H3|]. split; [exact H4|].
  exact (long_literal no_float self (S_ "9223372036854775808") "l"%char [] H1 H2 H3 H4).
Defined.

(** A superscript two after the digits belongs to the literal, and [int]
    does not take it. *)
Lemma int_literal_witness :
  let ds := S_ "12" ++ ["178"%char] in
  let self := mkLexer 2 0 2 (S_ "1+" ++ ds ++ S_ ";") in
  rest_of self = ds ++ S_ ";"
  /\ ds <> []
  /\ forallb isdigit ds = true
  /\ isdigit (hd NUL (S_ ";")) = false
  /\ hd NUL (S_ ";") <> "."%char
  /\ ch_in (lower (hd NUL (S_ ";"))) (S_ "bslfd") = false
  /\ next no_float self = Raise ValueError.
Proof.
  intros ds self.
  assert (H1 : rest_of self = ds ++ S_ ";") by reflexivity.
  assert (H2 : ds <> []) by discriminate.
  assert (H3 : forallb isdigit ds = true) by reflexivity.
  assert (H4 : isdigit (hd NUL (S_ ";")) = false) by reflexivity.
  assert (H5 : hd NUL (S_ ";") <> "."%char) by discriminate.
  assert (H6 : ch_in (lower (hd NUL (S_ ";"))) (S_ "bslfd") = false) by reflexivity.
  repeat (split; [assumption|]).
  exact (int_literal no_float self ds (S_ ";") H1 H2 H3 H4 H5 H6).
Defined.

(** Decimal digits of a value above the range of [Int] are a lexeme
    without a type. *)
Example int_out_of_range :
  next no_float (mkLexer 2 0 2 (S_ "1+2147483648;")) =
    Ok (Some (mkLexeme None (mkPosition 2 0 2) (Some (S_ "2147483648"))),
        mkLexer 12 0 12 (S_ "1+2147483648;")).
Proof. reflexivity. Qed.

(** A superscript two after the fraction belongs to the literal. *)
Lemma double_literal_witness :
  let fs := ["5"%char; "178"%char] in
  let self := Lexer_init (S_ "1." ++ fs ++ S_ ";") in
  rest_of self = S_ "1" ++ "."%char :: fs ++ S_ ";"
  /\ forallb isdigit (S_ "1") = true
  /\ forallb isdigit fs = true
  /\ isdigit (hd NUL (S_ ";")) = false
  /\ ch_in (lower (hd NUL (S_ ";"))) (S_ "bslfd") = false
  /\ next no_float self =
       Ok (Some (mkLexeme (Some DOUBLE) (mkPosition 0 0 0) (Some (S_ "1." ++ fs))),
           mkLexer 4 0 4 (S_ "1." ++ fs ++ S_ ";")).
Proof.
  intros fs self.
  assert (H1 : rest_of self = S_ "1" ++ "."%char :: fs ++ S_ ";") by reflexivity.
  assert (H2 : forallb isdigit (S_ "1") = true) by reflexivity.
  assert (H3 : forallb isdigit fs = true) by reflexivity.
  assert (H4 : isdigit (hd NUL (S_ ";")) = false) by reflexivity.
  assert (H5 : ch_in (lower (hd NUL (S_ ";"))) (S_ "bslfd") = false) by reflexivity.
  repeat (split; [assumption|]).
  exact (double_literal no_float self (S_ "1") fs (S_ ";") H1 H2 H3 H4 H5).
Defined.

(** A dot alone is a [DOUBLE] lexeme. *)
Example lone_dot :
  next no_float (Lexer_init (S_ ".")) =
    Ok (Some (mkLexeme (Some DOUBLE) (mkPosition 0 0 0) (Some (S_ "."))),
        mkLexer 1 0 1 (S_ ".")).
Proof. reflexivity. Qed.

(** An accented letter belongs to the word. *)
Lemma word_lexeme_witness :
  let w := ["233"%char; "x"%char] in
  let self := mkLexer 4 0 4 (S_ "var t" ++ w ++ S_ " = 1;") in
  rest_of self = "t"%char :: w ++ S_ " = 1;"
  /\ isalpha "t" = true
  /\ forallb isalnum w = true
  /\ isalnum (hd NUL (S_ " = 1;")) = false
  /\ next no_float self =
       Ok (Some (mkLexeme (Some IDENTIFIER) (mkPosition 4 0 4) (Some ("t"%char :: w))),
           mkLexer 7 0 7 (S_ "var t" ++ w ++ S_ " = 1;")).
Proof.
  intros w self.
  assert (H1 : rest_of self = "t"%char :: w ++ S_ " = 1;") by reflexivity.
  assert (H2 : isalpha "t" = true) by reflexivity.
  assert (H3 : forallb isalnum w = true) by reflexivity.
  assert (H4 : isalnum (hd NUL (S_ " = 1;")) = false) by reflexivity.
  repeat (split; [assumption|]).
  exact (word_lexeme no_float self "t"%char w (S_ " = 1;") H1 H2 H3 H4).
Defined.

Lemma string_literal_decoded_witness :
  let self := Lexer_init (DQUOTE :: S_ "it's " ++ BACKSLASH :: DQUOTE :: S_ "so"
                            ++ BACKSLASH :: DQUOTE :: DQUOTE :: S_ ";") in
  let body := S_ "it's " ++ BACKSLASH :: DQUOTE :: S_ "so" ++ [BACKSLASH; DQUOTE] in
  let s := S_ "it's " ++ DQUOTE :: S_ "so" ++ [DQUOTE] in
  (DQUOTE = DQUOTE \/ DQUOTE = SQUOTE)
  /\ spelled DQUOTE body = Some s
  /\ rest_of self = DQUOTE :: body ++ DQUOTE :: S_ ";"
  /\ next no_float self =
       Ok (Some (mkLexeme (Some STRING) (position self) (Some (DQUOTE :: body ++ [DQUOTE]))),
           advanced self (List.length body + 2))
  /\ decode_string (DQUOTE :: body ++ [DQUOTE]) = s.
Proof.
  intros self body s.
  assert (H1 : DQUOTE = DQUOTE \/ DQUOTE = SQUOTE) by (left; reflexivity).
  assert (H2 : spelled DQUOTE body = Some s) by reflexivity.
  assert (H3 : rest_of self = DQUOTE :: body ++ DQUOTE :: S_ ";") by reflexivity.
  repeat (split; [assumption|]).
  exact (string_literal_decoded no_float self DQUOTE body s (S_ ";") H1 H2 H3).
Defined.

Lemma eof_repeats_witness :
  let self := mkLexer 2 0 2 (S_ "x;  ") in
  let l := mkLexeme (Some EOF) (mkPosition 4 0 4) None in
  let self' := mkLexer 4 0 4 (S_ "x;  ") in
  next no_float self = Ok (Some l, self')
  /\ type_is l EOF = true
  /\ next no_float self' = Ok (Some l, self').
Proof.
  intros self l self'.
  assert (H1 : next no_float self = Ok (Some l, self')) by (vm_compute; reflexivity).
  assert (H2 : type_is l EOF = true) by reflexivity.
  repeat (split; [assumption|]).
  exact (eof_repeats no_float self l self' H1 H2).
Defined.

Lemma next_moves_forward_witness :
  let self := mkLexer 1 0 1 (S_ "x /* y */ + z") in
  let r := Some (mkLexeme None (mkPosition 10 0 10) (Some (S_ "+"))) in
  let self' := mkLexer 11 0 11 (S_ "x /* y */ + z") in
  next no_float self = Ok (r, self')
  /\ text self' = text self
  /\ offset self <= offset self'
  /\ (not_eof r = true -> offset self < offset self').
Proof.
  intros self r self'.
  assert (H1 : next no_float self = Ok (r, self')) by (vm_compute; reflexivity).
  split; [exact H1|].
  exact (next_moves_forward no_float self r self' H1).
Defined.

Lemma line_comment_skipped_witness :
  let self := mkLexer 3 0 3 (S_ "x; // note" ++ LF :: S_ "y;") in
  rest_of self = "/"%char :: "/"%char :: S_ " note" ++ LF :: S_ "y;"
  /\ forallb (fun x => negb (ch_in x [CR; LF; NUL])) (S_ " note") = true
  /\ ch_in (hd NUL (LF :: S_ "y;")) [CR; LF; NUL] = true
  /\ next no_float self = next no_float (advanced self (List.length (S_ " note") + 2)).
Proof.
  intros self.
  assert (H1 : rest_of self = "/"%char :: "/"%char :: S_ " note" ++ LF :: S_ "y;")
    by reflexivity.
  assert (H2 : forallb (fun x => negb (ch_in x [CR; LF; NUL])) (S_ " note") = true)
    by reflexivity.
  assert (H3 : ch_in (hd NUL (LF :: S_ "y;")) [CR; LF; NUL] = true) by reflexivity.
  repeat (split; [assumption|]).
  exact (line_comment_skipped no_float self (S_ " note") (LF :: S_ "y;") H1 H2 H3).
Defined.

Lemma block_comment_skipped_witness :
  let self := Lexer_init (S_ "/* a" ++ LF :: S_ " ** b */ y") in
  rest_of self = "/"%char :: "*"%char :: (S_ " a" ++ LF :: S_ " ** b ")
                   ++ "*"%char :: "/"%char :: S_ " y"
  /\ closes ((S_ " a" ++ LF :: S_ " ** b ") ++ ["*"%char]) = false
  /\ ch_in NUL (S_ " a" ++ LF :: S_ " ** b ") = false
  /\ next no_float self =
       next no_float (consumed (List.length (S_ " a" ++ LF :: S_ " ** b ") + 4) self).
Proof.
  intros self.
  assert (H1 : rest_of self = "/"%char :: "*"%char :: (S_ " a" ++ LF :: S_ " ** b ")
                                ++ "*"%char :: "/"%char :: S_ " y") by reflexivity.
  assert (H2 : closes ((S_ " a" ++ LF :: S_ " ** b ") ++ ["*"%char]) = false)
    by reflexivity.
  assert (H3 : ch_in NUL (S_ " a" ++ LF :: S_ " ** b ") = false) by reflexivity.
  repeat (split; [assumption|]).
  exact (block_comment_skipped no_float self (S_ " a" ++ LF :: S_ " ** b ")
           (S_ " y") H1 H2 H3).
Defined.

Lemma declare_variable_spec_witness :
  let scope : Scope := [[(S_ "x", Int)]; [(S_ "y", String_)]] in
  let scope' : Scope := [[(S_ "x", Int); (S_ "y", Boolean)]; [(S_ "y", String_)]] in
  declare_variable scope (S_ "y") Boolean = Some scope'
  /\ get_variable scope' (S_ "y") = Some Boolean
  /\ (forall other, other <> S_ "y" ->
                    get_variable scope' other = get_variable scope other)
  /\ (forall t', declare_variable scope' (S_ "y") t' = None).
Proof.
  intros scope scope'.
  assert (H : declare_variable scope (S_ "y") Boolean = Some scope') by reflexivity.
  split; [exact H|].
  exact (declare_variable_spec scope scope' (S_ "y") Boolean H).
Defined.

Lemma write_type_conversion_table_witness :
  let result := write_type_conversion Int Boolean (S_ "U.n:h") world0 in
  Int <> Void /\ Boolean <> Void
  /\ fst result = Ok true
  /\ trace (snd result) = []
  /\ uuids (snd result) = 0
  /\ exists written, buffer (snd result) = [] ++ written
                     /\ (false = true <-> written = []).
Proof.
  intros result.
  assert (H1 : Int <> Void) by discriminate.
  assert (H2 : Boolean <> Void) by discriminate.
  split; [exact H1|]. split; [exact H2|].
  exact (write_type_conversion_table Int Boolean (S_ "U.n:h") world0 H1 H2).
Defined.

Lemma unsupported_never_written_witness :
  let commands : list Command :=
    [(nowhere, LOAD (LitBoolean true));
     (nowhere, DO_IF [(nowhere, GET_ARG 0)])] in
  existsb (fun command : Command => unsupported (operation command)) commands = true
  /\ write_cubent_function literal_repr numbered_uuid [] (S_ "U") [S_ "n"; S_ "h"]
       commands [(S_ "ab", Int); (S_ "a", Int)] [S_ "out"; S_ "h.mcfunction"]
       [S_ "out"; S_ "data"; S_ "U"; S_ "functions"] [[]] world0
     <> (Ok [], world0).
Proof.
  intros commands.
  assert (H : existsb (fun command : Command => unsupported (operation command))
                commands = true) by reflexivity.
  split; [exact H|].
  exact (unsupported_never_written literal_repr numbered_uuid [] (S_ "U")
           [S_ "n"; S_ "h"] commands [(S_ "ab", Int); (S_ "a", Int)]
           [S_ "out"; S_ "h.mcfunction"]
           [S_ "out"; S_ "data"; S_ "U"; S_ "functions"] [[]] world0 world0 [] H).
Defined.

Lemma stack_holds_value_types_witness :
  let commands : list Command :=
    [(nowhere, LOAD (LitInt 1)); (nowhere, LOAD (LitString (S_ "a")));
     (nowhere, GET_VAR (S_ "x"))] in
  let scope : Scope := [[(S_ "x", Double)]] in
  let run :=
    write_commands literal_repr numbered_uuid [] (S_ "U") [S_ "n"; S_ "h"] commands []
      [S_ "internal"] scope world0 in
  run = (Ok [Double; String_; Int], snd run)
  /\ value_scope scope
  /\ value_stack [Double; String_; Int].
Proof.
  intros commands scope run.
  assert (H1 : run = (Ok [Double; String_; Int], snd run)) by (vm_compute; reflexivity).
  assert (H2 : value_scope scope) by (repeat constructor).
  split; [exact H1|]. split; [exact H2|].
  exact (stack_holds_value_types literal_repr numbered_uuid [] (S_ "U") [S_ "n"; S_ "h"]
           commands [] [S_ "internal"] scope world0 (snd run) [Double; String_; Int]
           H1 H2).
Defined.

Lemma compile_namespaces_distinct_witness :
  match compile no_float literal_repr numbered_uuid nothing_exists every_directory
          one_source (fun _ => call_as_statement) empty_mcmeta
          [] [[S_ "src"]] [S_ "out"] (mkMinecraftVersion 1 20 1) [S_ "pack.png"]
          (S_ "demo") world0 with
  | (Ok functions, _) =>
      user_namespaces functions = [[S_ "m"]; [S_ "n"]]
      /\ NoDup (user_namespaces functions)
  | _ => False
  end.
Proof.
  destruct (compile no_float literal_repr numbered_uuid nothing_exists every_directory
              one_source (fun _ => call_as_statement) empty_mcmeta
              [] [[S_ "src"]] [S_ "out"] (mkMinecraftVersion 1 20 1) [S_ "pack.png"]
              (S_ "demo") world0) as [[functions | e | x |] w] eqn:H.
  - split.
    + vm_compute in H. injection H as <- _. reflexivity.
    + exact (compile_namespaces_distinct _ _ _ _ _ _ _ _ _ _ _ _ _ _ _ _ _ H).
  - vm_compute in H. discriminate H.
  - vm_compute in H. discriminate H.
  - vm_compute in H. discriminate H.
Defined.

(** Two functions of the user in one namespace: [os.makedirs] raises on
    the directory of the namespace, which the first function made. *)
Example two_functions_in_a_namespace :
  fst (compile no_float literal_repr numbered_uuid nothing_exists every_directory
         one_source
         (fun _ => S_ "namespace n { function g(): Void { } function h(): Void { } }")
         empty_mcmeta
         [] [[S_ "src"]] [S_ "out"] (mkMinecraftVersion 1 20 1) [S_ "pack.png"]
         (S_ "demo") world0)
  = Raise FileExistsError.
Proof. vm_compute. reflexivity. Qed.

Lemma output_directory_wiped_first_witness :
  MinecraftVersion_lt (mkMinecraftVersion 1 20 1) MINIMAL_VERSION = false
  /\ exists later,
       trace (snd (compile no_float literal_repr numbered_uuid every_directory
                     every_directory one_source (fun _ => hello_world) empty_mcmeta
                     [] [[S_ "src"]] [S_ "out"] (mkMinecraftVersion 1 20 1)
                     [S_ "pack.png"] (S_ "demo") world0))
       = later ++ [io_makedirs [S_ "out"]]
         ++ (if every_directory [S_ "out"] then [io_rmtree [S_ "out"]] else [])
         ++ [io_exists [S_ "out"]] ++ trace world0.
Proof.
  assert (H : MinecraftVersion_lt (mkMinecraftVersion 1 20 1) MINIMAL_VERSION = false)
    by reflexivity.
  split; [exact H|].
  exact (output_directory_wiped_first no_float literal_repr numbered_uuid every_directory
           every_directory one_source (fun _ => hello_world) empty_mcmeta
           [] [[S_ "src"]] [S_ "out"] (mkMinecraftVersion 1 20 1)
           [S_ "pack.png"] (S_ "demo") world0 H).
Defined.

Lemma missing_source_directory_witness :
  MinecraftVersion_lt (mkMinecraftVersion 1 20 1) MINIMAL_VERSION = false
  /\ nothing_exists [S_ "src"] = false
  /\ compile no_float literal_repr numbered_uuid every_directory nothing_exists
       one_source (fun _ => hello_world) empty_mcmeta
       [] [[S_ "src"]] [S_ "out"] (mkMinecraftVersion 1 20 1) [S_ "pack.png"]
       (S_ "demo") world0
     = (Fail None,
        mkWorld [io_isdir [S_ "src"]; io_makedirs [S_ "out"]; io_rmtree [S_ "out"];
                 io_exists [S_ "out"]] 0 []).
Proof.
  assert (H1 : MinecraftVersion_lt (mkMinecraftVersion 1 20 1) MINIMAL_VERSION = false)
    by reflexivity.
  assert (H2 : nothing_exists [S_ "src"] = false) by reflexivity.
  split; [exact H1|]. split; [exact H2|].
  exact (missing_source_directory no_float literal_repr numbered_uuid every_directory
           nothing_exists one_source (fun _ => hello_world) empty_mcmeta
           [] [S_ "src"] [] [S_ "out"] (mkMinecraftVersion 1 20 1) [S_ "pack.png"]
           (S_ "demo") world0 H1 H2).
Defined.

Lemma version_parse_str_witness :
  (0 <= 1 < 10 ^ Z.of_nat MAX_STR_DIGITS)%Z
  /\ (0 <= 20 < 10 ^ Z.of_nat MAX_STR_DIGITS)%Z
  /\ (0 <= 0 < 10 ^ Z.of_nat MAX_STR_DIGITS)%Z
  /\ MinecraftVersion_str (mkMinecraftVersion 1 20 0) = Ok (S_ "1.20")
  /\ exists text,
       MinecraftVersion_str (mkMinecraftVersion 1 20 0) = Ok text
       /\ MinecraftVersion_parse text = Ok (Some (mkMinecraftVersion 1 20 0)).
Proof.
  assert (H1 : (0 <= 1 < 10 ^ Z.of_nat MAX_STR_DIGITS)%Z)
    by (apply small_below_limit; lia).
  assert (H2 : (0 <= 20 < 10 ^ Z.of_nat MAX_STR_DIGITS)%Z)
    by (apply small_below_limit; lia).
  assert (H3 : (0 <= 0 < 10 ^ Z.of_nat MAX_STR_DIGITS)%Z)
    by (apply small_below_limit; lia).
  split; [exact H1|]. split; [exact H2|]. split; [exact H3|].
  split; [reflexivity|].
  exact (version_parse_str (mkMinecraftVersion 1 20 0) H1 H2 H3).
Defined.

(** A superscript digit in a version: [isdigit] accepts the part and [int]
    raises. *)
Example version_superscript :
  MinecraftVersion_parse (S_ "1." ++ ["178"%char]) = Raise ValueError
  /\ MinecraftVersion_parse (S_ "1.x") = Ok None.
Proof. split; reflexivity. Qed.


Lemma parsed_functions_well_declared_witness :
  match compile_file no_float main_file twice_declared [] with
  | Ok functions' =>
      List.length functions' = 2
      /\ exists declared,
           functions' = [] ++ declared
           /\ Forall (well_declared main_file twice_declared) declared
  | _ => False
  end.
Proof.
  destruct (compile_file no_float main_file twice_declared [])
    as [functions' | e | x |] eqn:H.
  - split.
    + vm_compute in H. injection H as <-. reflexivity.
    + exact (parsed_functions_well_declared no_float main_file twice_declared [] _ H).
  - vm_compute in H. discriminate H.
  - vm_compute in H. discriminate H.
  - vm_compute in H. discriminate H.
Defined.

Lemma parsed_commands_located_witness :
  compile_file no_float main_file balanced_source []
  = Ok (functions_of no_float balanced_source)
  /\ In (CubentFunction [S_ "n"; S_ "h"] [] Void (commands_of no_float balanced_source))
       (functions_of no_float balanced_source)
  /\ Forall (located main_file balanced_source [S_ "n"; S_ "h"])
       (contexts_of (commands_of no_float balanced_source)).
Proof.
  assert (H1 : compile_file no_float main_file balanced_source []
               = Ok (functions_of no_float balanced_source))
    by (vm_compute; reflexivity).
  assert (H2 : In (CubentFunction [S_ "n"; S_ "h"] [] Void
                     (commands_of no_float balanced_source))
                 (functions_of no_float balanced_source))
    by (vm_compute; left; reflexivity).
  split; [exact H1|]. split; [exact H2|].
  exact (parsed_commands_located no_float main_file balanced_source
           (functions_of no_float balanced_source) [S_ "n"; S_ "h"] [] Void
           (commands_of no_float balanced_source) H1 H2).
Defined.

Lemma get_arg_index_witness :
  let parameters : dict CubentType :=
    [(S_ "xy", Int); (S_ "ab", Int); (S_ "ac", Byte); (S_ "a", String_)] in
  let lexeme := mkLexeme (Some IDENTIFIER) (mkPosition 0 0 0) (Some (S_ "a")) in
  primary_command nowhere parameters lexeme = Ok (nowhere, GET_ARG 1)
  /\ lx_type lexeme = Some IDENTIFIER
  /\ 1 < List.length parameters
  /\ In (body_str lexeme) (dict_keys parameters)
  /\ (exists a b,
        nth_error (dict_keys parameters) 1 = Some [a; b] /\ body_str lexeme = [a])
  /\ forall earlier,
       earlier < 1 ->
       exists c d,
         nth_error (dict_keys parameters) earlier = Some [c; d]
         /\ [c] <> body_str lexeme.
Proof.
  intros parameters lexeme.
  assert (H : primary_command nowhere parameters lexeme = Ok (nowhere, GET_ARG 1))
    by reflexivity.
  split; [exact H|].
  exact (get_arg_index nowhere parameters lexeme nowhere 1 H).
Defined.


(** The whole compilation of a function [n.h] with a call of [m.g] and
    then an [if]: the helper function of the [if] empties and fills the
    stack of [m.g], while [h.mcfunction] reads the condition from the
    stack of [n.h]. *)
Example helper_after_call :
  let '(result, w) :=
    compile no_float literal_repr numbered_uuid nothing_exists every_directory
      one_source (fun _ => if_after_call) empty_mcmeta
      [] [[S_ "src"]] [S_ "out"] (mkMinecraftVersion 1 20 1) [S_ "pack.png"]
      (S_ "demo") world0 in
  (exists functions, result = Ok functions)
  /\ firstn 2 (trace w) =
       [io_write [S_ "out"; S_ "data"; S_ "n"; S_ "functions"; S_ "h.mcfunction"]
          (prologue (S_ "uuid0.n:h")
           ++ S_ "data modify storage cubent:storage Arguments set value []" ++ NL
           ++ S_ "function m:g" ++ NL
           ++ push_lines (S_ "uuid0.n:h") (S_ "true")
           ++ do_if_lines (S_ "uuid0.n:h") (S_ "uuid0:uuid1"));
        io_write [S_ "out"; S_ "data"; S_ "uuid0"; S_ "functions";
                  S_ "uuid1.mcfunction"]
          (prologue (S_ "uuid0.m:g") ++ push_lines (S_ "uuid0.m:g") (S_ "1"))].
Proof. vm_compute. split; [eexists; reflexivity | reflexivity]. Qed.

Lemma unterminated_string_witness :
  let self := mkLexer 4 0 4 (S_ "x = 'abc" ++ LF :: S_ "y") in
  (SQUOTE = DQUOTE \/ SQUOTE = SQUOTE)
  /\ spelled SQUOTE (S_ "abc") = Some (S_ "abc")
  /\ rest_of self = SQUOTE :: S_ "abc" ++ LF :: S_ "y"
  /\ ch_in (hd NUL (LF :: S_ "y")) [CR; LF; NUL] = true
  /\ next no_float self =
       Ok (Some (mkLexeme None (mkPosition 4 0 4) (Some (SQUOTE :: S_ "abc"))),
           mkLexer 8 0 8 (S_ "x = 'abc" ++ LF :: S_ "y")).
Proof.
  intros self.
  assert (H1 : SQUOTE = DQUOTE \/ SQUOTE = SQUOTE) by (right; reflexivity).
  assert (H2 : spelled SQUOTE (S_ "abc") = Some (S_ "abc")) by reflexivity.
  assert (H3 : rest_of self = SQUOTE :: S_ "abc" ++ LF :: S_ "y") by reflexivity.
  assert (H4 : ch_in (hd NUL (LF :: S_ "y")) [CR; LF; NUL] = true) by reflexivity.
  repeat (split; [assumption|]).
  exact (unterminated_string no_float self SQUOTE (S_ "abc") (S_ "abc") (LF :: S_ "y")
           H1 H2 H3 H4).
Defined.

(** A file that stops in the middle of a function: the parser reports an
    error at the end of the text. *)
Example compile_file_cut_short :
  match compile_file no_float main_file
          (S_ "namespace n { function h(): Void { var x = ") [] with
  | Fail (Some (ErrorAt e)) => err_position e = mkPosition 43 0 43
  | _ => False
  end.
Proof. vm_compute. reflexivity. Qed.
